(** * Limbo: LP-based graph coloring and the dual min-cost-flow engine adapters

    A shallow embedding of
    - [limbo/algorithms/coloring/LPColoring.h] (class [LPColoring]), and
    - the solver adapters declared in [limbo/solvers/DualMinCostFlow.h].

    Conventions.
    - A [double] that the program reads back from the LP engine is a
      rational number ([Q]); the program only compares such values, rounds
      them, and multiplies them with the small offsets [b - value].
      Comparisons of the source ([==], [<], [>]) are the decidable
      comparisons of [Q].
    - A [uint32_t] is an [N] with its wrap-around written out ([u32]).
    - A [std::vector] is a [list]; reading or writing outside of it is
      undefined in the source and is [None] here.
    - The LP engine (Gurobi) is external: what it reports (values, slacks)
      is data handed to the functions below. *)

From Stdlib Require Import ZArith NArith QArith Qabs Qround Ascii String Lia Lqa.
From stdpp Require Import base option list numbers.

Open Scope Q_scope.

(** ** Machine integers *)

Definition u32 (n : N) : N := (n mod 2 ^ 32)%N.

(** [std::numeric_limits<uint32_t>::max()] *)
Definition UINT32_MAX : N := 4294967295%N.

(** Conversion to [int8_t]. Outside of the range of [int8_t] the
    conversion of a [double] is not defined in the source, and the model
    wraps around there; the properties below use it on 0, 1 and their
    sums only, where it is exact. *)
Definition to_int8 (z : Z) : Z := ((z + 128) mod 256 - 128)%Z.

(** ** Doubles as rationals *)

Definition Qlt_bool (x y : Q) : bool := negb (Qle_bool y x).

(** [round] of <cmath>: nearest integer, halfway cases away from zero. *)
Definition round (x : Q) : Z :=
  if Qle_bool 0 x then Qfloor (x + (1 # 2)) else (- Qfloor (- x + (1 # 2)))%Z.

(** [LPColoring::is_integer]: [value == floor(value)]. *)
Definition is_integer (value : Q) : bool :=
  Qeq_bool value (inject_Z (Qfloor value)).

(** ** The conflict graph

    Vertices are the indices [0 .. num_vertices-1]; the edge list is in the
    order in which [boost::edges] enumerates it, and a vertex sees its
    neighbours in that order too (the graph is undirected). *)

Abbreviation graph_vertex_type := nat (only parsing).
Abbreviation graph_edge_type := (nat * nat)%type (only parsing).

Record graph_type := {
  num_vertices : nat;
  edges : list graph_edge_type
}.

Definition source (e : graph_edge_type) : graph_vertex_type := e.1.
Definition target (e : graph_edge_type) : graph_vertex_type := e.2.

Definition adjacent_vertices (cv : graph_vertex_type) (g : graph_type)
  : list graph_vertex_type :=
  flat_map (fun e =>
              (if decide (source e = cv) then [target e] else []) ++
              (if decide (target e = cv) then [source e] else []))
           (edges g).

(** [Coloring::ColorNumType] *)
Inductive ColorNumType := THREE | FOUR.

(** ** Linear expressions and constraints of the LP engine

    A variable handle [GRBVar] is the position of the variable in the
    model; [vColorBits[i]] is variable [i]. *)

Abbreviation GRBVar := N (only parsing).

Record GRBLinExpr := {
  constant : Q;
  terms : list (Q * GRBVar)
}.

Definition lin_const (c : Q) : GRBLinExpr := {| constant := c; terms := [] |}.
Definition lin_var (v : GRBVar) : GRBLinExpr :=
  {| constant := 0; terms := [(1, v)] |}.
Definition lin_add (a b : GRBLinExpr) : GRBLinExpr :=
  {| constant := constant a + constant b; terms := terms a ++ terms b |}.
Definition lin_neg (a : GRBLinExpr) : GRBLinExpr :=
  {| constant := - constant a;
     terms := map (fun t => (- t.1, t.2)) (terms a) |}.
Definition lin_sub (a b : GRBLinExpr) : GRBLinExpr := lin_add a (lin_neg b).

Declare Scope lin_scope.
Delimit Scope lin_scope with lin.
Bind Scope lin_scope with GRBLinExpr.
Notation "a + b" := (lin_add a b) : lin_scope.
Notation "a - b" := (lin_sub a b) : lin_scope.

(** Value of an expression under an assignment of the variables. *)
Definition eval (a : GRBVar -> Q) (e : GRBLinExpr) : Q :=
  fold_left (fun acc t => acc + t.1 * a t.2) (terms e) (constant e).

(** [GRB_GREATER_EQUAL], [GRB_LESS_EQUAL] and [GRB_EQUAL] are the
    characters ['>'], ['<'] and ['=']. *)
Definition GRB_GREATER_EQUAL : ascii := ">"%char.
Definition GRB_LESS_EQUAL : ascii := "<"%char.
Definition GRB_EQUAL : ascii := "="%char.

Record GRBTempConstr := {
  lhs : GRBLinExpr;
  tsense : ascii;
  rhs : Q
}.

Definition ge_constr (e : GRBLinExpr) (r : Q) : GRBTempConstr :=
  {| lhs := e; tsense := GRB_GREATER_EQUAL; rhs := r |}.
Definition le_constr (e : GRBLinExpr) (r : Q) : GRBTempConstr :=
  {| lhs := e; tsense := GRB_LESS_EQUAL; rhs := r |}.

Definition satisfied (a : GRBVar -> Q) (c : GRBTempConstr) : Prop :=
  if Ascii.eqb (tsense c) GRB_GREATER_EQUAL then rhs c <= eval a (lhs c)
  else if Ascii.eqb (tsense c) GRB_LESS_EQUAL then eval a (lhs c) <= rhs c
  else eval a (lhs c) == rhs c.

(** ** [LPColoring::set_optimize_model] *)

(** [uint32_t bitIdx = v<<1] *)
Definition bitIdx (v : graph_vertex_type) : N := u32 (N.shiftl (N.of_nat v) 1).

(** The four constraints added for one edge, in the order of the source.
    [s1], [s2] stand for [vColorBits[bitIdxS]], [vColorBits[bitIdxS+1]] and
    [t1], [t2] for [vColorBits[bitIdxT]], [vColorBits[bitIdxT+1]]. *)
Definition edge_cover_constraints (e : graph_edge_type) : list GRBTempConstr :=
  let bitIdxS := bitIdx (source e) in
  let bitIdxT := bitIdx (target e) in
  let one := lin_const 1 in
  let s1 := lin_var bitIdxS in let s2 := lin_var (u32 (bitIdxS + 1)) in
  let t1 := lin_var bitIdxT in let t2 := lin_var (u32 (bitIdxT + 1)) in
  [ ge_constr (s1 + s2 + t1 + t2)%lin 1;
    ge_constr (one - s1 + s2 + one - t1 + t2)%lin 1;
    ge_constr (s1 + one - s2 + t1 + one - t2)%lin 1;
    ge_constr (one - s1 + one - s2 + one - t1 + one - t2)%lin 1 ].

(** The indices [k = 0, 2, 4, ... < numColorBits] of the loop
    [for (k = 0; k < numColorBits; k += 2)]. *)
Definition even_indices (numColorBits : N) : list N :=
  map (fun i => (2 * N.of_nat i)%N)
      (seq 0 (N.to_nat (N.div2 (numColorBits + 1)))).

Definition three_color_constraints (numColorBits : N) : list GRBTempConstr :=
  map (fun k => le_constr (lin_var k + lin_var (u32 (k + 1)))%lin 1)
      (even_indices numColorBits).

(** The model: its variables, their bounds [(LB, UB)], the objective and
    the constraints. The names of the variables and of the constraints
    ("v%u", "e%u", "R%u") are left out; [m_constrs_num] is the counter
    behind the names of the constraints. *)
Record OptModel := {
  vColorBits : list GRBVar;
  vEdgeBits : list GRBVar;
  bounds : list (Q * Q);
  obj : GRBLinExpr;
  constrs : list GRBTempConstr;
  m_constrs_num : N
}.

(** The weights of the edges are not part of the graph of this model:
    the function only asserts that each of them is positive. *)
Definition set_optimize_model (g : graph_type) (color_num : ColorNumType)
  : OptModel :=
  let numVertices := u32 (N.of_nat (num_vertices g)) in
  let numEdges := u32 (N.of_nat (length (edges g))) in
  let numColorBits := u32 (N.shiftl numVertices 1) in
  let cs := flat_map edge_cover_constraints (edges g) ++
            match color_num with
            | THREE => three_color_constraints numColorBits
            | FOUR => []
            end in
  {| vColorBits := map N.of_nat (seq 0 (N.to_nat numColorBits));
     vEdgeBits := map (fun i => (numColorBits + N.of_nat i)%N)
                      (seq 0 (N.to_nat numEdges));
     bounds := replicate (N.to_nat numColorBits + N.to_nat numEdges) (0, 1);
     obj := lin_const 0;
     constrs := cs;
     m_constrs_num := u32 (N.of_nat (length cs)) |}.

(** ** Reading and writing vectors *)

(** [l[i] = x]; outside of the vector the source has no defined behaviour. *)
Definition store {A} (l : list A) (i : nat) (x : A) : option (list A) :=
  if decide (i < length l)%nat then Some (<[i:=x]> l) else None.

(** A loop over [l] whose body may fail. *)
Fixpoint for_each {A St} (body : A -> St -> option St) (l : list A) (s : St)
  : option St :=
  match l with
  | [] => Some s
  | x :: l' => s' ← body x s; for_each body l' s'
  end.

(** [X] below is always the vector of the values of the color bits:
    [X !! k] is [vColorBits[k].get(GRB_DoubleAttr_X)]. *)
Definition getX (X : list Q) (k : N) : option Q := X !! N.to_nat k.

(** ** [LPColoring::set_anchor] and [LPColoring::max_degree_vertex] *)

Definition degree (v : graph_vertex_type) (g : graph_type) : N :=
  u32 (N.of_nat (length (adjacent_vertices v g))).

Definition max_degree_vertex (g : graph_type) : graph_vertex_type :=
  fst (fold_left (fun (acc : graph_vertex_type * N) vi =>
                    let d := degree vi g in
                    if (acc.2 <? d)%N then (vi, d) else acc)
                 (seq 0 (num_vertices g)) (0%nat, 0%N)).

(** [vColorBits[v].set(GRB_DoubleAttr_UB, ub)] and the same for the lower
    bound, on the vector of the bounds [(LB, UB)] of the variables. *)
Definition setUB (bs : list (Q * Q)) (v : GRBVar) (ub : Q)
  : option (list (Q * Q)) :=
  b ← bs !! N.to_nat v; Some (<[N.to_nat v := (b.1, ub)]> bs).
Definition setLB (bs : list (Q * Q)) (v : GRBVar) (lb : Q)
  : option (list (Q * Q)) :=
  b ← bs !! N.to_nat v; Some (<[N.to_nat v := (lb, b.2)]> bs).

Definition set_anchor (has_precolored : bool) (g : graph_type)
  (bs : list (Q * Q)) : option (list (Q * Q)) :=
  if has_precolored then Some bs
  else
    let anchorVertex := max_degree_vertex g in
    let bitIdxAnchor := bitIdx anchorVertex in
    bs ← setUB bs bitIdxAnchor 0;
    bs ← setLB bs bitIdxAnchor 0;
    bs ← setUB bs (u32 (bitIdxAnchor + 1)) 0;
    setLB bs (u32 (bitIdxAnchor + 1)) 0.

(** ** [LPColoring::adjust_variable_pair_in_objective] *)

(** The body of the loop for the pair at positions [k], [k+1]. *)
Definition adjust_variable_pair (k : N) (value1 value2 : Q) (obj : GRBLinExpr)
  : GRBLinExpr :=
  if negb (is_integer value1) || negb (is_integer value2) then
    if Qlt_bool value2 value1 then
      (obj + (lin_var (u32 (k + 1)) - lin_var k))%lin
    else if Qlt_bool value1 value2 then
      (obj + (lin_var k - lin_var (u32 (k + 1))))%lin
    else obj
  else obj.

Definition adjust_variable_pair_in_objective (X : list Q) (obj : GRBLinExpr)
  : option GRBLinExpr :=
  for_each (fun k obj =>
              value1 ← getX X k;
              value2 ← getX X (u32 (k + 1));
              Some (adjust_variable_pair k value1 value2 obj))
           (even_indices (u32 (N.of_nat (length X)))) obj.

(** ** [LPColoring::adjust_conflict_edge_vertices_in_objective] *)

Definition adjust_edge_bit (bitIdxS bitIdxT : N) (value1 value2 : Q)
  (obj : GRBLinExpr) : GRBLinExpr :=
  if Qlt_bool value2 value1 then
    (obj + (lin_var bitIdxT - lin_var bitIdxS))%lin
  else if Qlt_bool value1 value2 then
    (obj + (lin_var bitIdxS - lin_var bitIdxT))%lin
  else obj.

Definition adjust_conflict_edge_vertices_in_objective (g : graph_type)
  (X : list Q) (obj : GRBLinExpr) : option GRBLinExpr :=
  for_each
    (fun e obj =>
       for_each
         (fun i obj =>
            let bitIdxS := u32 (bitIdx (source e) + i) in
            let bitIdxT := u32 (bitIdx (target e) + i) in
            value1 ← getX X bitIdxS;
            value2 ← getX X bitIdxT;
            Some (adjust_edge_bit bitIdxS bitIdxT value1 value2 obj))
         [0%N; 1%N] obj)
    (edges g) obj.

(** ** [LPColoring::non_integer_num] *)

Record NonIntegerInfo := {
  vertex_non_integer_num : N;
  edge_non_integer_num : N;
  vertex_half_integer_num : N;
  edge_half_integer_num : N
}.

(** The default constructor sets every counter to the numeric maximum. *)
Definition NonIntegerInfo_init : NonIntegerInfo :=
  {| vertex_non_integer_num := UINT32_MAX;
     edge_non_integer_num := UINT32_MAX;
     vertex_half_integer_num := UINT32_MAX;
     edge_half_integer_num := UINT32_MAX |}.

(** The two counters computed from one vector of variables. *)
Definition non_integer_num_of (vVariables : list Q) : N * N :=
  fold_left (fun (acc : N * N) value =>
               if negb (Qeq_bool value 0) && negb (Qeq_bool value 1) then
                 (u32 (acc.1 + 1),
                  if Qeq_bool value (1 # 2) then u32 (acc.2 + 1) else acc.2)
               else acc)
            vVariables (0%N, 0%N).

Definition non_integer_num (X XE : list Q) : NonIntegerInfo :=
  let v := non_integer_num_of X in
  let e := non_integer_num_of XE in
  {| vertex_non_integer_num := v.1;
     edge_non_integer_num := e.1;
     vertex_half_integer_num := v.2;
     edge_half_integer_num := e.2 |}.

(** ** [LPColoring::get_odd_cycles]

    The stack [vVertexStack] is kept with its top (the [back()] of the
    vector) at the head of the list. *)

Record DFSState := {
  vNodeDistColor : list Z;
  vNodeVisited : list bool;
  vInCycle : list bool;
  vVertexStack : list graph_vertex_type;
  vOddCyle : list (list graph_vertex_type)
}.

(** The first loop over the neighbours of [cv]: the first neighbour whose
    distance entry is [-1], if any. *)
Fixpoint first_unseen (dist : list Z) (nbrs : list graph_vertex_type)
  : option (option graph_vertex_type) :=
  match nbrs with
  | [] => Some None
  | u :: nbrs' =>
      d ← dist !! u;
      if decide (d = (-1)%Z) then Some (Some u) else first_unseen dist nbrs'
  end.

(** What the source does with an unseen neighbour [u] of [cv]. *)
Definition visit_unseen (cv u : graph_vertex_type) (st : DFSState)
  : option DFSState :=
  dcv ← vNodeDistColor st !! cv;
  dist1 ← store (vNodeDistColor st) u (1 - dcv)%Z;
  (* [vNodeDistColor[u] = true;] the boolean is converted to the integer 1 *)
  dist2 ← store dist1 u 1%Z;
  Some {| vNodeDistColor := dist2;
          vNodeVisited := vNodeVisited st;
          vInCycle := vInCycle st;
          vVertexStack := u :: vVertexStack st;
          vOddCyle := vOddCyle st |}.

(** The loop [for (k = cnt-1; k >= 0; k--)] that walks down the stack until
    [u] is met. *)
Fixpoint trace_cycle (stack : list graph_vertex_type) (u : graph_vertex_type)
  (inCycle : list bool) : option (list graph_vertex_type * list bool) :=
  match stack with
  | [] => Some ([], inCycle)
  | x :: below =>
      inCycle' ← store inCycle x true;
      if decide (x = u) then Some ([x], inCycle')
      else r ← trace_cycle below u inCycle'; Some (x :: r.1, r.2)
  end.

(** The body of the second loop over the neighbours of [cv]. *)
Definition detect_odd_cycle (v cv u : graph_vertex_type) (st : DFSState)
  : option DFSState :=
  visited ← vNodeVisited st !! u;
  du ← vNodeDistColor st !! u;
  dcv ← vNodeDistColor st !! cv;
  if visited && bool_decide (du = dcv) then
    inCycle ← store (vInCycle st) v true;
    r ← trace_cycle (vVertexStack st) u inCycle;
    inV ← r.2 !! v;
    Some {| vNodeDistColor := vNodeDistColor st;
            vNodeVisited := vNodeVisited st;
            vInCycle := r.2;
            vVertexStack := vVertexStack st;
            vOddCyle := if negb (bool_decide (r.1 = [])) && inV
                        then vOddCyle st ++ [r.1] else vOddCyle st |}
  else Some st.

(** One iteration of the [while] loop, for a stack with top [cv]. *)
Definition dfs_step (g : graph_type) (v cv : graph_vertex_type) (st : DFSState)
  : option DFSState :=
  found ← first_unseen (vNodeDistColor st) (adjacent_vertices cv g);
  match found with
  | Some u => visit_unseen cv u st
  | None =>
      st' ← for_each (detect_odd_cycle v cv) (adjacent_vertices cv g) st;
      visited' ← store (vNodeVisited st') cv false;
      Some {| vNodeDistColor := vNodeDistColor st';
              vNodeVisited := visited';
              vInCycle := vInCycle st';
              vVertexStack := tail (vVertexStack st');
              vOddCyle := vOddCyle st' |}
  end.

(** The [while (!vVertexStack.empty())] loop; [None] when the fuel runs
    out or a vector is accessed outside of its range. *)
Fixpoint dfs_loop (fuel : nat) (g : graph_type) (v : graph_vertex_type)
  (st : DFSState) : option DFSState :=
  match vVertexStack st with
  | [] => Some st
  | cv :: _ =>
      match fuel with
      | O => None
      | S fuel' => st' ← dfs_step g v cv st; dfs_loop fuel' g v st'
      end
  end.

Definition dfs_init (g : graph_type) (v : graph_vertex_type)
  : option DFSState :=
  let numVertices := N.to_nat (u32 (N.of_nat (num_vertices g))) in
  visited ← store (replicate numVertices false) v true;
  dist ← store (replicate numVertices (-1)%Z) v 0%Z;
  Some {| vNodeDistColor := dist;
          vNodeVisited := visited;
          vInCycle := replicate numVertices false;
          vVertexStack := [v];
          vOddCyle := [] |}.

Definition get_odd_cycles (fuel : nat) (g : graph_type) (v : graph_vertex_type)
  : option (list (list graph_vertex_type)) :=
  st ← dfs_init g v;
  st' ← dfs_loop fuel g v st;
  Some (vOddCyle st').

(** ** [LPColoring::add_odd_cycle_constraints] *)

(** The four constraints added for one odd cycle. *)
Definition odd_cycle_constraints (oddCycle : list graph_vertex_type)
  : list GRBTempConstr :=
  let cycleLength := Z.of_nat (length oddCycle) in
  let constraint1 :=
    fold_left (fun c u => (c + lin_var (N.shiftl (N.of_nat u) 1))%lin)
              oddCycle (lin_const 0) in
  let constraint2 :=
    fold_left (fun c u => (c + lin_var (N.shiftl (N.of_nat u) 1 + 1)%N)%lin)
              oddCycle (lin_const 0) in
  [ ge_constr constraint1 1;
    le_constr constraint1 (inject_Z (cycleLength - 1));
    ge_constr constraint2 1;
    le_constr constraint2 (inject_Z (cycleLength - 1)) ].

(** Returns the constraints that the call adds to the model, in order. *)
Definition add_odd_cycle_constraints (fuel : nat) (g : graph_type)
  (numColorBits : N) : option (list GRBTempConstr) :=
  for_each (fun k added =>
              let v := N.to_nat (N.shiftr k 1) in
              vOddCyle ← get_odd_cycles fuel g v;
              Some (added ++ flat_map odd_cycle_constraints vOddCyle))
           (even_indices numColorBits) [].

(** ** [LPColoring::ConstrVariableInfo] *)

Record ConstrVariableInfo := {
  coeff : Q;
  sense : ascii
}.

Definition ConstrVariableInfo_init : ConstrVariableInfo :=
  {| coeff := 0; sense := ">"%char |}.

Definition same_direction (this rhs : ConstrVariableInfo) : bool :=
  if Qeq_bool (coeff this) 0 || Qeq_bool (coeff rhs) 0 then true
  else if Ascii.eqb (sense this) (sense rhs) then
    (Qlt_bool 0 (coeff this) && Qlt_bool 0 (coeff rhs))
    || (Qlt_bool (coeff this) 0 && Qlt_bool (coeff rhs) 0)
  else
    (Qlt_bool 0 (coeff this) && Qlt_bool (coeff rhs) 0)
    || (Qlt_bool (coeff this) 0 && Qlt_bool 0 (coeff rhs)).

(** ** The optimized model as [rounding_with_binding_analysis] queries it

    A constraint of the optimized model carries the slack that the engine
    reports for it. [getCoeff] is the coefficient of a variable in the row
    and [getCol] the constraints in which the variable occurs. *)

Record GRBConstr := {
  row : GRBTempConstr;
  Slack : Q
}.

Definition getCoeff (constr : GRBConstr) (var : GRBVar) : Q :=
  fold_left (fun acc t => if decide (t.2 = var) then acc + t.1 else acc)
            (terms (lhs (row constr))) 0.

Definition getCol (optModel : list GRBConstr) (var : GRBVar)
  : list GRBConstr :=
  filter (fun constr => negb (Qeq_bool (getCoeff constr var) 0)) optModel.

(** ** [LPColoring::rounding_with_binding_analysis] *)

(** [bool mValidColorBits[2][2]]. The loops index it by [b1] and [b2] in
    [{0,1}] only. *)
Record ValidColorBits := {
  valid00 : bool; valid01 : bool;
  valid10 : bool; valid11 : bool
}.

Definition get_valid (m : ValidColorBits) (b1 b2 : nat) : bool :=
  match b1, b2 with
  | O, O => valid00 m
  | O, _ => valid01 m
  | _, O => valid10 m
  | _, _ => valid11 m
  end.

Definition set_valid (m : ValidColorBits) (b1 b2 : nat) (x : bool)
  : ValidColorBits :=
  match b1, b2 with
  | O, O => {| valid00 := x; valid01 := valid01 m;
               valid10 := valid10 m; valid11 := valid11 m |}
  | O, _ => {| valid00 := valid00 m; valid01 := x;
               valid10 := valid10 m; valid11 := valid11 m |}
  | _, O => {| valid00 := valid00 m; valid01 := valid01 m;
               valid10 := x; valid11 := valid11 m |}
  | _, _ => {| valid00 := valid00 m; valid01 := valid01 m;
               valid10 := valid10 m; valid11 := x |}
  end.

(** The pairs [(b1,b2)] in the order of the two nested loops. *)
Definition color_bit_pairs : list (nat * nat) :=
  [(0, 0); (0, 1); (1, 0); (1, 1)]%nat.

Definition init_valid (color_num : ColorNumType) : ValidColorBits :=
  let m := {| valid00 := true; valid01 := true;
              valid10 := true; valid11 := true |} in
  match color_num with
  | THREE => set_valid m 1 1 false
  | FOUR => m
  end.

(** The state of the scan of one pair of variables. *)
Record PairScan := {
  mValidColorBits : ValidColorBits;
  invalidCount : N;
  failFlag : bool;
  prevConstrInfo : ConstrVariableInfo * ConstrVariableInfo
}.

Definition init_scan (color_num : ColorNumType) : PairScan :=
  {| mValidColorBits := init_valid color_num;
     invalidCount := 0;
     failFlag := false;
     prevConstrInfo := (ConstrVariableInfo_init, ConstrVariableInfo_init) |}.

(** [delta] of a candidate and the test that fails it. *)
Definition delta (cur : ConstrVariableInfo * ConstrVariableInfo)
  (value1 value2 : Q) (b1 b2 : nat) : Q :=
  coeff cur.1 * (inject_Z (Z.of_nat b1) - value1)
  + coeff cur.2 * (inject_Z (Z.of_nat b2) - value2).

Definition fails (sense : ascii) (d : Q) : bool :=
  (Ascii.eqb sense ">"%char && Qlt_bool d 0)
  || (Ascii.eqb sense "<"%char && Qlt_bool 0 d).

(** The two nested loops "check all coloring solutions". *)
Definition check_candidates (sense : ascii)
  (cur : ConstrVariableInfo * ConstrVariableInfo) (value1 value2 : Q)
  (m : ValidColorBits) (invalidCount : N) : ValidColorBits * N :=
  fold_left (fun (acc : ValidColorBits * N) (b : nat * nat) =>
               if get_valid acc.1 b.1 b.2 then
                 if fails sense (delta cur value1 value2 b.1 b.2) then
                   (set_valid acc.1 b.1 b.2 false, u32 (acc.2 + 1))
                 else acc
               else acc)
            color_bit_pairs (m, invalidCount).

(** The body of the loop over the constraints of a column. *)
Definition scan_constr (var1 var2 : GRBVar) (value1 value2 : Q)
  (constr : GRBConstr) (st : PairScan) : PairScan :=
  if negb (Qeq_bool (Slack constr) 0) then st      (* skip: not binding *)
  else
    let sense := tsense (row constr) in
    let cur := ({| coeff := getCoeff constr var1; sense := sense |},
                {| coeff := getCoeff constr var2; sense := sense |}) in
    if negb (same_direction cur.1 (prevConstrInfo st).1)
       || negb (same_direction cur.2 (prevConstrInfo st).2) then
      {| mValidColorBits := mValidColorBits st;
         invalidCount := invalidCount st;
         failFlag := true;
         prevConstrInfo := prevConstrInfo st |}
    else
      let r := check_candidates sense cur value1 value2
                                (mValidColorBits st) (invalidCount st) in
      if (r.2 =? 4)%N then
        {| mValidColorBits := r.1;
           invalidCount := r.2;
           failFlag := true;
           prevConstrInfo := prevConstrInfo st |}
      else
        {| mValidColorBits := r.1;
           invalidCount := r.2;
           failFlag := false;
           prevConstrInfo := cur |}.

(** The loop over one column; it is left as soon as [failFlag] is set. *)
Fixpoint scan_column (var1 var2 : GRBVar) (value1 value2 : Q)
  (column : list GRBConstr) (st : PairScan) : PairScan :=
  match column with
  | [] => st
  | constr :: column' =>
      let st' := scan_constr var1 var2 value1 value2 constr st in
      if failFlag st' then st'
      else scan_column var1 var2 value1 value2 column' st'
  end.

(** The loop [for (j = 0; j != 2 && !failFlag; ++j)] over both columns. *)
Definition scan_pair (color_num : ColorNumType) (optModel : list GRBConstr)
  (var1 var2 : GRBVar) (value1 value2 : Q) : PairScan :=
  let st := scan_column var1 var2 value1 value2 (getCol optModel var1)
                        (init_scan color_num) in
  if failFlag st then st
  else scan_column var1 var2 value1 value2 (getCol optModel var2) st.

(** The "apply" step: every candidate that is still valid writes the
    bounds of both variables, in the order of the loops. *)
Definition apply_valid (st : PairScan) (var1 var2 : GRBVar)
  (bs : list (Q * Q)) : option (list (Q * Q)) :=
  if failFlag st then Some bs
  else
    for_each (fun (b : nat * nat) bs =>
                if get_valid (mValidColorBits st) b.1 b.2 then
                  bs ← setUB bs var1 (inject_Z (Z.of_nat b.1));
                  bs ← setLB bs var1 (inject_Z (Z.of_nat b.1));
                  bs ← setUB bs var2 (inject_Z (Z.of_nat b.2));
                  setLB bs var2 (inject_Z (Z.of_nat b.2))
                else Some bs)
             color_bit_pairs bs.

(** The body of the loop over the pairs [i], [i+1]. *)
Definition round_pair (color_num : ColorNumType) (optModel : list GRBConstr)
  (X : list Q) (i : N) (bs : list (Q * Q)) : option (list (Q * Q)) :=
  value1 ← getX X i;
  value2 ← getX X (u32 (i + 1));
  if negb (Qeq_bool value1 (1 # 2) && Qeq_bool value2 (1 # 2)) then Some bs
  else
    let st := scan_pair color_num optModel i (u32 (i + 1)) value1 value2 in
    apply_valid st i (u32 (i + 1)) bs.

(** One pass of the [while] loop of [rounding_with_binding_analysis] over
    all the pairs. *)
Definition rounding_pass (color_num : ColorNumType)
  (optModel : list GRBConstr) (X : list Q) (bs : list (Q * Q))
  : option (list (Q * Q)) :=
  for_each (round_pair color_num optModel X)
           (even_indices (u32 (N.of_nat (length X)))) bs.

(** ** [LPColoring::apply_solution]

    [m_vColor] is the vector of colors ([int8_t]) of the base class. *)

Definition apply_solution (X : list Q) (m_vColor : list Z)
  : option (list Z) :=
  let ie := u32 (N.of_nat (length m_vColor)) in
  for_each (fun i m_vColor =>
              value1 ← getX X (u32 (N.shiftl i 1));
              value2 ← getX X (u32 (u32 (N.shiftl i 1) + 1));
              let b1 := to_int8 (round value1) in
              let b2 := to_int8 (round value2) in
              store m_vColor (N.to_nat i) (to_int8 (Z.shiftl b1 1 + b2)))
           (map N.of_nat (seq 0 (N.to_nat ie))) m_vColor.

(** ** [LPColoring::refine_color] and [LPColoring::post_refinement] *)

(** [bool mValidColors[2][4]]; an access outside of it is undefined. *)
Definition ValidColors := list (list bool).

Definition init_valid_colors (color_num : ColorNumType) : ValidColors :=
  match color_num with
  | THREE => [[true; true; true; false]; [true; true; true; false]]
  | FOUR => [[true; true; true; true]; [true; true; true; true]]
  end.

Definition read_valid (m : ValidColors) (c1 c2 : Z) : option bool :=
  if decide (0 <= c1 /\ 0 <= c2)%Z then
    r ← m !! Z.to_nat c1; r !! Z.to_nat c2
  else None.

Definition clear_valid (m : ValidColors) (c1 c2 : Z) : option ValidColors :=
  if decide (0 <= c1 /\ 0 <= c2)%Z then
    r ← m !! Z.to_nat c1;
    r' ← store r (Z.to_nat c2) false;
    store m (Z.to_nat c1) r'
  else None.

(** The loop over both end points [cv] of the edge and over the neighbours
    of [cv] other than the opposite end point [ov]. *)
Definition mark_neighbor_colors (g : graph_type) (m_vColor : list Z)
  (v0 v1 : graph_vertex_type) (m : ValidColors) : option ValidColors :=
  for_each (fun (p : graph_vertex_type * graph_vertex_type) m =>
              let cv := p.1 in let ov := p.2 in
              for_each (fun u m =>
                          if decide (u ≠ ov) then
                            c ← m_vColor !! u; clear_valid m 0 c
                          else Some m)
                       (adjacent_vertices cv g) m)
           [(v0, v1); (v1, v0)] m.

(** The pairs [(c1,c2)] in the order of the two nested loops. *)
Definition color_pairs : list (Z * Z) :=
  c1 ← [0; 1; 2; 3]%Z; c2 ← [0; 1; 2; 3]%Z; [(c1, c2)].

(** The two nested loops: the pair of colors that is assigned, if any. *)
Fixpoint search_color_pair (g : graph_type) (m_vColor : list Z)
  (v0 v1 : graph_vertex_type) (pairs : list (Z * Z)) (m : ValidColors)
  : option (option (Z * Z)) :=
  match pairs with
  | [] => Some None
  | (c1, c2) :: pairs' =>
      if decide (c1 ≠ c2) then
        ok ← read_valid m c1 c2;
        if (ok : bool) then
          m' ← mark_neighbor_colors g m_vColor v0 v1 m;
          ok' ← read_valid m' c1 c2;
          if (ok' : bool) then Some (Some (c1, c2))
          else search_color_pair g m_vColor v0 v1 pairs' m'
        else search_color_pair g m_vColor v0 v1 pairs' m
      else search_color_pair g m_vColor v0 v1 pairs' m
  end.

Definition refine_color (g : graph_type) (color_num : ColorNumType)
  (m_vColor : list Z) (e : graph_edge_type) : option (bool * list Z) :=
  let v0 := source e in
  let v1 := target e in
  col0 ← m_vColor !! v0;
  col1 ← m_vColor !! v1;
  if decide (col0 ≠ col1) then Some (false, m_vColor)
  else
    found ← search_color_pair g m_vColor v0 v1 color_pairs
                              (init_valid_colors color_num);
    match found with
    | Some (c1, c2) =>
        m_vColor' ← store m_vColor v0 c1;
        m_vColor'' ← store m_vColor' v1 c2;
        Some (true, m_vColor'')
    | None => Some (false, m_vColor)
    end.

Definition post_refinement (has_precolored : bool) (g : graph_type)
  (color_num : ColorNumType) (m_vColor : list Z) : option (N * list Z) :=
  if has_precolored then Some (0%N, m_vColor)
  else
    for_each (fun e (acc : N * list Z) =>
                r ← refine_color g color_num acc.2 e;
                Some (u32 (acc.1 + (if (r.1 : bool) then 1 else 0)), r.2))
             (edges g) (0%N, m_vColor).

(** The number of edges whose end points hold the same color. *)
Definition same_color_edges (g : graph_type) (m_vColor : list Z) : nat :=
  length (filter (fun e =>
                    bool_decide (m_vColor !! source e = m_vColor !! target e))
                 (edges g)).

(** ** The two refinement loops *)

Inductive result (A : Type) :=
| Done (a : A)      (* the loop is left *)
| Abort             (* a failed assertion or an access outside a vector *)
| Timeout.          (* the fuel of the model ran out *)
Arguments Done {A} a.
Arguments Abort {A}.
Arguments Timeout {A}.

(** [while (curInfo.vertex_non_integer_num > 0
            && curInfo.vertex_non_integer_num < prevInfo.vertex_non_integer_num)
       { body; prevInfo = curInfo; non_integer_num(..., curInfo); }]
    The result carries the number of iterations that were executed. *)
Fixpoint while_non_integer_decreases {St : Type} (body : St -> option St)
  (census : St -> NonIntegerInfo) (fuel : nat)
  (prevInfo curInfo : NonIntegerInfo) (s : St) (iterations : nat)
  : result (St * nat) :=
  if (0 <? vertex_non_integer_num curInfo)%N
     && (vertex_non_integer_num curInfo <? vertex_non_integer_num prevInfo)%N
  then
    match fuel with
    | O => Timeout
    | S fuel' =>
        match body s with
        | None => Abort
        | Some s' =>
            while_non_integer_decreases body census fuel' curInfo
                                        (census s') s' (S iterations)
        end
    end
  else Done (s, iterations).

(** What the engine reports after [optimize]. *)
Record Solution := {
  X : list Q;         (* values of vColorBits *)
  XE : list Q;        (* values of vEdgeBits *)
  slacks : list Q     (* slack of each constraint *)
}.

Definition optimized_constrs (m : OptModel) (sol : Solution)
  : list GRBConstr :=
  zip_with (fun c s => {| row := c; Slack := s |}) (constrs m) (slacks sol).

Definition set_bounds (m : OptModel) (bs : list (Q * Q)) : OptModel :=
  {| vColorBits := vColorBits m; vEdgeBits := vEdgeBits m; bounds := bs;
     obj := obj m; constrs := constrs m; m_constrs_num := m_constrs_num m |}.

(** The loop of [rounding_with_binding_analysis]. The model is not
    optimized again inside of the loop: the values that are read stay those
    of [sol]. *)
Definition rounding_with_binding_analysis (fuel : nat)
  (color_num : ColorNumType) (m : OptModel) (sol : Solution)
  : result (OptModel * nat) :=
  while_non_integer_decreases
    (fun m => bs ← rounding_pass color_num (optimized_constrs m sol) (X sol)
                                 (bounds m);
              Some (set_bounds m bs))
    (fun _ => non_integer_num (X sol) (XE sol))
    fuel NonIntegerInfo_init (non_integer_num (X sol) (XE sol)) m 0%nat.

Section Coloring.

(** The engine: [None] stands for the status [GRB_INFEASIBLE], on which
    the program stops with a failed assertion. *)
Variable optimize : OptModel -> option Solution.

Variable g : graph_type.
Variable color_num : ColorNumType.

(** [has_precolored()] of the base class. *)
Variable has_precolored : bool.

(** The body of the [while] loop of [coloring]. *)
Definition refine_iteration (fuel_dfs : nat) (st : OptModel * Solution)
  : option (OptModel * Solution) :=
  let m := st.1 in
  obj1 ← adjust_variable_pair_in_objective (X st.2) (obj m);
  obj2 ← adjust_conflict_edge_vertices_in_objective g (X st.2) obj1;
  added ← add_odd_cycle_constraints fuel_dfs g
            (u32 (N.of_nat (length (vColorBits m))));
  let m' := {| vColorBits := vColorBits m; vEdgeBits := vEdgeBits m;
               bounds := bounds m; obj := obj2;
               constrs := constrs m ++ added;
               m_constrs_num :=
                 u32 (m_constrs_num m + N.of_nat (length added)) |} in
  sol' ← optimize m';
  Some (m', sol').

Definition coloring_loop (fuel fuel_dfs : nat) (m : OptModel)
  (sol : Solution) : result (OptModel * Solution * nat) :=
  while_non_integer_decreases
    (refine_iteration fuel_dfs)
    (fun st => non_integer_num (X st.2) (XE st.2))
    fuel NonIntegerInfo_init (non_integer_num (X sol) (XE sol)) (m, sol)
    0%nat.

(** [LPColoring::coloring]; the result is the final [m_vColor] (the cost
    of it is computed by the base class). *)
Definition coloring (fuel fuel_dfs : nat) (m_vColor : list Z)
  : result (list Z) :=
  let m := set_optimize_model g color_num in
  match bs ← set_anchor has_precolored g (bounds m);
        sol ← optimize (set_bounds m bs);
        Some (set_bounds m bs, sol) with
  | None => Abort
  | Some (m, sol) =>
      match coloring_loop fuel fuel_dfs m sol with
      | Done (m, sol, _) =>
          match rounding_with_binding_analysis fuel color_num m sol with
          | Done _ =>
              match apply_solution (X sol) m_vColor with
              | Some m_vColor =>
                  match post_refinement has_precolored g color_num
                                        m_vColor with
                  | Some r => Done r.2
                  | None => Abort
                  end
              | None => Abort
              end
          | Abort => Abort
          | Timeout => Timeout
          end
      | Abort => Abort
      | Timeout => Timeout
      end
  end.

End Coloring.

(** ** The min-cost-flow engine adapters of [DualMinCostFlow.h] *)

Module lemon.
(** [lemon::CostScaling::Method] *)
Inductive CostScalingMethod := PUSH | AUGMENT | PARTIAL_AUGMENT.
(** [lemon::NetworkSimplex::PivotRule] *)
Inductive PivotRule :=
| FIRST_ELIGIBLE | BEST_ELIGIBLE | BLOCK_SEARCH | CANDIDATE_LIST
| ALTERING_LIST.
(** [lemon::CycleCanceling::Method] *)
Inductive CycleCancelingMethod :=
| SIMPLE_CYCLE_CANCELING | MINIMUM_MEAN_CYCLE_CANCELING | CANCEL_AND_TIGHTEN.
End lemon.

(** The data members of the four adapter classes. *)
Record CapacityScaling := { cap_m_factor : Z }.
Record CostScaling := {
  cost_m_method : lemon.CostScalingMethod;
  cost_m_factor : Z
}.
Record NetworkSimplex := { m_pivotRule : lemon.PivotRule }.
Record CycleCanceling := { cyc_m_method : lemon.CycleCancelingMethod }.

(** Modelled from the spec: the bodies of the four constructors, which are
    in the implementation file of the header and not in the header. Each
    constructor stores its parameters in the members ("parameter: scaling
    factor", "method ...; factor", "pivot rule", "method"). An argument
    that the caller leaves out is [None] and takes the default value that
    the declaration in the header gives. *)
Definition new_CapacityScaling (factor : option Z) : CapacityScaling :=
  {| cap_m_factor := default 4%Z factor |}.
Definition new_CostScaling (method : option lemon.CostScalingMethod)
  (factor : option Z) : CostScaling :=
  {| cost_m_method := default lemon.PARTIAL_AUGMENT method;
     cost_m_factor := default 16%Z factor |}.
Definition new_NetworkSimplex (pivotRule : option lemon.PivotRule)
  : NetworkSimplex :=
  {| m_pivotRule := default lemon.BLOCK_SEARCH pivotRule |}.
Definition new_CycleCanceling (method : option lemon.CycleCancelingMethod)
  : CycleCanceling :=
  {| cyc_m_method := default lemon.CANCEL_AND_TIGHTEN method |}.

(** ** Reference definitions used in the statements *)

(** The assignment of the variables that a vector of values stands for. *)
Definition assignment (X : list Q) (v : GRBVar) : Q :=
  default 0 (X !! N.to_nat v).

(** What the pair of variables at positions [k], [k+1] with the values
    [value1], [value2] contributes to the objective: [v2 - v1] when the
    first value is the larger one, [v1 - v2] when it is the smaller one,
    nothing when the values are equal or both are integers. *)
Definition pair_gain (a : GRBVar -> Q) (k : N) (value1 value2 : Q) : Q :=
  if is_integer value1 && is_integer value2 then 0
  else if Qlt_bool value2 value1 then a (k + 1)%N - a k
  else if Qlt_bool value1 value2 then a k - a (k + 1)%N
  else 0.

(** Sum of the contributions of the pairs [i] of the list [l]. *)
Definition total_gain (a : GRBVar -> Q) (X : list Q) (l : list nat) : Q :=
  fold_right (fun i acc =>
                pair_gain a (2 * N.of_nat i)
                          (default 0 (X !! (2 * i)%nat))
                          (default 0 (X !! (2 * i + 1)%nat)) + acc)
             0 l.

(** The graphs that the program is given: the end points of every edge
    are vertices, and the number of vertices fits the 32-bit counters. *)
Definition wf_graph (g : graph_type) : Prop :=
  (N.of_nat (num_vertices g) < 2 ^ 31)%N
  /\ Forall (fun e => (source e < num_vertices g)%nat
                      /\ (target e < num_vertices g)%nat) (edges g).

(** No edge joins a vertex with itself. *)
Definition no_self_loop (g : graph_type) : Prop :=
  Forall (fun e => source e <> target e) (edges g).

(** The color that [apply_solution] composes from two values. *)
Definition color_of (value1 value2 : Q) : Z :=
  to_int8 (Z.shiftl (to_int8 (round value1)) 1 + to_int8 (round value2)).

(** The number of iterations that the loop can still make. *)
Definition iterations_left (prevInfo curInfo : NonIntegerInfo) : nat :=
  if (vertex_non_integer_num curInfo <? vertex_non_integer_num prevInfo)%N
  then N.to_nat (vertex_non_integer_num curInfo) else 0%nat.



(** The number of vertices that the odd-cycle search has not seen. *)
Definition unseen (dist : list Z) : nat :=
  length (filter (fun d => d = (-1)%Z) dist).

(** The measure that every iteration of the search decreases. *)
Definition potential (st : DFSState) : nat :=
  (2 * unseen (vNodeDistColor st) + length (vVertexStack st))%nat.

(** What holds of the state of the search from the root [v] in a graph
    without self-loops, before and after every iteration. *)
Record dfs_inv (g : graph_type) (v : graph_vertex_type) (st : DFSState)
  : Prop := {
  inv_dist_length : length (vNodeDistColor st) = num_vertices g;
  inv_visited_length : length (vNodeVisited st) = num_vertices g;
  inv_cycles : vOddCyle st = [];
  inv_visited : forall u, vNodeVisited st !! u = Some true -> u = v;
  inv_root : vNodeDistColor st !! v = Some 0%Z;
  inv_stack : forall x, x ∈ vVertexStack st ->
                        (x < num_vertices g)%nat
                        /\ (x <> v -> vNodeDistColor st !! x = Some 1%Z)
}.

(** The shape of the state of the odd-cycle search from the root [v]: the
    three vectors have one entry for every vertex, and the root and what
    is on the stack are vertices. *)
Record dfs_shape (g : graph_type) (v : graph_vertex_type) (st : DFSState)
  : Prop := {
  shape_dist : length (vNodeDistColor st) = num_vertices g;
  shape_visited : length (vNodeVisited st) = num_vertices g;
  shape_inCycle : length (vInCycle st) = num_vertices g;
  shape_root : (v < num_vertices g)%nat;
  shape_stack : forall x, x ∈ vVertexStack st -> (x < num_vertices g)%nat
}.

(** The slack that the engine reports for a constraint at a solution:
    the right-hand side minus the value of the left-hand side. *)
Definition slack_at (a : GRBVar -> Q) (c : GRBTempConstr) : Q :=
  rhs c - eval a (lhs c).







(** ** Reference definitions for the further properties *)

(** The two bits of a color, and the values of the color bits that stand
    for a vector of colors: the color of vertex [i] at the positions [2i]
    and [2i+1]. *)
Definition color_bits (c : Z) : list Q :=
  [inject_Z (Z.shiftr c 1); inject_Z (Z.land c 1)].

Definition encode_colors (m_vColor : list Z) : list Q :=
  flat_map color_bits m_vColor.

(** The vertex that [set_anchor] fixes, if any. *)
Definition anchor_of (has_precolored : bool) (g : graph_type) : option nat :=
  if has_precolored then None else Some (max_degree_vertex g).

(** The assignment with both bits of the anchor at 0 and every other
    variable at 0.5. *)
Definition half_point (anchor : option nat) (v : GRBVar) : Q :=
  match anchor with
  | Some u => if decide (N.div2 v = N.of_nat u) then 0 else 1 # 2
  | None => 1 # 2
  end.

(** The distance between the values of the two color bits of the end
    points of an edge, and its sum over a list of edges. *)
Definition bit_distance (X : list Q) (e : graph_edge_type) : Q :=
  Qabs (assignment X (2 * N.of_nat (source e))%N
        - assignment X (2 * N.of_nat (target e))%N)
  + Qabs (assignment X (2 * N.of_nat (source e) + 1)%N
          - assignment X (2 * N.of_nat (target e) + 1)%N).

Definition total_bit_distance (X : list Q) (l : list graph_edge_type) : Q :=
  fold_right (fun e acc => bit_distance X e + acc) 0 l.

(** The last candidate, in the order of the loops, that is still valid. *)
Definition last_valid (m : ValidColorBits) : option (nat * nat) :=
  list.last (List.filter (fun b : nat * nat => get_valid m b.1 b.2)
                    color_bit_pairs).

(** The sum of the bits [i] (0 or 1) of the vertices of a cycle. *)
Definition bit_sum (a : GRBVar -> Q) (i : N)
  (oddCycle : list graph_vertex_type) : Q :=
  fold_right (fun u acc => a (2 * N.of_nat u + i)%N + acc) 0 oddCycle.

(** ** Small inputs used in the examples *)

(** The path 0 - 1 - 2. *)
Definition path3 : graph_type :=
  {| num_vertices := 3; edges := [(0, 1); (1, 2)]%nat |}.

(** A hub 0 with the neighbours 1, 4, 5, 6, and vertex 1 with the further
    neighbours 2 and 3. Vertex 0 has the largest degree. *)
Definition hub_graph : graph_type :=
  {| num_vertices := 7;
     edges := [(0, 4); (0, 5); (0, 6); (0, 1); (1, 3); (1, 2)]%nat |}.

(** Values of the color bits of [hub_graph], two for every vertex. *)
Definition hub_solution : list Q :=
  [0; 0; 1; 3 # 8; 5 # 8; 3 # 8; 0; 0; 0; 1; 0; 1; 0; 1].

(** The triangle 0 - 1 - 2 - 0. *)
Definition triangle : graph_type :=
  {| num_vertices := 3; edges := [(0, 1); (1, 2); (0, 2)]%nat |}.

(** A single vertex without edges. *)
Definition single_vertex : graph_type :=
  {| num_vertices := 1; edges := [] |}.

(** Two binding constraints [x0 >= 1/2] and [x1 >= 1/2]. *)
Definition binding_x0 : GRBConstr :=
  {| row := ge_constr (lin_var 0%N) (1 # 2); Slack := 0 |}.
Definition binding_x1 : GRBConstr :=
  {| row := ge_constr (lin_var 1%N) (1 # 2); Slack := 0 |}.

(** Two vertices, an edge between them and an edge from vertex 1 to
    itself. *)
Definition loop_graph : graph_type :=
  {| num_vertices := 2; edges := [(0, 1); (1, 1)]%nat |}.

(** Vertex 0 with the neighbours 1, 3 and 4, and vertex 1 with the further
    neighbour 2; a solution of its model with four colors that has the
    anchor 0 at (0,0), vertex 1 at (0.5,0.5), vertex 2 at (1,0) and the
    vertices 3 and 4 at (0,1), with the slacks of the constraints at this
    solution. *)
Definition fork_graph : graph_type :=
  {| num_vertices := 5; edges := [(0, 1); (1, 2); (0, 3); (0, 4)]%nat |}.

Definition fork_values : list Q := [0; 0; 1 # 2; 1 # 2; 1; 0; 0; 1; 0; 1].

Definition fork_solution : Solution :=
  {| X := fork_values; XE := [0; 0; 0; 0];
     slacks := map (slack_at (assignment fork_values))
                   (constrs (set_optimize_model fork_graph FOUR)) |}.


(** * Properties *)

(** ** Loops and vectors *)

Lemma for_each_unchanged {A St} (body : A -> St -> option St) (l : list A)
  (s : St) :
  (forall x, x ∈ l -> body x s = Some s) -> for_each body l s = Some s.
Proof.
  induction l as [|x l IH]; intros H; [reflexivity|].
  simpl. rewrite H by apply list_elem_of_here. simpl.
  apply IH. intros y Hy. apply H. now apply list_elem_of_further.
Qed.

Lemma store_Some {A} (l : list A) (i : nat) (x : A) :
  (i < length l)%nat -> store l i x = Some (<[i:=x]> l).
Proof. intros H. unfold store. destruct (decide _); [reflexivity|lia]. Qed.

(** A loop whose body is defined on every state with the property [P] and
    keeps [P] is defined, and [P] holds at its end. *)
Lemma for_each_total {A St} (P : St -> Prop) (body : A -> St -> option St)
  (l : list A) (s : St) :
  (forall x s, x ∈ l -> P s -> exists s', body x s = Some s' /\ P s') ->
  P s -> exists s', for_each body l s = Some s' /\ P s'.
Proof.
  revert s. induction l as [|x l IH]; intros s Hbody Hs.
  - exists s. split; [reflexivity|exact Hs].
  - destruct (Hbody x s (list_elem_of_here x l) Hs) as (s1 & H1 & Hs1).
    destruct (IH s1) as (s' & H' & Hs'); [|exact Hs1|].
    { intros y t Hy. apply Hbody. now apply list_elem_of_further. }
    exists s'. simpl. rewrite H1. simpl. split; assumption.
Qed.

(** ** Arithmetic of the machine integers and of the rationals *)

Lemma u32_small (n : N) : (n < 4294967296)%N -> u32 n = n.
Proof. intros H. unfold u32. change (2 ^ 32)%N with 4294967296%N. now apply N.mod_small. Qed.

Lemma u32_le (n : N) : (u32 n <= n)%N.
Proof. unfold u32. apply N.Div0.mod_le. Qed.

Lemma Qlt_bool_iff (x y : Q) : Qlt_bool x y = true <-> x < y.
Proof.
  unfold Qlt_bool. rewrite negb_true_iff. split.
  - intros H. apply Qnot_le_lt. intros Hle. apply Qle_bool_iff in Hle. congruence.
  - intros H. destruct (Qle_bool y x) eqn:E; [|reflexivity].
    apply Qle_bool_iff in E. lra.
Qed.

Lemma Qlt_bool_false_iff (x y : Q) : Qlt_bool x y = false <-> y <= x.
Proof.
  unfold Qlt_bool. rewrite negb_false_iff. apply Qle_bool_iff.
Qed.

Lemma Qlt_bool_proper (x x' y y' : Q) :
  x == x' -> y == y' -> Qlt_bool x y = Qlt_bool x' y'.
Proof.
  intros Hx Hy.
  destruct (Qlt_bool x y) eqn:E1, (Qlt_bool x' y') eqn:E2; try reflexivity.
  - apply Qlt_bool_iff in E1. apply Qlt_bool_false_iff in E2. lra.
  - apply Qlt_bool_iff in E2. apply Qlt_bool_false_iff in E1. lra.
Qed.

(** ** Linear expressions *)

Lemma eval_terms_acc (a : GRBVar -> Q) (l : list (Q * GRBVar)) (c : Q) :
  fold_left (fun acc t => acc + t.1 * a t.2) l c
  == c + fold_left (fun acc t => acc + t.1 * a t.2) l 0.
Proof.
  revert c. induction l as [|t l IH]; intros c; simpl.
  - lra.
  - rewrite (IH (c + t.1 * a t.2)), (IH (0 + t.1 * a t.2)). lra.
Qed.

Lemma eval_terms_app (a : GRBVar -> Q) (l1 l2 : list (Q * GRBVar)) (c : Q) :
  fold_left (fun acc t => acc + t.1 * a t.2) (l1 ++ l2) c
  == fold_left (fun acc t => acc + t.1 * a t.2) l1 c
     + fold_left (fun acc t => acc + t.1 * a t.2) l2 0.
Proof.
  rewrite fold_left_app.
  now rewrite (eval_terms_acc a l2 (fold_left _ l1 c)).
Qed.

Lemma eval_terms_neg (a : GRBVar -> Q) (l : list (Q * GRBVar)) :
  fold_left (fun acc t => acc + t.1 * a t.2) (map (fun t => (- t.1, t.2)) l) 0
  == - fold_left (fun acc t => acc + t.1 * a t.2) l 0.
Proof.
  induction l as [|t l IH]; simpl.
  - lra.
  - rewrite (eval_terms_acc a (map _ l) (0 + - t.1 * a t.2)).
    rewrite (eval_terms_acc a l (0 + t.1 * a t.2)).
    rewrite IH. lra.
Qed.

Lemma eval_lin_const (a : GRBVar -> Q) (c : Q) : eval a (lin_const c) == c.
Proof. unfold eval. simpl. lra. Qed.

Lemma eval_lin_var (a : GRBVar -> Q) (v : GRBVar) : eval a (lin_var v) == a v.
Proof. unfold eval. simpl. lra. Qed.

Lemma eval_lin_add (a : GRBVar -> Q) (x y : GRBLinExpr) :
  eval a (x + y)%lin == eval a x + eval a y.
Proof.
  unfold eval. simpl. rewrite eval_terms_app.
  rewrite (eval_terms_acc a (terms x) (constant x + constant y)).
  rewrite (eval_terms_acc a (terms x) (constant x)).
  rewrite (eval_terms_acc a (terms y) (constant y)).
  lra.
Qed.

Lemma eval_lin_sub (a : GRBVar -> Q) (x y : GRBLinExpr) :
  eval a (x - y)%lin == eval a x - eval a y.
Proof.
  unfold lin_sub. rewrite eval_lin_add.
  unfold eval at 2 4. simpl.
  rewrite (eval_terms_acc a (map _ (terms y)) (- constant y)).
  rewrite (eval_terms_acc a (terms y) (constant y)).
  rewrite eval_terms_neg. lra.
Qed.

Create Rewrite HintDb lin_eval.
#[export] Hint Rewrite eval_lin_add eval_lin_sub eval_lin_const eval_lin_var
  : lin_eval.

(** ** The adapters of the min-cost-flow engines *)

(** C10: with no argument, [CapacityScaling] is constructed with the
    scaling factor 4, [CostScaling] with the method [PARTIAL_AUGMENT] and
    the factor 16, [NetworkSimplex] with the pivot rule [BLOCK_SEARCH] and
    [CycleCanceling] with the method [CANCEL_AND_TIGHTEN]. *)
Theorem mcf_adapter_defaults :
  cap_m_factor (new_CapacityScaling None) = 4%Z
  /\ cost_m_method (new_CostScaling None None) = lemon.PARTIAL_AUGMENT
  /\ cost_m_factor (new_CostScaling None None) = 16%Z
  /\ m_pivotRule (new_NetworkSimplex None) = lemon.BLOCK_SEARCH
  /\ cyc_m_method (new_CycleCanceling None) = lemon.CANCEL_AND_TIGHTEN.
Proof. repeat split. Qed.

(** ** The model builder *)

Lemma edge_constraints_in_model (g : graph_type) (color_num : ColorNumType)
  (e : graph_edge_type) (c : GRBTempConstr) :
  e ∈ edges g -> c ∈ edge_cover_constraints e ->
  c ∈ constrs (set_optimize_model g color_num).
Proof.
  intros He Hc. unfold set_optimize_model. simpl.
  apply elem_of_app. left.
  apply list_elem_of_In, in_flat_map. exists e.
  split; now apply list_elem_of_In.
Qed.

(** C9: for every edge [(s,t)] of the graph and every 0/1 assignment in
    which both end points have the same two bits, one of the four cover
    constraints that [set_optimize_model] emits for the edge is violated:
    its left-hand side is 0, below the right-hand side 1. *)
Theorem cover_constraints_forbid_equal_codes
  (g : graph_type) (color_num : ColorNumType) (e : graph_edge_type)
  (a : GRBVar -> Q) :
  let s1 := bitIdx (source e) in let s2 := u32 (bitIdx (source e) + 1) in
  let t1 := bitIdx (target e) in let t2 := u32 (bitIdx (target e) + 1) in
  e ∈ edges g ->
  (a s1 == 0 \/ a s1 == 1) -> (a s2 == 0 \/ a s2 == 1) ->
  a t1 == a s1 -> a t2 == a s2 ->
  exists c, c ∈ edge_cover_constraints e
            /\ c ∈ constrs (set_optimize_model g color_num)
            /\ tsense c = GRB_GREATER_EQUAL /\ rhs c == 1
            /\ eval a (lhs c) == 0
            /\ ~ satisfied a c.
Proof.
  intros s1 s2 t1 t2 He H1 H2 Ht1 Ht2. subst s1 s2 t1 t2.
  assert (Hsel : exists c, c ∈ edge_cover_constraints e
                           /\ tsense c = GRB_GREATER_EQUAL /\ rhs c == 1
                           /\ eval a (lhs c) == 0).
  { unfold edge_cover_constraints.
    destruct H1 as [H1|H1], H2 as [H2|H2].
    - eexists. split; [apply list_elem_of_here|].
      simpl. split; [reflexivity|]. split; [reflexivity|].
      autorewrite with lin_eval. lra.
    - eexists. split; [do 2 apply list_elem_of_further; apply list_elem_of_here|].
      simpl. split; [reflexivity|]. split; [reflexivity|].
      autorewrite with lin_eval. lra.
    - eexists. split; [apply list_elem_of_further, list_elem_of_here|].
      simpl. split; [reflexivity|]. split; [reflexivity|].
      autorewrite with lin_eval. lra.
    - eexists. split; [do 3 apply list_elem_of_further; apply list_elem_of_here|].
      simpl. split; [reflexivity|]. split; [reflexivity|].
      autorewrite with lin_eval. lra. }
  destruct Hsel as (c & Hc & Hs & Hr & Hv).
  exists c. split; [assumption|].
  split; [now apply edge_constraints_in_model with e|].
  split; [assumption|]. split; [assumption|]. split; [assumption|].
  unfold satisfied. rewrite Hs. simpl. rewrite Hr, Hv. lra.
Qed.

(** ** The pair-direction term of the objective *)

Lemma adjust_variable_pair_eval (a : GRBVar -> Q) (k : N) (v1 v2 : Q)
  (obj : GRBLinExpr) :
  (k + 1 < 4294967296)%N ->
  eval a (adjust_variable_pair k v1 v2 obj) == eval a obj + pair_gain a k v1 v2.
Proof.
  intros Hk. unfold adjust_variable_pair, pair_gain.
  rewrite (u32_small (k + 1)) by assumption.
  destruct (is_integer v1), (is_integer v2); simpl;
    try lra;
    destruct (Qlt_bool v2 v1); try (autorewrite with lin_eval; lra);
    destruct (Qlt_bool v1 v2); autorewrite with lin_eval; lra.
Qed.

Lemma adjust_pairs_from (a : GRBVar -> Q) (X : list Q) (c s : nat)
  (obj : GRBLinExpr) :
  (2 * (s + c) <= length X)%nat -> (N.of_nat (length X) < 4294967296)%N ->
  exists obj',
    for_each (fun k obj =>
                value1 ← getX X k;
                value2 ← getX X (u32 (k + 1));
                Some (adjust_variable_pair k value1 value2 obj))
             (map (fun i => (2 * N.of_nat i)%N) (seq s c)) obj = Some obj'
    /\ eval a obj' == eval a obj + total_gain a X (seq s c).
Proof.
  revert s obj. induction c as [|c IH]; intros s obj Hlen Hsz.
  - exists obj. split; [reflexivity|]. simpl. lra.
  - simpl seq.
    assert (Hk : (2 * N.of_nat s + 1 < 4294967296)%N) by lia.
    destruct (lookup_lt_is_Some_2 X (2 * s)%nat) as [v1 Hv1]; [lia|].
    destruct (lookup_lt_is_Some_2 X (2 * s + 1)%nat) as [v2 Hv2]; [lia|].
    change (total_gain a X (s :: seq (S s) c))
      with (pair_gain a (2 * N.of_nat s)
                      (default 0 (X !! (2 * s)%nat))
                      (default 0 (X !! (2 * s + 1)%nat))
            + total_gain a X (seq (S s) c)).
    rewrite Hv1, Hv2.
    assert (E1 : getX X (2 * N.of_nat s) = Some v1).
    { unfold getX. now replace (N.to_nat (2 * N.of_nat s)) with (2 * s)%nat by lia. }
    assert (E2 : getX X (2 * N.of_nat s + 1) = Some v2).
    { unfold getX.
      now replace (N.to_nat (2 * N.of_nat s + 1)) with (2 * s + 1)%nat by lia. }
    simpl map. simpl for_each.
    rewrite (u32_small _ Hk), E1. simpl. rewrite E2. simpl.
    destruct (IH (S s) (adjust_variable_pair (2 * N.of_nat s) v1 v2 obj))
      as (obj' & Hrun & Hev); [lia|assumption|].
    exists obj'. split; [exact Hrun|].
    rewrite Hev, adjust_variable_pair_eval by exact Hk. lra.
Qed.

Lemma even_indices_double (m : nat) :
  even_indices (N.of_nat (2 * m)) = map (fun i => (2 * N.of_nat i)%N) (seq 0 m).
Proof.
  unfold even_indices. f_equal. f_equal.
  rewrite N.div2_div.
  replace (N.of_nat (2 * m) + 1)%N with (1 + N.of_nat m * 2)%N by lia.
  rewrite N.div_add by lia. change (1 / 2)%N with 0%N. lia.
Qed.

(** C5 (as the code has it): when the vector of values has an even length,
    [adjust_variable_pair_in_objective] adds to the objective, for every
    pair [(v1,v2)] with a non-integer member, the term [v2 - v1] when the
    value of [v1] exceeds that of [v2], the term [v1 - v2] when it is below
    it, and no term when both values are equal. *)
Theorem adjust_variable_pair_in_objective_gain (a : GRBVar -> Q)
  (X : list Q) (m : nat) (obj : GRBLinExpr) :
  length X = (2 * m)%nat -> (N.of_nat (length X) < 4294967296)%N ->
  exists obj',
    adjust_variable_pair_in_objective X obj = Some obj'
    /\ eval a obj' == eval a obj + total_gain a X (seq 0 m).
Proof.
  intros Hlen Hsz. unfold adjust_variable_pair_in_objective.
  rewrite (u32_small _ Hsz), Hlen, even_indices_double.
  apply adjust_pairs_from; [lia|assumption].
Qed.

(** C5, counterexample: the pair [(0.5, 0.5)] is not integer and its first
    value does not exceed the second one, yet the objective does not gain
    the term [v1 - v2]: it stays as it was. *)
Lemma adjust_variable_pair_equal_values_counterexample :
  is_integer (1 # 2) = false
  /\ Qlt_bool (1 # 2) (1 # 2) = false
  /\ adjust_variable_pair_in_objective [1 # 2; 1 # 2] (lin_const 0)
     = Some (lin_const 0)
  /\ ~ (forall a : GRBVar -> Q,
          eval a (lin_const 0)
          == eval a (lin_const 0) + (a 0%N - a 1%N)).
Proof.
  split; [reflexivity|]. split; [reflexivity|]. split; [reflexivity|].
  intros H. specialize (H (fun v => if (v =? 0)%N then 1 else 0)).
  vm_compute in H. discriminate H.
Qed.

(** ** The step of the odd-cycle search on an unseen neighbour *)

(** What [visit_unseen] does in general: the neighbour gets the distance
    value 1, whatever the value of [cv] is, the visited flags stay as they
    are, and the neighbour is pushed. *)
Lemma visit_unseen_spec (cv u : graph_vertex_type) (st st' : DFSState) :
  visit_unseen cv u st = Some st' ->
  vNodeDistColor st' !! u = Some 1%Z
  /\ vNodeVisited st' = vNodeVisited st
  /\ vVertexStack st' = u :: vVertexStack st.
Proof.
  unfold visit_unseen, store. intros H.
  destruct (vNodeDistColor st !! cv) as [dcv|]; simpl in H; [|discriminate].
  destruct (decide (u < length (vNodeDistColor st))%nat) as [Hu|]; simpl in H;
    [|discriminate].
  rewrite length_insert in H.
  destruct (decide (u < length (vNodeDistColor st))%nat); simpl in H;
    [|contradiction].
  injection H as <-. simpl. split; [|split; reflexivity].
  apply list_lookup_insert_eq. now rewrite length_insert.
Qed.

(** C3 (the code at a failing input): on the path 0 - 1 - 2 searched from
    the root 0, the second step meets the unseen neighbour 2 of the stack
    top 1. Vertex 1 has the distance value 1, and vertex 2 gets the value 1
    as well and not the opposite one; it is pushed but its visited flag
    stays false. *)
Theorem visit_unseen_keeps_parity_and_flag :
  exists st0 st1 st2,
    dfs_init path3 0%nat = Some st0
    /\ dfs_step path3 0%nat 0%nat st0 = Some st1
    /\ vVertexStack st1 = [1; 0]%nat
    /\ vNodeDistColor st1 !! 1%nat = Some 1%Z
    /\ vNodeDistColor st1 !! 2%nat = Some (-1)%Z
    /\ dfs_step path3 0%nat 1%nat st1 = Some st2
    /\ vVertexStack st2 = [2; 1; 0]%nat
    /\ vNodeDistColor st2 !! 2%nat = Some 1%Z
    /\ vNodeDistColor st2 !! 2%nat <> Some (1 - 1)%Z
    /\ vNodeVisited st2 !! 2%nat = Some false.
Proof.
  eexists _, _, _.
  split; [vm_compute; reflexivity|].
  split; [vm_compute; reflexivity|].
  split; [reflexivity|]. split; [reflexivity|]. split; [reflexivity|].
  split; [vm_compute; reflexivity|].
  split; [reflexivity|]. split; [reflexivity|].
  split; [discriminate|reflexivity].
Qed.

(** ** The greedy refinement *)

(** C4 (the code at a failing input): [hub_solution] is within the bounds
    of the variables, has the anchor vertex 0 at (0,0) and satisfies every
    constraint of the model of [hub_graph] with four colors.
    [apply_solution] decodes it to the colors [0,2,2,0,1,1,1], with one
    edge, (1,2), whose end points hold the same color. [refine_color] on
    this edge gives vertex 1 the color 0 of its neighbours 0 and 3: two
    edges have end points of the same color after the call, and this is
    also the result of [post_refinement]. *)
Theorem refine_color_adds_conflicts :
  max_degree_vertex hub_graph = 0%nat
  /\ hub_solution !! 0%nat = Some 0 /\ hub_solution !! 1%nat = Some 0
  /\ Forall (fun x => 0 <= x <= 1) hub_solution
  /\ Forall (satisfied (assignment hub_solution))
            (constrs (set_optimize_model hub_graph FOUR))
  /\ apply_solution hub_solution (replicate 7 (-1)%Z)
     = Some [0; 2; 2; 0; 1; 1; 1]%Z
  /\ same_color_edges hub_graph [0; 2; 2; 0; 1; 1; 1]%Z = 1%nat
  /\ refine_color hub_graph FOUR [0; 2; 2; 0; 1; 1; 1]%Z (1, 2)%nat
     = Some (true, [0; 0; 1; 0; 1; 1; 1]%Z)
  /\ post_refinement false hub_graph FOUR [0; 2; 2; 0; 1; 1; 1]%Z
     = Some (1%N, [0; 0; 1; 0; 1; 1; 1]%Z)
  /\ same_color_edges hub_graph [0; 0; 1; 0; 1; 1; 1]%Z = 2%nat.
Proof.
  split; [reflexivity|]. split; [reflexivity|]. split; [reflexivity|].
  split; [repeat constructor; vm_compute; discriminate|].
  split; [vm_compute constrs; repeat constructor; vm_compute; discriminate|].
  repeat split; vm_compute; reflexivity.
Qed.

(** ** The binding analysis *)






(** Outside of the models that the program builds the guard
    [invalidCount == 4] can be missed with three colors: for the pair of
    variables 0 and 1 at (0.5, 0.5) and the binding constraints
    [x0 >= 1/2] and [x1 >= 1/2], the scan leaves no valid candidate, but
    [invalidCount] stops at 3 and [failFlag] stays false. No bound is
    changed, since no candidate is left to write one. *)
Example three_colors_count_stops_at_three :
  let st := scan_pair THREE [binding_x0; binding_x1] 0%N 1%N (1 # 2) (1 # 2) in
  (forall b1 b2, get_valid (mValidColorBits st) b1 b2 = false)
  /\ invalidCount st = 3%N
  /\ failFlag st = false
  /\ round_pair THREE [binding_x0; binding_x1] [1 # 2; 1 # 2] 0%N
                [(0, 1); (0, 1)]
     = Some [(0, 1); (0, 1)].
Proof.
  split; [|split; [|split]]; try (vm_compute; reflexivity).
  intros [|b1] [|b2]; reflexivity.
Qed.

Lemma fails_iff (s : ascii) (d : Q) :
  fails s d = true
  <-> (s = GRB_GREATER_EQUAL /\ d < 0) \/ (s = GRB_LESS_EQUAL /\ 0 < d).
Proof.
  unfold fails, GRB_GREATER_EQUAL, GRB_LESS_EQUAL.
  rewrite orb_true_iff, !andb_true_iff, !Ascii.eqb_eq, !Qlt_bool_iff.
  reflexivity.
Qed.

Lemma fails_proper (s : ascii) (d d' : Q) : d == d' -> fails s d = fails s d'.
Proof.
  intros H. unfold fails.
  now rewrite (Qlt_bool_proper d d' 0 0), (Qlt_bool_proper 0 0 d d')
    by (assumption || reflexivity).
Qed.

Lemma delta_half (cur : ConstrVariableInfo * ConstrVariableInfo)
  (value1 value2 : Q) (b1 b2 : nat) :
  value1 == 1 # 2 -> value2 == 1 # 2 ->
  delta cur value1 value2 b1 b2
  == coeff cur.1 * (inject_Z (Z.of_nat b1) - (1 # 2))
     + coeff cur.2 * (inject_Z (Z.of_nat b2) - (1 # 2)).
Proof. intros H1 H2. unfold delta. now rewrite H1, H2. Qed.

(** A candidate is valid after the check of a constraint when it was
    valid before and the constraint does not fail it. *)
Lemma check_candidates_valid (s : ascii)
  (cur : ConstrVariableInfo * ConstrVariableInfo) (value1 value2 : Q)
  (m : ValidColorBits) (n : N) (b1 b2 : nat) :
  (b1 <= 1)%nat -> (b2 <= 1)%nat ->
  get_valid (check_candidates s cur value1 value2 m n).1 b1 b2
  = get_valid m b1 b2 && negb (fails s (delta cur value1 value2 b1 b2)).
Proof.
  intros Hb1 Hb2.
  assert (E1 : b1 = 0%nat \/ b1 = 1%nat) by lia.
  assert (E2 : b2 = 0%nat \/ b2 = 1%nat) by lia.
  destruct E1 as [-> | ->], E2 as [-> | ->];
    unfold check_candidates, color_bit_pairs; cbn [fold_left fst snd];
    generalize (fails s (delta cur value1 value2 0 0));
    generalize (fails s (delta cur value1 value2 0 1));
    generalize (fails s (delta cur value1 value2 1 0));
    generalize (fails s (delta cur value1 value2 1 1));
    intros f11 f10 f01 f00;
    destruct m as [[] [] [] []]; cbn;
    destruct f00, f01, f10, f11; reflexivity.
Qed.

Lemma scan_constr_not_binding (var1 var2 : GRBVar) (value1 value2 : Q)
  (constr : GRBConstr) (st : PairScan) :
  Qeq_bool (Slack constr) 0 = false ->
  scan_constr var1 var2 value1 value2 constr st = st.
Proof. intros H. unfold scan_constr. now rewrite H. Qed.

Lemma scan_column_binding_only (var1 var2 : GRBVar) (value1 value2 : Q)
  (column : list GRBConstr) (st : PairScan) :
  failFlag st = false ->
  scan_column var1 var2 value1 value2 column st
  = scan_column var1 var2 value1 value2
                (filter (fun c => Qeq_bool (Slack c) 0) column) st.
Proof.
  revert st. induction column as [|c column IH]; intros st Hst; [reflexivity|].
  destruct (Qeq_bool (Slack c) 0) eqn:E.
  - rewrite filter_cons_True by (now rewrite E). simpl.
    destruct (failFlag (scan_constr var1 var2 value1 value2 c st)) eqn:F;
      [reflexivity|]. now apply IH.
  - rewrite filter_cons_False by (now rewrite E). simpl.
    rewrite scan_constr_not_binding by assumption. rewrite Hst. now apply IH.
Qed.

Lemma getCol_filter (optModel : list GRBConstr) (var : GRBVar) :
  getCol (filter (fun c => Qeq_bool (Slack c) 0) optModel) var
  = filter (fun c => Qeq_bool (Slack c) 0) (getCol optModel var).
Proof.
  unfold getCol. rewrite !list_filter_filter.
  apply list_filter_iff. intros c. tauto.
Qed.

Lemma scan_constr_valid (var1 var2 : GRBVar) (value1 value2 : Q)
  (constr : GRBConstr) (st : PairScan) (b1 b2 : nat) :
  (b1 <= 1)%nat -> (b2 <= 1)%nat ->
  failFlag (scan_constr var1 var2 value1 value2 constr st) = false ->
  get_valid (mValidColorBits (scan_constr var1 var2 value1 value2 constr st))
            b1 b2
  = get_valid (mValidColorBits st) b1 b2
    && (negb (Qeq_bool (Slack constr) 0)
        || negb (fails (tsense (row constr))
                       (getCoeff constr var1 * (inject_Z (Z.of_nat b1) - value1)
                        + getCoeff constr var2
                          * (inject_Z (Z.of_nat b2) - value2)))).
Proof.
  intros Hb1 Hb2. unfold scan_constr.
  destruct (Qeq_bool (Slack constr) 0); cbn [negb orb].
  2:{ intros _. now rewrite andb_true_r. }
  cbv zeta. cbn [fst snd].
  destruct (negb (same_direction _ _) || negb (same_direction _ _));
    [cbn; discriminate|].
  destruct (_ =? 4)%N; [cbn; discriminate|].
  intros _. cbn [mValidColorBits].
  rewrite check_candidates_valid by assumption. reflexivity.
Qed.

Lemma scan_column_valid (var1 var2 : GRBVar) (value1 value2 : Q)
  (column : list GRBConstr) (st : PairScan) (b1 b2 : nat) :
  (b1 <= 1)%nat -> (b2 <= 1)%nat ->
  failFlag (scan_column var1 var2 value1 value2 column st) = false ->
  get_valid (mValidColorBits (scan_column var1 var2 value1 value2 column st))
            b1 b2
  = get_valid (mValidColorBits st) b1 b2
    && forallb (fun constr =>
                  negb (Qeq_bool (Slack constr) 0)
                  || negb (fails (tsense (row constr))
                             (getCoeff constr var1
                              * (inject_Z (Z.of_nat b1) - value1)
                              + getCoeff constr var2
                                * (inject_Z (Z.of_nat b2) - value2))))
               column.
Proof.
  intros Hb1 Hb2. revert st.
  induction column as [|c column IH]; intros st Hf.
  - cbn. now rewrite andb_true_r.
  - cbn [scan_column forallb] in *. cbv zeta in *.
    destruct (failFlag (scan_constr var1 var2 value1 value2 c st)) eqn:E;
      [congruence|].
    rewrite (IH _ Hf), scan_constr_valid by assumption.
    now rewrite andb_assoc.
Qed.

(** A candidate that a constraint makes invalid is failed by it. *)
Lemma scan_constr_invalidated (var1 var2 : GRBVar) (value1 value2 : Q)
  (constr : GRBConstr) (st : PairScan) (b1 b2 : nat) :
  (b1 <= 1)%nat -> (b2 <= 1)%nat ->
  get_valid (mValidColorBits (scan_constr var1 var2 value1 value2 constr st))
            b1 b2 = false ->
  get_valid (mValidColorBits st) b1 b2 = false
  \/ (Qeq_bool (Slack constr) 0 = true
      /\ fails (tsense (row constr))
               (getCoeff constr var1 * (inject_Z (Z.of_nat b1) - value1)
                + getCoeff constr var2 * (inject_Z (Z.of_nat b2) - value2))
         = true).
Proof.
  intros Hb1 Hb2. unfold scan_constr.
  destruct (Qeq_bool (Slack constr) 0); cbn [negb]; [|now left].
  cbv zeta. cbn [fst snd].
  destruct (negb (same_direction _ _) || negb (same_direction _ _));
    [cbn; now left|].
  destruct (_ =? 4)%N; cbn [mValidColorBits];
    rewrite check_candidates_valid by assumption;
    intros H; apply andb_false_iff in H; destruct H as [H|H];
    try (now left); right; (split; [reflexivity|]);
    apply negb_false_iff in H; exact H.
Qed.

Lemma scan_column_invalidated (var1 var2 : GRBVar) (value1 value2 : Q)
  (column : list GRBConstr) (st : PairScan) (b1 b2 : nat) :
  (b1 <= 1)%nat -> (b2 <= 1)%nat ->
  get_valid (mValidColorBits
               (scan_column var1 var2 value1 value2 column st)) b1 b2
  = false ->
  get_valid (mValidColorBits st) b1 b2 = false
  \/ exists constr,
       constr ∈ column /\ Qeq_bool (Slack constr) 0 = true
       /\ fails (tsense (row constr))
                (getCoeff constr var1 * (inject_Z (Z.of_nat b1) - value1)
                 + getCoeff constr var2 * (inject_Z (Z.of_nat b2) - value2))
          = true.
Proof.
  intros Hb1 Hb2. revert st.
  induction column as [|c column IH]; intros st H; [now left|].
  cbn [scan_column] in H. cbv zeta in H.
  assert (Hstep : get_valid (mValidColorBits
                    (scan_constr var1 var2 value1 value2 c st)) b1 b2 = false ->
                  get_valid (mValidColorBits st) b1 b2 = false
                  \/ exists constr,
                       constr ∈ c :: column /\ Qeq_bool (Slack constr) 0 = true
                       /\ fails (tsense (row constr))
                                (getCoeff constr var1
                                 * (inject_Z (Z.of_nat b1) - value1)
                                 + getCoeff constr var2
                                   * (inject_Z (Z.of_nat b2) - value2))
                          = true).
  { intros H'.
    destruct (scan_constr_invalidated var1 var2 value1 value2 c st b1 b2
                                      Hb1 Hb2 H') as [E|[E1 E2]];
      [now left|].
    right. exists c. split; [apply list_elem_of_here|]. split; assumption. }
  destruct (failFlag (scan_constr var1 var2 value1 value2 c st));
    [now apply Hstep|].
  destruct (IH _ H) as [E|(constr & Hin & E1 & E2)]; [now apply Hstep|].
  right. exists constr. split; [now apply list_elem_of_further|].
  split; assumption.
Qed.

Lemma forallb_false_elem {A} (f : A -> bool) (l : list A) :
  forallb f l = false -> exists x, x ∈ l /\ f x = false.
Proof.
  induction l as [|x l IH]; [discriminate|]. cbn [forallb].
  destruct (f x) eqn:E; cbn [andb].
  - intros H. destruct (IH H) as (y & Hy & Ey).
    exists y. split; [now apply list_elem_of_further|exact Ey].
  - intros _. exists x. split; [apply list_elem_of_here|exact E].
Qed.

(** The test that fails a candidate, for values equal to 0.5. *)
Lemma fails_half_iff (var1 var2 : GRBVar) (value1 value2 : Q)
  (constr : GRBConstr) (b1 b2 : nat) :
  value1 == 1 # 2 -> value2 == 1 # 2 ->
  let d := getCoeff constr var1 * (inject_Z (Z.of_nat b1) - (1 # 2))
           + getCoeff constr var2 * (inject_Z (Z.of_nat b2) - (1 # 2)) in
  fails (tsense (row constr))
        (getCoeff constr var1 * (inject_Z (Z.of_nat b1) - value1)
         + getCoeff constr var2 * (inject_Z (Z.of_nat b2) - value2)) = true
  <-> (tsense (row constr) = GRB_GREATER_EQUAL /\ d < 0)
      \/ (tsense (row constr) = GRB_LESS_EQUAL /\ 0 < d).
Proof.
  intros Hv1 Hv2 d. subst d.
  rewrite (fails_proper _ _
             (getCoeff constr var1 * (inject_Z (Z.of_nat b1) - (1 # 2))
              + getCoeff constr var2 * (inject_Z (Z.of_nat b2) - (1 # 2))))
    by (now rewrite Hv1, Hv2).
  apply fails_iff.
Qed.

(** C6 (as the code has it): for a pair of variables with both values
    equal to 0.5 and a candidate [(b1,b2)],
    - the scan of the pair sees the binding constraints only: it gives the
      same result on the model with every constraint of non-zero slack
      removed, and a constraint of non-zero slack leaves the state of the
      scan as it is;
    - a candidate that is valid at the start of the scan and invalid at
      its end is failed by a binding constraint of one of the two columns,
      which is to say that [delta = a1*(b1-0.5) + a2*(b2-0.5)] is negative
      and the sense of the constraint is ['>'], or [delta] is positive and
      the sense is ['<'];
    - when the scan ends without [failFlag], a candidate that is valid at
      the start is invalid at the end exactly when a binding constraint
      of one of the two columns fails it in this way;
    - a binding constraint whose coefficients pass the direction test
      makes a valid candidate invalid exactly when it fails it in this
      way;
    - a binding constraint that does not pass the direction test sets
      [failFlag] and leaves the candidates as they are. *)
Theorem binding_constraint_invalidation
  (color_num : ColorNumType) (optModel : list GRBConstr)
  (var1 var2 : GRBVar) (value1 value2 : Q)
  (constr : GRBConstr) (st : PairScan) (b1 b2 : nat) :
  value1 == 1 # 2 -> value2 == 1 # 2 -> (b1 <= 1)%nat -> (b2 <= 1)%nat ->
  let fails_candidate := fun c : GRBConstr =>
    let d := getCoeff c var1 * (inject_Z (Z.of_nat b1) - (1 # 2))
             + getCoeff c var2 * (inject_Z (Z.of_nat b2) - (1 # 2)) in
    (tsense (row c) = GRB_GREATER_EQUAL /\ d < 0)
    \/ (tsense (row c) = GRB_LESS_EQUAL /\ 0 < d) in
  let columns := getCol optModel var1 ++ getCol optModel var2 in
  let final := scan_pair color_num optModel var1 var2 value1 value2 in
  let direction_ok :=
    same_direction {| coeff := getCoeff constr var1;
                      sense := tsense (row constr) |} (prevConstrInfo st).1
    && same_direction {| coeff := getCoeff constr var2;
                         sense := tsense (row constr) |}
                      (prevConstrInfo st).2 in
  let st' := scan_constr var1 var2 value1 value2 constr st in
  final
  = scan_pair color_num (filter (fun c => Qeq_bool (Slack c) 0) optModel)
              var1 var2 value1 value2
  /\ (get_valid (init_valid color_num) b1 b2 = true ->
      get_valid (mValidColorBits final) b1 b2 = false ->
      exists c, c ∈ columns /\ Slack c == 0 /\ fails_candidate c)
  /\ (get_valid (init_valid color_num) b1 b2 = true ->
      failFlag final = false ->
      (get_valid (mValidColorBits final) b1 b2 = false
       <-> exists c, c ∈ columns /\ Slack c == 0 /\ fails_candidate c))
  /\ (~ Slack constr == 0 -> st' = st)
  /\ (Slack constr == 0 -> direction_ok = true ->
      get_valid (mValidColorBits st) b1 b2 = true ->
      (get_valid (mValidColorBits st') b1 b2 = false
       <-> fails_candidate constr))
  /\ (Slack constr == 0 -> direction_ok = false ->
      failFlag st' = true /\ mValidColorBits st' = mValidColorBits st).
Proof.
  intros Hv1 Hv2 Hb1 Hb2 fails_candidate columns final direction_ok st'.
  assert (Hsound : get_valid (init_valid color_num) b1 b2 = true ->
                   get_valid (mValidColorBits final) b1 b2 = false ->
                   exists c, c ∈ columns /\ Slack c == 0 /\ fails_candidate c).
  { subst final columns. unfold scan_pair. cbv zeta. intros Hinit H.
    assert (Hcol1 : forall st1,
              st1 = scan_column var1 var2 value1 value2
                                (getCol optModel var1) (init_scan color_num) ->
              get_valid (mValidColorBits st1) b1 b2 = false ->
              exists c, c ∈ getCol optModel var1 ++ getCol optModel var2
                        /\ Slack c == 0 /\ fails_candidate c).
    { intros st1 -> H1.
      destruct (scan_column_invalidated _ _ _ _ _ _ b1 b2 Hb1 Hb2 H1)
        as [E|(c & Hc & Es & Ef)].
      - cbn [init_scan mValidColorBits] in E. congruence.
      - exists c. split; [apply elem_of_app; now left|].
        split; [now apply Qeq_bool_iff|].
        now apply (fails_half_iff var1 var2 value1 value2 c b1 b2 Hv1 Hv2). }
    destruct (failFlag (scan_column var1 var2 value1 value2
                                    (getCol optModel var1)
                                    (init_scan color_num)));
      [now apply (Hcol1 _ eq_refl)|].
    destruct (scan_column_invalidated _ _ _ _ _ _ b1 b2 Hb1 Hb2 H)
      as [E|(c & Hc & Es & Ef)]; [now apply (Hcol1 _ eq_refl)|].
    exists c. split; [apply elem_of_app; now right|].
    split; [now apply Qeq_bool_iff|].
    now apply (fails_half_iff var1 var2 value1 value2 c b1 b2 Hv1 Hv2). }
  split; [|split; [exact Hsound|split; [|split; [|split]]]].
  - subst final. unfold scan_pair. rewrite !getCol_filter.
    rewrite <- scan_column_binding_only by reflexivity.
    destruct (failFlag (scan_column var1 var2 value1 value2
                                    (getCol optModel var1)
                                    (init_scan color_num))) eqn:F;
      [reflexivity|].
    now apply scan_column_binding_only.
  - intros Hinit Hf. split; [exact (Hsound Hinit)|].
    intros (c & Hc & Hs & Hfc).
    subst final columns. unfold scan_pair in *. cbv zeta in *.
    destruct (failFlag (scan_column var1 var2 value1 value2
                                    (getCol optModel var1)
                                    (init_scan color_num))) eqn:E1;
      [congruence|].
    rewrite (scan_column_valid _ _ _ _ _ _ b1 b2 Hb1 Hb2 Hf).
    rewrite (scan_column_valid _ _ _ _ _ _ b1 b2 Hb1 Hb2 E1).
    rewrite <- andb_assoc, <- forallb_app.
    apply andb_false_iff. right.
    destruct (forallb _ _) eqn:Hall; [|reflexivity].
    rewrite forallb_forall in Hall.
    specialize (Hall c ltac:(now apply list_elem_of_In)).
    apply Qeq_bool_iff in Hs. rewrite Hs in Hall. cbn [negb orb] in Hall.
    apply (fails_half_iff var1 var2 value1 value2 c b1 b2 Hv1 Hv2) in Hfc.
    rewrite Hfc in Hall. discriminate Hall.
  - intros Hs. apply scan_constr_not_binding.
    destruct (Qeq_bool (Slack constr) 0) eqn:E; [|reflexivity].
    apply Qeq_bool_iff in E. contradiction.
  - intros Hs Hdir Hvalid. apply Qeq_bool_iff in Hs.
    subst st' direction_ok. unfold scan_constr. rewrite Hs. cbn [negb fst snd].
    apply andb_true_iff in Hdir as [-> ->]. cbn [negb orb].
    match goal with
    | |- context [check_candidates ?s ?c ?x ?y ?m ?n] =>
        pose proof (check_candidates_valid s c x y m n b1 b2 Hb1 Hb2) as Hc;
        destruct (N.eqb (check_candidates s c x y m n).2 4);
        cbn [mValidColorBits]; rewrite Hc
    end;
      rewrite Hvalid, andb_true_l, negb_false_iff;
      apply (fails_half_iff var1 var2 value1 value2 constr b1 b2 Hv1 Hv2).
  - intros Hs Hdir. apply Qeq_bool_iff in Hs.
    subst st' direction_ok. unfold scan_constr. rewrite Hs. cbn [negb fst snd].
    rewrite <- negb_andb, Hdir. simpl. split; reflexivity.
Qed.

(** C6, counterexample: the model of [fork_graph] with four colors at the
    solution [fork_solution], which is within the bounds, has the anchor
    at (0,0) and satisfies every constraint. The scan of the pair of
    vertex 1, at (0.5, 0.5), sees the binding constraint of the edge (0,1)
    with the coefficients (1,1) and then the binding constraint of the
    edge (1,2) with the coefficients (-1,1), which does not pass the
    direction test: the scan ends with [failFlag]. The candidate (1,0) was
    valid, the second constraint is binding, of sense ['>'] and has
    [delta = -1] for it, and the candidate is still valid at the end. *)
Lemma binding_delta_rule_aborted_counterexample :
  let m := set_optimize_model fork_graph FOUR in
  let optModel := optimized_constrs m fork_solution in
  let final := scan_pair FOUR optModel 2%N 3%N (1 # 2) (1 # 2) in
  max_degree_vertex fork_graph = 0%nat
  /\ X fork_solution !! 0%nat = Some 0 /\ X fork_solution !! 1%nat = Some 0
  /\ Forall (fun x => 0 <= x <= 1) (X fork_solution)
  /\ Forall (satisfied (assignment (X fork_solution))) (constrs m)
  /\ X fork_solution !! 2%nat = Some (1 # 2)
  /\ X fork_solution !! 3%nat = Some (1 # 2)
  /\ (exists c,
        c ∈ getCol optModel 2%N
        /\ Slack c == 0
        /\ tsense (row c) = GRB_GREATER_EQUAL
        /\ getCoeff c 2%N * (inject_Z (Z.of_nat 1) - (1 # 2))
           + getCoeff c 3%N * (inject_Z (Z.of_nat 0) - (1 # 2)) < 0)
  /\ get_valid (init_valid FOUR) 1 0 = true
  /\ get_valid (mValidColorBits final) 1 0 = true
  /\ failFlag final = true
  /\ round_pair FOUR optModel (X fork_solution) 2%N
                (bounds m) = Some (bounds m).
Proof.
  intros m optModel final.
  split; [reflexivity|]. split; [reflexivity|]. split; [reflexivity|].
  split; [repeat constructor; vm_compute; discriminate|].
  split; [vm_compute constrs; repeat constructor; vm_compute; discriminate|].
  split; [reflexivity|]. split; [reflexivity|].
  split.
  { destruct (optModel !! 5%nat) as [c|] eqn:Hc; [|vm_compute in Hc; discriminate].
    exists c. split.
    - unfold getCol. apply list_elem_of_filter. split.
      + vm_compute in Hc. injection Hc as <-. vm_compute. exact I.
      + now apply list_elem_of_lookup_2 with 5%nat.
    - vm_compute in Hc. injection Hc as <-.
      split; [reflexivity|]. split; [reflexivity|]. reflexivity. }
  split; [reflexivity|]. split; [vm_compute; reflexivity|].
  split; vm_compute; reflexivity.
Qed.

(** ** The census and the two refinement loops *)

Lemma non_integer_num_of_le_acc (l : list Q) (acc : N * N) :
  ((fold_left (fun (acc : N * N) value =>
                 if negb (Qeq_bool value 0) && negb (Qeq_bool value 1) then
                   (u32 (acc.1 + 1),
                    if Qeq_bool value (1 # 2) then u32 (acc.2 + 1) else acc.2)
                 else acc) l acc).1 <= acc.1 + N.of_nat (length l))%N.
Proof.
  revert acc. induction l as [|x l IH]; intros acc; simpl; [lia|].
  destruct (negb (Qeq_bool x 0) && negb (Qeq_bool x 1)).
  - etransitivity; [apply IH|]. simpl.
    pose proof (u32_le (acc.1 + 1)). lia.
  - etransitivity; [apply IH|]. lia.
Qed.

Lemma vertex_non_integer_num_le (X XE : list Q) :
  (vertex_non_integer_num (non_integer_num X XE) <= N.of_nat (length X))%N.
Proof.
  unfold non_integer_num, non_integer_num_of. simpl.
  etransitivity; [apply non_integer_num_of_le_acc|]. simpl. lia.
Qed.

Section WhileLoop.

Context {St : Type}.
Variable body : St -> option St.
Variable census : St -> NonIntegerInfo.

(** With as much fuel as iterations are left, the loop does not run out
    of fuel, and it makes no more iterations than that. *)
Lemma while_non_integer_decreases_bound (fuel : nat)
  (prevInfo curInfo : NonIntegerInfo) (s : St) (iterations : nat) :
  (iterations_left prevInfo curInfo <= fuel)%nat ->
  match while_non_integer_decreases body census fuel prevInfo curInfo s
                                    iterations with
  | Done r => (r.2 <= iterations + iterations_left prevInfo curInfo)%nat
  | Abort => True
  | Timeout => False
  end.
Proof.
  revert prevInfo curInfo s iterations.
  induction fuel as [|fuel IH]; intros prevInfo curInfo s iterations Hfuel;
    simpl; unfold iterations_left in Hfuel |- *.
  - destruct (0 <? vertex_non_integer_num curInfo)%N eqn:Hpos;
      destruct (vertex_non_integer_num curInfo
                <? vertex_non_integer_num prevInfo)%N eqn:Hlt; simpl; try lia.
    apply N.ltb_lt in Hpos. lia.
  - destruct (0 <? vertex_non_integer_num curInfo)%N eqn:Hpos;
      destruct (vertex_non_integer_num curInfo
                <? vertex_non_integer_num prevInfo)%N eqn:Hlt; simpl; try lia.
    destruct (body s) as [s'|]; [|exact I].
    specialize (IH curInfo (census s') s' (S iterations)).
    unfold iterations_left in IH.
    apply N.ltb_lt in Hpos.
    destruct (vertex_non_integer_num (census s')
              <? vertex_non_integer_num curInfo)%N eqn:Hlt'.
    + apply N.ltb_lt in Hlt'.
      destruct (while_non_integer_decreases body census fuel curInfo
                                            (census s') s' (S iterations));
        [|exact I|]; [specialize (IH ltac:(lia)); lia | apply IH; lia].
    + destruct (while_non_integer_decreases body census fuel curInfo
                                            (census s') s' (S iterations));
        [|exact I|]; [specialize (IH ltac:(lia)); lia | apply IH; lia].
Qed.

End WhileLoop.


(** ** Rounding and the colors *)

Lemma round_unit_interval (x : Q) :
  0 <= x -> x <= 1 ->
  (x < 1 # 2 -> round x = 0%Z) /\ (1 # 2 <= x -> round x = 1%Z).
Proof.
  intros H0 H1. unfold round.
  destruct (Qle_bool 0 x) eqn:E.
  2:{ apply Qle_bool_iff in H0. congruence. }
  pose proof (Qfloor_le (x + (1 # 2))) as Hlo.
  pose proof (Qlt_floor (x + (1 # 2))) as Hhi.
  set (z := Qfloor (x + (1 # 2))) in *.
  split; intros Hx.
  - assert (A : inject_Z z < inject_Z 1) by (change (inject_Z 1) with 1; lra).
    assert (B : inject_Z 0 < inject_Z (z + 1)) by (change (inject_Z 0) with 0; lra).
    rewrite <- Zlt_Qlt in A, B. lia.
  - assert (A : inject_Z z < inject_Z 2) by (change (inject_Z 2) with 2; lra).
    assert (B : inject_Z 1 < inject_Z (z + 1)) by (change (inject_Z 1) with 1; lra).
    rewrite <- Zlt_Qlt in A, B. lia.
Qed.

Lemma color_of_range (value1 value2 : Q) :
  0 <= value1 <= 1 -> 0 <= value2 <= 1 ->
  (0 <= color_of value1 value2 <= 3)%Z
  /\ (value1 + value2 <= 1 -> ~ (value1 == 1 # 2 /\ value2 == 1 # 2) ->
      (color_of value1 value2 <= 2)%Z).
Proof.
  intros [H1 H1'] [H2 H2'].
  destruct (round_unit_interval value1 H1 H1') as [A1 B1].
  destruct (round_unit_interval value2 H2 H2') as [A2 B2].
  unfold color_of.
  destruct (Qlt_le_dec value1 (1 # 2)) as [L1|L1];
    destruct (Qlt_le_dec value2 (1 # 2)) as [L2|L2];
    try rewrite (A1 L1); try rewrite (B1 L1);
    try rewrite (A2 L2); try rewrite (B2 L2);
    (split; [vm_compute; split; discriminate|]); intros Hs Hne;
    try (vm_compute; discriminate).
  exfalso. apply Hne. split; lra.
Qed.

Lemma shiftl1_double (i : nat) :
  N.shiftl (N.of_nat i) 1 = (2 * N.of_nat i)%N.
Proof. rewrite N.shiftl_mul_pow2. change (2 ^ 1)%N with 2%N. lia. Qed.

Lemma apply_solution_from (X : list Q) (len start : nat) (cols : list Z) :
  (start + len <= length cols)%nat ->
  (2 * (start + len) <= length X)%nat ->
  (N.of_nat (length X) < 4294967296)%N ->
  exists cols',
    for_each (fun i m_vColor =>
                value1 ← getX X (u32 (N.shiftl i 1));
                value2 ← getX X (u32 (u32 (N.shiftl i 1) + 1));
                let b1 := to_int8 (round value1) in
                let b2 := to_int8 (round value2) in
                store m_vColor (N.to_nat i) (to_int8 (Z.shiftl b1 1 + b2)))
             (map N.of_nat (seq start len)) cols = Some cols'
    /\ length cols' = length cols
    /\ (forall i, (start <= i < start + len)%nat ->
          cols' !! i = Some (color_of (default 0 (X !! (2 * i)%nat))
                                      (default 0 (X !! (2 * i + 1)%nat))))
    /\ (forall i, ~ (start <= i < start + len)%nat -> cols' !! i = cols !! i).
Proof.
  revert start cols. induction len as [|len IH]; intros start cols Hc HX Hsz.
  - exists cols. simpl. split; [reflexivity|]. split; [reflexivity|].
    split; [intros; lia | reflexivity].
  - destruct (lookup_lt_is_Some_2 X (2 * start)%nat) as [v1 Hv1]; [lia|].
    destruct (lookup_lt_is_Some_2 X (2 * start + 1)%nat) as [v2 Hv2]; [lia|].
    assert (E0 : u32 (N.shiftl (N.of_nat start) 1) = (2 * N.of_nat start)%N).
    { rewrite shiftl1_double. apply u32_small. lia. }
    assert (E1 : getX X (2 * N.of_nat start) = Some v1).
    { unfold getX.
      now replace (N.to_nat (2 * N.of_nat start)) with (2 * start)%nat by lia. }
    assert (E2 : getX X (u32 (2 * N.of_nat start + 1)) = Some v2).
    { rewrite u32_small by lia. unfold getX.
      now replace (N.to_nat (2 * N.of_nat start + 1))
        with (2 * start + 1)%nat by lia. }
    assert (E3 : store cols (N.to_nat (N.of_nat start)) (color_of v1 v2)
                 = Some (<[start := color_of v1 v2]> cols)).
    { unfold store. rewrite Nat2N.id.
      destruct (decide (start < length cols)%nat); [reflexivity|lia]. }
    destruct (IH (S start) (<[start := color_of v1 v2]> cols))
      as (cols' & Hrun & Hl & Hin & Hout);
      [rewrite length_insert; lia | lia | assumption |].
    exists cols'. split; [|split; [|split]].
    + simpl seq. simpl map. simpl for_each.
      rewrite E0, E1. simpl. rewrite E2. simpl.
      fold (color_of v1 v2). rewrite E3. simpl. exact Hrun.
    + now rewrite Hl, length_insert.
    + intros i Hi. destruct (decide (i = start)) as [->|Hne].
      * rewrite Hout by lia. rewrite Hv1, Hv2. simpl.
        apply list_lookup_insert_eq. lia.
      * apply Hin. lia.
    + intros i Hi. rewrite Hout by lia. apply list_lookup_insert_ne. lia.
Qed.

Lemma three_color_constraint_in_model (g : graph_type) (i : nat) :
  (N.of_nat (num_vertices g) < 2147483648)%N -> (i < num_vertices g)%nat ->
  le_constr (lin_var (2 * N.of_nat i)%N + lin_var (2 * N.of_nat i + 1)%N)%lin 1
  ∈ constrs (set_optimize_model g THREE).
Proof.
  intros Hn Hi. unfold set_optimize_model. cbn [constrs].
  apply elem_of_app. right.
  rewrite (u32_small (N.of_nat (num_vertices g))) by lia.
  rewrite shiftl1_double, u32_small by lia.
  replace (2 * N.of_nat (num_vertices g))%N
    with (N.of_nat (2 * num_vertices g)) by lia.
  unfold three_color_constraints. rewrite even_indices_double, map_map.
  apply list_elem_of_fmap. exists i. split.
  - now rewrite u32_small by lia.
  - apply list_elem_of_In, in_seq. lia.
Qed.

(** C1 (as the code has it): for values of the color bits that satisfy the
    constraints of the model and the bounds [0 <= x <= 1] of the variables,
    [apply_solution] gives every vertex a color in {0,1,2,3}; with three
    colors the color is in {0,1,2} for every vertex whose two values are
    not both 0.5. *)
Theorem apply_solution_color_range (g : graph_type) (color_num : ColorNumType)
  (X : list Q) (m_vColor : list Z) :
  (N.of_nat (num_vertices g) < 2147483648)%N ->
  length m_vColor = num_vertices g ->
  length X = (2 * num_vertices g)%nat ->
  Forall (fun x => 0 <= x <= 1) X ->
  Forall (satisfied (assignment X)) (constrs (set_optimize_model g color_num)) ->
  exists m_vColor',
    apply_solution X m_vColor = Some m_vColor'
    /\ length m_vColor' = length m_vColor
    /\ forall (i : nat) (c : Z),
        m_vColor' !! i = Some c ->
        (0 <= c <= 3)%Z
        /\ (color_num = THREE ->
            ~ (assignment X (2 * N.of_nat i)%N == 1 # 2
               /\ assignment X (2 * N.of_nat i + 1)%N == 1 # 2) ->
            (c <= 2)%Z).
Proof.
  intros Hn Hlc HlX Hb Hsat.
  destruct (apply_solution_from X (length m_vColor) 0 m_vColor)
    as (cols & Hrun & Hl & Hin & _); [lia | lia | lia |].
  exists cols. split; [|split; [exact Hl|]].
  - unfold apply_solution. rewrite u32_small by lia. now rewrite Nat2N.id.
  - intros i c Hc.
    assert (Hi : (i < length m_vColor)%nat).
    { rewrite <- Hl. apply lookup_lt_is_Some. eauto. }
    destruct (lookup_lt_is_Some_2 X (2 * i)%nat) as [v1 Hv1]; [lia|].
    destruct (lookup_lt_is_Some_2 X (2 * i + 1)%nat) as [v2 Hv2]; [lia|].
    rewrite Hin, Hv1, Hv2 in Hc by lia. cbn [default from_option id] in Hc.
    injection Hc as <-.
    assert (A1 : assignment X (2 * N.of_nat i)%N = v1).
    { unfold assignment.
      replace (N.to_nat (2 * N.of_nat i)) with (2 * i)%nat by lia.
      now rewrite Hv1. }
    assert (A2 : assignment X (2 * N.of_nat i + 1)%N = v2).
    { unfold assignment.
      replace (N.to_nat (2 * N.of_nat i + 1)) with (2 * i + 1)%nat by lia.
      now rewrite Hv2. }
    rewrite A1, A2.
    rewrite Forall_forall in Hb.
    assert (B1 : 0 <= v1 <= 1)
      by (apply Hb, list_elem_of_In; eapply list_elem_of_lookup_2; eauto).
    assert (B2 : 0 <= v2 <= 1)
      by (apply Hb, list_elem_of_In; eapply list_elem_of_lookup_2; eauto).
    destruct (color_of_range v1 v2 B1 B2) as [R T].
    split; [exact R|]. intros -> Hne. apply T; [|exact Hne].
    rewrite Forall_forall in Hsat.
    pose proof (three_color_constraint_in_model g i Hn ltac:(lia)) as Hc.
    apply list_elem_of_In, Hsat in Hc. clear Hsat. rename Hc into Hsat.
    unfold satisfied in Hsat. simpl in Hsat.
    autorewrite with lin_eval in Hsat. now rewrite A1, A2 in Hsat.
Qed.

(** C1, counterexample: a graph with a single vertex and three colors. The
    values (0.5, 0.5) are within the bounds and satisfy the only constraint
    [b1 + b2 <= 1] of the model, and [apply_solution] gives the vertex the
    color 3, which is not in {0,1,2}. *)
Lemma apply_solution_three_colors_counterexample :
  let g := single_vertex in
  let X := [1 # 2; 1 # 2] in
  Forall (fun x => 0 <= x <= 1) X
  /\ Forall (satisfied (assignment X)) (constrs (set_optimize_model g THREE))
  /\ constrs (set_optimize_model g THREE)
     = [le_constr (lin_var 0%N + lin_var 1%N)%lin 1]
  /\ apply_solution X [(-1)%Z] = Some [3%Z]
  /\ ~ (0 <= 3 <= 2)%Z.
Proof.
  cbv zeta. split; [|split; [|split; [|split]]].
  - repeat constructor; vm_compute; discriminate.
  - vm_compute constrs. repeat constructor. vm_compute. discriminate.
  - vm_compute. reflexivity.
  - vm_compute. reflexivity.
  - lia.
Qed.

(** ** The odd-cycle search *)

Lemma adjacent_vertices_bound (g : graph_type) (cv u : graph_vertex_type) :
  wf_graph g -> u ∈ adjacent_vertices cv g -> (u < num_vertices g)%nat.
Proof.
  intros [_ Hwf] Hu. unfold adjacent_vertices in Hu.
  apply list_elem_of_In, in_flat_map in Hu. destruct Hu as (e & He & Hu).
  rewrite List.Forall_forall in Hwf. specialize (Hwf e He).
  apply in_app_or in Hu.
  destruct Hu as [Hu|Hu]; destruct (decide _); simpl in Hu;
    try contradiction; destruct Hu as [<-|[]]; tauto.
Qed.

Lemma adjacent_vertices_irrefl (g : graph_type) (cv u : graph_vertex_type) :
  no_self_loop g -> u ∈ adjacent_vertices cv g -> u <> cv.
Proof.
  intros Hno Hu. unfold adjacent_vertices in Hu.
  apply list_elem_of_In, in_flat_map in Hu. destruct Hu as (e & He & Hu).
  unfold no_self_loop in Hno.
  rewrite List.Forall_forall in Hno. specialize (Hno e He).
  apply in_app_or in Hu.
  destruct Hu as [Hu|Hu]; destruct (decide _) as [E|E]; simpl in Hu;
    try contradiction; destruct Hu as [<-|[]]; congruence.
Qed.

Lemma unseen_replicate (n : nat) : unseen (replicate n (-1)%Z) = n.
Proof.
  unfold unseen. induction n as [|n IH]; [reflexivity|].
  simpl replicate. rewrite filter_cons_True by reflexivity. simpl. now rewrite IH.
Qed.

Lemma unseen_insert (dist : list Z) (u : nat) (d : Z) :
  dist !! u = Some (-1)%Z -> d <> (-1)%Z ->
  S (unseen (<[u:=d]> dist)) = unseen dist.
Proof.
  unfold unseen. revert u. induction dist as [|x dist IH]; intros u Hu Hd.
  - discriminate.
  - destruct u as [|u]; simpl in Hu.
    + injection Hu as ->. simpl insert.
      rewrite filter_cons_False by assumption.
      now rewrite filter_cons_True by reflexivity.
    + simpl insert. destruct (decide (x = (-1)%Z)) as [E|E].
      * rewrite !filter_cons_True by assumption. simpl. f_equal. now apply IH.
      * rewrite !filter_cons_False by assumption. now apply IH.
Qed.

Lemma first_unseen_spec (dist : list Z) (nbrs : list graph_vertex_type) :
  (forall u, u ∈ nbrs -> (u < length dist)%nat) ->
  exists r, first_unseen dist nbrs = Some r
            /\ match r with
               | Some u => u ∈ nbrs /\ dist !! u = Some (-1)%Z
               | None => True
               end.
Proof.
  induction nbrs as [|u nbrs IH]; intros Hb.
  - exists None. split; [reflexivity|exact I].
  - destruct (lookup_lt_is_Some_2 dist u) as [d Hd];
      [apply Hb, list_elem_of_here|].
    cbn [first_unseen]. rewrite Hd. cbn [mbind option_bind].
    destruct (decide (d = (-1)%Z)) as [->|Hne].
    + exists (Some u). split; [reflexivity|]. split; [apply list_elem_of_here|exact Hd].
    + destruct IH as (r & Hr & Hspec).
      { intros w Hw. apply Hb. now apply list_elem_of_further. }
      exists r. split; [exact Hr|]. destruct r as [w|]; [|exact I].
      destruct Hspec as [Hw Hdw]. split; [now apply list_elem_of_further|exact Hdw].
Qed.

Section OddCycleSearch.

Variable g : graph_type.
Variable v : graph_vertex_type.
Hypothesis Hwf : wf_graph g.
Hypothesis Hno : no_self_loop g.

(** The second loop over the neighbours never finds a visited neighbour
    of the same distance value. *)
Lemma detect_odd_cycle_nothing (cv u : graph_vertex_type) (st : DFSState) :
  dfs_inv g v st -> cv ∈ vVertexStack st -> u ∈ adjacent_vertices cv g ->
  detect_odd_cycle v cv u st = Some st.
Proof.
  intros Hinv Hcv Hu.
  pose proof (adjacent_vertices_bound g cv u Hwf Hu) as Hub.
  pose proof (adjacent_vertices_irrefl g cv u Hno Hu) as Hne.
  destruct (inv_stack g v st Hinv cv Hcv) as [Hcvb Hcvd].
  destruct (lookup_lt_is_Some_2 (vNodeVisited st) u) as [b Hb];
    [rewrite (inv_visited_length g v st Hinv); exact Hub|].
  destruct (lookup_lt_is_Some_2 (vNodeDistColor st) u) as [du Hdu];
    [rewrite (inv_dist_length g v st Hinv); exact Hub|].
  destruct (lookup_lt_is_Some_2 (vNodeDistColor st) cv) as [dcv Hdcv];
    [rewrite (inv_dist_length g v st Hinv); exact Hcvb|].
  unfold detect_odd_cycle. rewrite Hb, Hdu, Hdcv. cbn [mbind option_bind].
  destruct b; [|reflexivity].
  pose proof (inv_visited g v st Hinv u Hb) as ->.
  rewrite (inv_root g v st Hinv) in Hdu. injection Hdu as <-.
  rewrite Hcvd in Hdcv by congruence. injection Hdcv as <-.
  reflexivity.
Qed.

(** One iteration: it is defined, keeps the invariant and decreases the
    measure by one. *)
Lemma dfs_step_inv (cv : graph_vertex_type) (rest : list graph_vertex_type)
  (st : DFSState) :
  dfs_inv g v st -> vVertexStack st = cv :: rest ->
  exists st', dfs_step g v cv st = Some st'
              /\ dfs_inv g v st'
              /\ S (potential st') = potential st.
Proof.
  intros Hinv Hstack.
  assert (Hcv : cv ∈ vVertexStack st) by (rewrite Hstack; apply list_elem_of_here).
  destruct (inv_stack g v st Hinv cv Hcv) as [Hcvb Hcvd].
  destruct (first_unseen_spec (vNodeDistColor st) (adjacent_vertices cv g))
    as (r & Hr & Hspec).
  { intros u Hu. rewrite (inv_dist_length g v st Hinv).
    now apply adjacent_vertices_bound with cv. }
  unfold dfs_step. rewrite Hr. cbn [mbind option_bind].
  destruct r as [u|].
  - (* an unseen neighbour is pushed *)
    destruct Hspec as [Hu Hdu].
    pose proof (adjacent_vertices_bound g cv u Hwf Hu) as Hub.
    destruct (lookup_lt_is_Some_2 (vNodeDistColor st) cv) as [dcv Hdcv];
      [rewrite (inv_dist_length g v st Hinv); exact Hcvb|].
    assert (Huv : u <> v).
    { intros ->. rewrite (inv_root g v st Hinv) in Hdu. discriminate. }
    unfold visit_unseen. rewrite Hdcv. cbn [mbind option_bind].
    rewrite store_Some by (rewrite (inv_dist_length g v st Hinv); exact Hub).
    cbn [mbind option_bind].
    rewrite store_Some
      by (rewrite length_insert, (inv_dist_length g v st Hinv); exact Hub).
    cbn [mbind option_bind]. rewrite list_insert_insert_eq.
    eexists. split; [reflexivity|]. split.
    + constructor; cbn.
      * rewrite length_insert. apply (inv_dist_length g v st Hinv).
      * apply (inv_visited_length g v st Hinv).
      * apply (inv_cycles g v st Hinv).
      * apply (inv_visited g v st Hinv).
      * rewrite list_lookup_insert_ne by exact Huv.
        apply (inv_root g v st Hinv).
      * intros x Hx. apply elem_of_cons in Hx. destruct Hx as [->|Hx].
        -- split; [exact Hub|]. intros _. apply list_lookup_insert_eq.
           rewrite (inv_dist_length g v st Hinv). exact Hub.
        -- destruct (inv_stack g v st Hinv x Hx) as [Hxb Hxd].
           split; [exact Hxb|]. intros Hxv.
           rewrite list_lookup_insert_ne; [now apply Hxd|].
           intros ->. rewrite Hxd in Hdu by exact Hxv. discriminate.
    + unfold potential. cbn.
      pose proof (unseen_insert (vNodeDistColor st) u 1%Z Hdu ltac:(discriminate)).
      unfold unseen in *. lia.
  - (* the top of the stack is popped *)
    rewrite for_each_unchanged
      by (intros u Hu; now apply detect_odd_cycle_nothing).
    cbn [mbind option_bind].
    rewrite store_Some by (rewrite (inv_visited_length g v st Hinv); exact Hcvb).
    cbn [mbind option_bind].
    eexists. split; [reflexivity|]. split.
    + constructor; cbn.
      * apply (inv_dist_length g v st Hinv).
      * rewrite length_insert. apply (inv_visited_length g v st Hinv).
      * apply (inv_cycles g v st Hinv).
      * intros u Hu. apply (inv_visited g v st Hinv).
        destruct (decide (cv = u)) as [->|Hne].
        -- rewrite list_lookup_insert_eq in Hu; [discriminate|].
           rewrite (inv_visited_length g v st Hinv). exact Hcvb.
        -- now rewrite list_lookup_insert_ne in Hu.
      * apply (inv_root g v st Hinv).
      * intros x Hx. apply (inv_stack g v st Hinv).
        rewrite Hstack in Hx |- *. now apply list_elem_of_further.
    + unfold potential. cbn. rewrite Hstack. unfold unseen. simpl. lia.
Qed.

(** With fuel for the measure, the loop ends, and with no cycle stored. *)
Lemma dfs_loop_ends (fuel : nat) (st : DFSState) :
  dfs_inv g v st -> (potential st <= fuel)%nat ->
  exists st', dfs_loop fuel g v st = Some st' /\ vOddCyle st' = [].
Proof.
  revert st. induction fuel as [|fuel IH]; intros st Hinv Hfuel.
  - destruct (vVertexStack st) as [|cv rest] eqn:Hstack.
    + exists st. simpl. rewrite Hstack. split; [reflexivity|].
      apply (inv_cycles g v st Hinv).
    + unfold potential in Hfuel. rewrite Hstack in Hfuel. simpl in Hfuel. lia.
  - destruct (vVertexStack st) as [|cv rest] eqn:Hstack.
    + exists st. simpl. rewrite Hstack. split; [reflexivity|].
      apply (inv_cycles g v st Hinv).
    + destruct (dfs_step_inv cv rest st Hinv Hstack) as (st1 & Hstep & Hinv1 & Hpot).
      destruct (IH st1 Hinv1 ltac:(lia)) as (st' & Hloop & Hout).
      exists st'. simpl. rewrite Hstack, Hstep. cbn [mbind option_bind].
      split; assumption.
Qed.

Lemma dfs_init_inv :
  (v < num_vertices g)%nat ->
  exists st, dfs_init g v = Some st /\ dfs_inv g v st
             /\ (potential st < 2 * num_vertices g)%nat.
Proof.
  intros Hv. destruct Hwf as [Hn _].
  unfold dfs_init. rewrite u32_small, Nat2N.id by lia.
  rewrite !store_Some by (rewrite length_replicate; exact Hv).
  cbn [mbind option_bind].
  eexists. split; [reflexivity|]. split.
  - constructor; cbn.
    + now rewrite length_insert, length_replicate.
    + now rewrite length_insert, length_replicate.
    + reflexivity.
    + intros u Hu. destruct (decide (v = u)) as [->|Hne]; [reflexivity|].
      rewrite list_lookup_insert_ne in Hu by exact Hne.
      apply lookup_replicate in Hu. destruct Hu as [Hu _]. discriminate.
    + apply list_lookup_insert_eq. now rewrite length_replicate.
    + intros x Hx. apply list_elem_of_singleton in Hx. subst x.
      split; [exact Hv|]. congruence.
  - unfold potential. cbn.
    pose proof (unseen_insert (replicate (num_vertices g) (-1)%Z) v 0%Z) as H.
    rewrite unseen_replicate in H.
    specialize (H ltac:(apply lookup_replicate; split; [reflexivity|exact Hv])
                  ltac:(discriminate)).
    unfold unseen in *. lia.
Qed.

Lemma get_odd_cycles_empty (fuel : nat) :
  (v < num_vertices g)%nat -> (2 * num_vertices g <= fuel)%nat ->
  get_odd_cycles fuel g v = Some [].
Proof.
  intros Hv Hfuel.
  destruct (dfs_init_inv Hv) as (st & Hinit & Hinv & Hpot).
  destruct (dfs_loop_ends fuel st Hinv ltac:(lia)) as (st' & Hloop & Hout).
  unfold get_odd_cycles. rewrite Hinit. cbn [mbind option_bind].
  rewrite Hloop. cbn [mbind option_bind]. now rewrite Hout.
Qed.

End OddCycleSearch.

Lemma even_indices_bound (numColorBits k : N) :
  k ∈ even_indices numColorBits ->
  (N.shiftr k 1 < N.div2 (numColorBits + 1))%N.
Proof.
  unfold even_indices. intros H.
  apply list_elem_of_fmap in H. destruct H as (i & -> & Hi).
  apply list_elem_of_In, in_seq in Hi.
  rewrite N.shiftr_div_pow2. change (2 ^ 1)%N with 2%N.
  rewrite N.mul_comm, N.div_mul by lia.
  set (d := N.div2 (numColorBits + 1)) in *. clearbody d. lia.
Qed.

Lemma add_odd_cycle_constraints_empty (g : graph_type) (fuel : nat)
  (numColorBits : N) :
  wf_graph g -> no_self_loop g -> (2 * num_vertices g <= fuel)%nat ->
  (numColorBits <= 2 * N.of_nat (num_vertices g))%N ->
  add_odd_cycle_constraints fuel g numColorBits = Some [].
Proof.
  intros Hwf Hno Hfuel Hbits.
  unfold add_odd_cycle_constraints. apply for_each_unchanged.
  intros k Hk. apply even_indices_bound in Hk.
  rewrite get_odd_cycles_empty; try assumption; [reflexivity|].
  rewrite N.div2_div in Hk.
  assert ((numColorBits + 1) / 2 < N.of_nat (num_vertices g) + 1)%N.
  { apply N.Div0.div_lt_upper_bound. lia. }
  lia.
Qed.

(** C2: in a graph whose edges join distinct vertices, the odd-cycle search
    ends with an empty list of cycles from every root;
    [add_odd_cycle_constraints], called with the number of color bits of
    the model, adds no constraint; and an iteration of the loop of
    [coloring] leaves the constraints of the model as they are. *)
Theorem no_odd_cycle_without_self_loop (g : graph_type)
  (color_num : ColorNumType) (fuel : nat) :
  wf_graph g -> no_self_loop g -> (2 * num_vertices g <= fuel)%nat ->
  (forall v, (v < num_vertices g)%nat -> get_odd_cycles fuel g v = Some [])
  /\ add_odd_cycle_constraints fuel g
       (u32 (N.of_nat (length (vColorBits (set_optimize_model g color_num)))))
     = Some []
  /\ (forall (optimize : OptModel -> option Solution) (m : OptModel)
             (sol : Solution) (st' : OptModel * Solution),
        vColorBits m = vColorBits (set_optimize_model g color_num) ->
        refine_iteration optimize g fuel (m, sol) = Some st' ->
        constrs st'.1 = constrs m).
Proof.
  intros Hwf Hno Hfuel.
  assert (Hn : (N.of_nat (num_vertices g) < 2147483648)%N) by apply Hwf.
  assert (Hadd : add_odd_cycle_constraints fuel g
                   (u32 (N.of_nat (length (vColorBits
                                             (set_optimize_model g color_num)))))
                 = Some []).
  { apply add_odd_cycle_constraints_empty; try assumption.
    unfold set_optimize_model. cbn [vColorBits].
    rewrite length_map, length_seq, N2Nat.id.
    rewrite (u32_small (N.of_nat (num_vertices g))) by lia.
    rewrite shiftl1_double.
    rewrite !(u32_small (2 * N.of_nat (num_vertices g))) by lia. lia. }
  split; [|split].
  - intros v Hv. now apply get_odd_cycles_empty.
  - exact Hadd.
  - intros optimize m sol st' Hbits Hrun.
    unfold refine_iteration in Hrun. cbn [fst snd] in Hrun.
    destruct (adjust_variable_pair_in_objective (X sol) (obj m)) as [obj1|];
      [|discriminate].
    cbn [mbind option_bind] in Hrun.
    destruct (adjust_conflict_edge_vertices_in_objective g (X sol) obj1)
      as [obj2|]; [|discriminate].
    cbn [mbind option_bind] in Hrun.
    rewrite Hbits, Hadd in Hrun. cbn [mbind option_bind] in Hrun.
    match type of Hrun with
    | context [optimize ?m'] => destruct (optimize m') as [sol'|]
    end; [|discriminate].
    cbn [mbind option_bind] in Hrun. injection Hrun as <-.
    cbn. apply app_nil_r.
Qed.

(** ** The odd-cycle search is defined on every graph *)

Lemma trace_cycle_total (stack : list graph_vertex_type)
  (u : graph_vertex_type) (inCycle : list bool) :
  (forall x, x ∈ stack -> (x < length inCycle)%nat) ->
  exists r, trace_cycle stack u inCycle = Some r
            /\ length r.2 = length inCycle.
Proof.
  revert inCycle. induction stack as [|x stack IH]; intros inCycle Hb.
  - exists ([], inCycle). split; reflexivity.
  - cbn [trace_cycle].
    rewrite store_Some by apply Hb, list_elem_of_here.
    cbn [mbind option_bind]. destruct (decide (x = u)).
    + eexists. split; [reflexivity|]. cbn. apply length_insert.
    + destruct (IH (<[x:=true]> inCycle)) as (r & Hr & Hl).
      { intros y Hy. rewrite length_insert. apply Hb.
        now apply list_elem_of_further. }
      rewrite Hr. cbn [mbind option_bind]. eexists. split; [reflexivity|].
      cbn. now rewrite Hl, length_insert.
Qed.

Section OddCycleSearchTotal.

Variable g : graph_type.
Variable v : graph_vertex_type.
Hypothesis Hwf : wf_graph g.

Lemma detect_odd_cycle_total (cv u : graph_vertex_type) (st : DFSState) :
  (cv < num_vertices g)%nat -> (u < num_vertices g)%nat -> dfs_shape g v st ->
  exists st', detect_odd_cycle v cv u st = Some st'
              /\ dfs_shape g v st'
              /\ vNodeDistColor st' = vNodeDistColor st
              /\ vNodeVisited st' = vNodeVisited st
              /\ vVertexStack st' = vVertexStack st.
Proof.
  intros Hcv Hu Hsh.
  destruct (lookup_lt_is_Some_2 (vNodeVisited st) u) as [b Hb];
    [rewrite (shape_visited g v st Hsh); exact Hu|].
  destruct (lookup_lt_is_Some_2 (vNodeDistColor st) u) as [du Hdu];
    [rewrite (shape_dist g v st Hsh); exact Hu|].
  destruct (lookup_lt_is_Some_2 (vNodeDistColor st) cv) as [dcv Hdcv];
    [rewrite (shape_dist g v st Hsh); exact Hcv|].
  unfold detect_odd_cycle. rewrite Hb, Hdu, Hdcv. cbn [mbind option_bind].
  destruct (b && bool_decide (du = dcv)).
  2:{ exists st. split; [reflexivity|]. split; [exact Hsh|].
      split; [reflexivity|]. split; reflexivity. }
  pose proof (shape_root g v st Hsh) as Hv.
  rewrite store_Some by (rewrite (shape_inCycle g v st Hsh); exact Hv).
  cbn [mbind option_bind].
  destruct (trace_cycle_total (vVertexStack st) u (<[v:=true]> (vInCycle st)))
    as (r & Hr & Hl).
  { intros x Hx. rewrite length_insert, (shape_inCycle g v st Hsh).
    now apply (shape_stack g v st Hsh). }
  rewrite length_insert, (shape_inCycle g v st Hsh) in Hl.
  rewrite Hr. cbn [mbind option_bind].
  destruct (lookup_lt_is_Some_2 r.2 v) as [inV HinV]; [rewrite Hl; exact Hv|].
  rewrite HinV. cbn [mbind option_bind].
  eexists. split; [reflexivity|].
  split; [|split; [reflexivity|split; reflexivity]].
  constructor; cbn; try apply Hsh. exact Hl.
Qed.

Lemma dfs_step_total (cv : graph_vertex_type)
  (rest : list graph_vertex_type) (st : DFSState) :
  dfs_shape g v st -> vVertexStack st = cv :: rest ->
  exists st', dfs_step g v cv st = Some st'
              /\ dfs_shape g v st'
              /\ S (potential st') = potential st.
Proof.
  intros Hsh Hstack.
  assert (Hcv : (cv < num_vertices g)%nat).
  { apply (shape_stack g v st Hsh). rewrite Hstack. apply list_elem_of_here. }
  destruct (first_unseen_spec (vNodeDistColor st) (adjacent_vertices cv g))
    as (r & Hr & Hspec).
  { intros u Hu. rewrite (shape_dist g v st Hsh).
    now apply adjacent_vertices_bound with cv. }
  unfold dfs_step. rewrite Hr. cbn [mbind option_bind].
  destruct r as [u|].
  - destruct Hspec as [Hu Hdu].
    pose proof (adjacent_vertices_bound g cv u Hwf Hu) as Hub.
    destruct (lookup_lt_is_Some_2 (vNodeDistColor st) cv) as [dcv Hdcv];
      [rewrite (shape_dist g v st Hsh); exact Hcv|].
    unfold visit_unseen. rewrite Hdcv. cbn [mbind option_bind].
    rewrite store_Some by (rewrite (shape_dist g v st Hsh); exact Hub).
    cbn [mbind option_bind].
    rewrite store_Some
      by (rewrite length_insert, (shape_dist g v st Hsh); exact Hub).
    cbn [mbind option_bind]. rewrite list_insert_insert_eq.
    eexists. split; [reflexivity|]. split.
    + constructor; cbn; try apply Hsh.
      * rewrite length_insert. apply Hsh.
      * intros x Hx. apply elem_of_cons in Hx. destruct Hx as [->|Hx];
          [exact Hub|now apply (shape_stack g v st Hsh)].
    + unfold potential. cbn.
      pose proof (unseen_insert (vNodeDistColor st) u 1%Z Hdu ltac:(discriminate)).
      unfold unseen in *. lia.
  - destruct (for_each_total
                (fun st' => dfs_shape g v st'
                            /\ vNodeDistColor st' = vNodeDistColor st
                            /\ vNodeVisited st' = vNodeVisited st
                            /\ vVertexStack st' = vVertexStack st)
                (detect_odd_cycle v cv) (adjacent_vertices cv g) st)
      as (st1 & Hloop & Hsh1 & Hd1 & Hv1 & Hs1).
    { intros u s Hu (Hs & Hd & Hv & Hk).
      destruct (detect_odd_cycle_total cv u s Hcv
                  (adjacent_vertices_bound g cv u Hwf Hu) Hs)
        as (s' & Hrun & Hs' & Hd' & Hv' & Hk').
      exists s'. split; [exact Hrun|]. split; [exact Hs'|].
      split; [now rewrite Hd'|]. split; [now rewrite Hv'|now rewrite Hk']. }
    { split; [exact Hsh|]. split; [reflexivity|]. split; reflexivity. }
    rewrite Hloop. cbn [mbind option_bind].
    rewrite store_Some by (rewrite (shape_visited g v st1 Hsh1); exact Hcv).
    cbn [mbind option_bind].
    eexists. split; [reflexivity|]. split.
    + constructor; cbn; try apply Hsh1.
      * rewrite length_insert. apply Hsh1.
      * intros x Hx. apply (shape_stack g v st1 Hsh1).
        rewrite Hs1, Hstack in Hx |- *. now apply list_elem_of_further.
    + unfold potential. cbn. rewrite Hd1, Hs1, Hstack. unfold unseen. simpl. lia.
Qed.

Lemma dfs_loop_total (fuel : nat) (st : DFSState) :
  dfs_shape g v st -> (potential st <= fuel)%nat ->
  exists st', dfs_loop fuel g v st = Some st'.
Proof.
  revert st. induction fuel as [|fuel IH]; intros st Hsh Hfuel.
  - destruct (vVertexStack st) as [|cv rest] eqn:Hstack.
    + exists st. simpl. now rewrite Hstack.
    + unfold potential in Hfuel. rewrite Hstack in Hfuel. simpl in Hfuel. lia.
  - destruct (vVertexStack st) as [|cv rest] eqn:Hstack.
    + exists st. simpl. now rewrite Hstack.
    + destruct (dfs_step_total cv rest st Hsh Hstack) as (st1 & Hstep & Hsh1 & Hpot).
      destruct (IH st1 Hsh1 ltac:(lia)) as (st' & Hloop).
      exists st'. simpl. now rewrite Hstack, Hstep.
Qed.

(** On every well-formed graph the search from a vertex ends within
    [2 * num_vertices] iterations. *)
Lemma get_odd_cycles_total (fuel : nat) :
  (v < num_vertices g)%nat -> (2 * num_vertices g <= fuel)%nat ->
  exists vOddCyle, get_odd_cycles fuel g v = Some vOddCyle.
Proof.
  intros Hv Hfuel. destruct Hwf as [Hn _].
  unfold get_odd_cycles, dfs_init. rewrite u32_small, Nat2N.id by lia.
  rewrite !store_Some by (rewrite length_replicate; exact Hv).
  cbn [mbind option_bind].
  match goal with
  | |- context [dfs_loop fuel g v ?st] =>
      destruct (dfs_loop_total fuel st) as (st' & Hloop)
  end.
  - constructor; cbn; try (now rewrite ?length_insert, length_replicate);
      [exact Hv|].
    intros x Hx. apply list_elem_of_singleton in Hx. now subst x.
  - unfold potential. cbn.
    pose proof (unseen_insert (replicate (num_vertices g) (-1)%Z) v 0%Z) as H.
    rewrite unseen_replicate in H.
    specialize (H ltac:(apply lookup_replicate; split; [reflexivity|exact Hv])
                  ltac:(discriminate)).
    unfold unseen in *. lia.
  - rewrite Hloop. cbn [mbind option_bind]. eauto.
Qed.

End OddCycleSearchTotal.

(** ** The bodies of the two refinement loops are defined *)

Lemma add_odd_cycle_constraints_total (g : graph_type) (fuel : nat)
  (numColorBits : N) :
  wf_graph g -> (2 * num_vertices g <= fuel)%nat ->
  (numColorBits <= 2 * N.of_nat (num_vertices g))%N ->
  exists added, add_odd_cycle_constraints fuel g numColorBits = Some added.
Proof.
  intros Hwf Hfuel Hbits. unfold add_odd_cycle_constraints.
  destruct (for_each_total (fun _ => True)
              (fun k added =>
                 vOddCyle ← get_odd_cycles fuel g (N.to_nat (N.shiftr k 1));
                 Some (added ++ flat_map odd_cycle_constraints vOddCyle))
              (even_indices numColorBits) [])
    as (added & Hrun & _); [|exact I|eauto].
  intros k added Hk _. apply even_indices_bound in Hk.
  destruct (get_odd_cycles_total g (N.to_nat (N.shiftr k 1)) Hwf fuel)
    as (cycles & Hc); [|exact Hfuel|].
  - rewrite N.div2_div in Hk.
    assert ((numColorBits + 1) / 2 < N.of_nat (num_vertices g) + 1)%N.
    { apply N.Div0.div_lt_upper_bound. lia. }
    lia.
  - rewrite Hc. cbn [mbind option_bind]. eauto.
Qed.

Lemma getX_Some (X : list Q) (k : N) :
  (N.to_nat k < length X)%nat -> exists value, getX X k = Some value.
Proof. intros H. unfold getX. now apply lookup_lt_is_Some_2. Qed.

Lemma adjust_conflict_edge_vertices_in_objective_total (g : graph_type)
  (X : list Q) (obj : GRBLinExpr) :
  wf_graph g -> length X = (2 * num_vertices g)%nat ->
  exists obj', adjust_conflict_edge_vertices_in_objective g X obj = Some obj'.
Proof.
  intros [Hn Hedges] Hlen. unfold adjust_conflict_edge_vertices_in_objective.
  destruct (for_each_total (fun _ => True)
              (fun e obj =>
                 for_each
                   (fun i obj =>
                      let bitIdxS := u32 (bitIdx (source e) + i) in
                      let bitIdxT := u32 (bitIdx (target e) + i) in
                      value1 ← getX X bitIdxS;
                      value2 ← getX X bitIdxT;
                      Some (adjust_edge_bit bitIdxS bitIdxT value1 value2 obj))
                   [0%N; 1%N] obj)
              (edges g) obj) as (obj' & Hrun & _); [|exact I|eauto].
  intros e o He _.
  rewrite List.Forall_forall in Hedges.
  destruct (Hedges e ltac:(now apply list_elem_of_In)) as [Hs Ht].
  apply (for_each_total (fun _ => True)); [|exact I].
  intros i o' Hi _.
  assert (Hi' : (i <= 1)%N).
  { apply elem_of_cons in Hi. destruct Hi as [->|Hi]; [lia|].
    apply list_elem_of_singleton in Hi. lia. }
  assert (Eb : forall w, (w < num_vertices g)%nat ->
                         u32 (bitIdx w + i) = (2 * N.of_nat w + i)%N).
  { intros w Hw. unfold bitIdx. rewrite shiftl1_double.
    rewrite (u32_small (2 * N.of_nat w)) by lia. apply u32_small. lia. }
  cbv zeta. rewrite (Eb _ Hs), (Eb _ Ht).
  destruct (getX_Some X (2 * N.of_nat (source e) + i)) as [v1 ->]; [lia|].
  destruct (getX_Some X (2 * N.of_nat (target e) + i)) as [v2 ->]; [lia|].
  cbn [mbind option_bind]. eauto.
Qed.

Lemma setUB_total (bs : list (Q * Q)) (v : GRBVar) (x : Q) :
  (N.to_nat v < length bs)%nat ->
  exists bs', setUB bs v x = Some bs' /\ length bs' = length bs.
Proof.
  intros H. unfold setUB.
  destruct (lookup_lt_is_Some_2 bs (N.to_nat v) H) as [b ->].
  cbn [mbind option_bind]. eexists. split; [reflexivity|apply length_insert].
Qed.

Lemma setLB_total (bs : list (Q * Q)) (v : GRBVar) (x : Q) :
  (N.to_nat v < length bs)%nat ->
  exists bs', setLB bs v x = Some bs' /\ length bs' = length bs.
Proof.
  intros H. unfold setLB.
  destruct (lookup_lt_is_Some_2 bs (N.to_nat v) H) as [b ->].
  cbn [mbind option_bind]. eexists. split; [reflexivity|apply length_insert].
Qed.

Lemma apply_valid_total (st : PairScan) (var1 var2 : GRBVar)
  (bs : list (Q * Q)) :
  (N.to_nat var1 < length bs)%nat -> (N.to_nat var2 < length bs)%nat ->
  exists bs', apply_valid st var1 var2 bs = Some bs'
              /\ length bs' = length bs.
Proof.
  intros H1 H2. unfold apply_valid.
  destruct (failFlag st); [exists bs; split; reflexivity|].
  apply (for_each_total (fun bs' => length bs' = length bs)); [|reflexivity].
  intros b bs0 _ Hl.
  destruct (get_valid (mValidColorBits st) b.1 b.2); [|eauto].
  destruct (setUB_total bs0 var1 (inject_Z (Z.of_nat b.1))) as (bs1 & -> & L1);
    [lia|]. cbn [mbind option_bind].
  destruct (setLB_total bs1 var1 (inject_Z (Z.of_nat b.1))) as (bs2 & -> & L2);
    [lia|]. cbn [mbind option_bind].
  destruct (setUB_total bs2 var2 (inject_Z (Z.of_nat b.2))) as (bs3 & -> & L3);
    [lia|]. cbn [mbind option_bind].
  destruct (setLB_total bs3 var2 (inject_Z (Z.of_nat b.2))) as (bs4 & -> & L4);
    [lia|].
  exists bs4. split; [reflexivity|lia].
Qed.

Lemma rounding_pass_total (color_num : ColorNumType)
  (optModel : list GRBConstr) (X : list Q) (m : nat) (bs : list (Q * Q)) :
  length X = (2 * m)%nat -> (N.of_nat (length X) < 4294967296)%N ->
  (length X <= length bs)%nat ->
  exists bs', rounding_pass color_num optModel X bs = Some bs'
              /\ length bs' = length bs.
Proof.
  intros Hlen Hsz Hbs. unfold rounding_pass.
  rewrite (u32_small _ Hsz), Hlen, even_indices_double.
  apply (for_each_total (fun bs' => length bs' = length bs)); [|reflexivity].
  intros k bs0 Hk Hl.
  apply list_elem_of_fmap in Hk. destruct Hk as (i & -> & Hi).
  apply list_elem_of_In, in_seq in Hi.
  unfold round_pair. rewrite (u32_small (2 * N.of_nat i + 1)) by lia.
  destruct (getX_Some X (2 * N.of_nat i)) as [v1 ->]; [lia|].
  destruct (getX_Some X (2 * N.of_nat i + 1)) as [v2 ->]; [lia|].
  cbn [mbind option_bind].
  destruct (negb (Qeq_bool v1 (1 # 2) && Qeq_bool v2 (1 # 2))); [eauto|].
  destruct (apply_valid_total
              (scan_pair color_num optModel (2 * N.of_nat i)
                         (2 * N.of_nat i + 1) v1 v2)
              (2 * N.of_nat i) (2 * N.of_nat i + 1) bs0)
    as (bs' & Hrun & Hl'); [lia|lia|].
  exists bs'. split; [exact Hrun|lia].
Qed.

Section WhileLoopDone.

Context {St : Type}.
Variable body : St -> option St.
Variable census : St -> NonIntegerInfo.
Variable P : St -> Prop.
Hypothesis body_total : forall s, P s -> exists s', body s = Some s' /\ P s'.

(** When the body is defined on the states with the property [P] and keeps
    it, the loop is left, after no more iterations than are left. *)
Lemma while_non_integer_decreases_done (fuel : nat)
  (prevInfo curInfo : NonIntegerInfo) (s : St) (iterations : nat) :
  P s -> (iterations_left prevInfo curInfo <= fuel)%nat ->
  exists r,
    while_non_integer_decreases body census fuel prevInfo curInfo s iterations
    = Done r
    /\ P r.1
    /\ (r.2 <= iterations + iterations_left prevInfo curInfo)%nat.
Proof.
  revert prevInfo curInfo s iterations.
  induction fuel as [|fuel IH]; intros prevInfo curInfo s iterations Hs Hfuel;
    simpl; unfold iterations_left in Hfuel |- *.
  - destruct (0 <? vertex_non_integer_num curInfo)%N eqn:Hpos;
      destruct (vertex_non_integer_num curInfo
                <? vertex_non_integer_num prevInfo)%N eqn:Hlt; simpl;
      try (exists (s, iterations); split; [reflexivity|]; split;
           [exact Hs|simpl; lia]).
    apply N.ltb_lt in Hpos. lia.
  - destruct (0 <? vertex_non_integer_num curInfo)%N eqn:Hpos;
      destruct (vertex_non_integer_num curInfo
                <? vertex_non_integer_num prevInfo)%N eqn:Hlt; simpl;
      try (exists (s, iterations); split; [reflexivity|]; split;
           [exact Hs|simpl; lia]).
    destruct (body_total s Hs) as (s' & -> & Hs').
    apply N.ltb_lt in Hpos.
    destruct (IH curInfo (census s') s' (S iterations) Hs') as (r & Hr & HP & Hn).
    { unfold iterations_left.
      destruct (vertex_non_integer_num (census s')
                <? vertex_non_integer_num curInfo)%N eqn:Hlt';
        [apply N.ltb_lt in Hlt'|]; lia. }
    exists r. split; [exact Hr|]. split; [exact HP|].
    unfold iterations_left in Hn.
    destruct (vertex_non_integer_num (census s')
              <? vertex_non_integer_num curInfo)%N eqn:Hlt';
      [apply N.ltb_lt in Hlt'|]; lia.
Qed.

End WhileLoopDone.

Lemma refine_iteration_total (optimize : OptModel -> option Solution)
  (g : graph_type) (fuel_dfs : nat) (st : OptModel * Solution) :
  wf_graph g -> (2 * num_vertices g <= fuel_dfs)%nat ->
  (forall m, exists sol, optimize m = Some sol
                         /\ length (X sol) = (2 * num_vertices g)%nat) ->
  length (X st.2) = (2 * num_vertices g)%nat
  /\ length (vColorBits st.1) = (2 * num_vertices g)%nat ->
  exists st', refine_iteration optimize g fuel_dfs st = Some st'
              /\ length (X st'.2) = (2 * num_vertices g)%nat
                 /\ length (vColorBits st'.1) = (2 * num_vertices g)%nat.
Proof.
  intros Hwf Hfuel Hengine [HX Hbits]. unfold refine_iteration.
  assert (Hn : (N.of_nat (num_vertices g) < 2147483648)%N) by apply Hwf.
  destruct (adjust_pairs_from (fun _ => 0) (X st.2) (num_vertices g) 0 (obj st.1))
    as (obj1 & Hobj1 & _); [lia|lia|].
  unfold adjust_variable_pair_in_objective.
  rewrite (u32_small (N.of_nat (length (X st.2)))) by lia.
  rewrite HX, even_indices_double, Hobj1. cbn [mbind option_bind].
  destruct (adjust_conflict_edge_vertices_in_objective_total g (X st.2) obj1
              Hwf HX) as (obj2 & ->).
  cbn [mbind option_bind].
  destruct (add_odd_cycle_constraints_total g fuel_dfs
              (u32 (N.of_nat (length (vColorBits st.1)))) Hwf Hfuel)
    as (added & ->).
  { rewrite Hbits. rewrite u32_small by lia. lia. }
  cbn [mbind option_bind].
  match goal with
  | |- context [optimize ?m] => destruct (Hengine m) as (sol & -> & Hsol)
  end.
  cbn [mbind option_bind]. eexists. split; [reflexivity|].
  split; [exact Hsol|exact Hbits].
Qed.

(** ** Termination of the two refinement loops *)

(** C8: with 2|V| values of color bits, and with fuel for 2|V| iterations
    or more, neither the loop of [coloring] nor the loop of
    [rounding_with_binding_analysis] runs out of fuel, and a loop that is
    left has made at most 2|V| iterations: each of the loops is entered
    again only when the count of non-integer color bits is positive and
    below the count of the iteration before. Moreover the loops are left
    (and not aborted): the one of [coloring] when the graph is well formed
    and the engine answers every call with 2|V| values, the one of
    [rounding_with_binding_analysis] when every color bit has its bounds. *)
Theorem refinement_loops_terminate
  (optimize : OptModel -> option Solution) (g : graph_type)
  (color_num : ColorNumType) (fuel fuel_dfs : nat) (m : OptModel)
  (sol : Solution) :
  length (X sol) = (2 * num_vertices g)%nat ->
  (2 * num_vertices g <= fuel)%nat ->
  match coloring_loop optimize g fuel fuel_dfs m sol with
  | Done r => (r.2 <= 2 * num_vertices g)%nat
  | Abort => True
  | Timeout => False
  end
  /\ match rounding_with_binding_analysis fuel color_num m sol with
     | Done r => (r.2 <= 2 * num_vertices g)%nat
     | Abort => True
     | Timeout => False
     end
  /\ (wf_graph g -> (2 * num_vertices g <= fuel_dfs)%nat ->
      length (vColorBits m) = (2 * num_vertices g)%nat ->
      (forall m', exists sol', optimize m' = Some sol'
                               /\ length (X sol') = (2 * num_vertices g)%nat) ->
      exists r, coloring_loop optimize g fuel fuel_dfs m sol = Done r
                /\ (r.2 <= 2 * num_vertices g)%nat)
  /\ ((N.of_nat (num_vertices g) < 2147483648)%N ->
      (2 * num_vertices g <= length (bounds m))%nat ->
      exists r, rounding_with_binding_analysis fuel color_num m sol = Done r
                /\ (r.2 <= 2 * num_vertices g)%nat).
Proof.
  intros Hlen Hfuel.
  pose proof (vertex_non_integer_num_le (X sol) (XE sol)) as Hle.
  assert (Hleft : (iterations_left NonIntegerInfo_init
                                   (non_integer_num (X sol) (XE sol))
                   <= 2 * num_vertices g)%nat).
  { unfold iterations_left.
    destruct (vertex_non_integer_num (non_integer_num (X sol) (XE sol))
              <? vertex_non_integer_num NonIntegerInfo_init)%N; lia. }
  split; [|split; [|split]].
  - unfold coloring_loop.
    match goal with
    | |- match while_non_integer_decreases ?b ?c ?f ?p ?i ?s ?n with _ => _ end =>
        pose proof (while_non_integer_decreases_bound b c f p i s n) as H
    end.
    specialize (H ltac:(lia)).
    destruct (while_non_integer_decreases _ _ _ _ _ _ _); [lia|exact I|exact H].
  - unfold rounding_with_binding_analysis.
    match goal with
    | |- match while_non_integer_decreases ?b ?c ?f ?p ?i ?s ?n with _ => _ end =>
        pose proof (while_non_integer_decreases_bound b c f p i s n) as H
    end.
    specialize (H ltac:(lia)).
    destruct (while_non_integer_decreases _ _ _ _ _ _ _); [lia|exact I|exact H].
  - intros Hwf Hdfs Hbits Hengine. unfold coloring_loop.
    destruct (while_non_integer_decreases_done
                (refine_iteration optimize g fuel_dfs)
                (fun st => non_integer_num (X st.2) (XE st.2))
                (fun st => length (X st.2) = (2 * num_vertices g)%nat
                           /\ length (vColorBits st.1)
                              = (2 * num_vertices g)%nat)
                (fun st Hst => refine_iteration_total optimize g fuel_dfs st
                                 Hwf Hdfs Hengine Hst)
                fuel NonIntegerInfo_init (non_integer_num (X sol) (XE sol))
                (m, sol) 0%nat)
      as (r & Hr & _ & Hn); [split; assumption|lia|].
    exists r. split; [exact Hr|lia].
  - intros Hn Hbs. unfold rounding_with_binding_analysis.
    assert (Hbody : forall m0 : OptModel,
               (2 * num_vertices g <= length (bounds m0))%nat ->
               exists m1,
                 (bs ← rounding_pass color_num (optimized_constrs m0 sol)
                                     (X sol) (bounds m0);
                  Some (set_bounds m0 bs)) = Some m1
                 /\ (2 * num_vertices g <= length (bounds m1))%nat).
    { intros m0 Hm0.
      destruct (rounding_pass_total color_num (optimized_constrs m0 sol)
                                    (X sol) (num_vertices g) (bounds m0) Hlen)
        as (bs & -> & Hl); [lia|lia|].
      eexists. split; [reflexivity|]. cbn. lia. }
    destruct (while_non_integer_decreases_done
                (fun m0 =>
                   bs ← rounding_pass color_num (optimized_constrs m0 sol)
                                      (X sol) (bounds m0);
                   Some (set_bounds m0 bs))
                (fun _ => non_integer_num (X sol) (XE sol))
                (fun m0 => (2 * num_vertices g <= length (bounds m0))%nat)
                Hbody
                fuel NonIntegerInfo_init (non_integer_num (X sol) (XE sol))
                m 0%nat)
      as (r & Hr & _ & Hk); [exact Hbs|lia|].
    exists r. split; [exact Hr|lia].
Qed.

(** ** The scan on the models that the program builds *)

Lemma bitIdx_small (v : nat) :
  (N.of_nat v < 2147483648)%N ->
  bitIdx v = (2 * N.of_nat v)%N
  /\ u32 (bitIdx v + 1) = (2 * N.of_nat v + 1)%N.
Proof.
  intros H. unfold bitIdx. rewrite shiftl1_double.
  rewrite (u32_small (2 * N.of_nat v)) by lia.
  split; [reflexivity|apply u32_small; lia].
Qed.

Lemma constrs_of_model (g : graph_type) (color_num : ColorNumType)
  (c : GRBTempConstr) :
  (N.of_nat (num_vertices g) < 2147483648)%N ->
  c ∈ constrs (set_optimize_model g color_num) ->
  (exists e, e ∈ edges g /\ c ∈ edge_cover_constraints e)
  \/ (color_num = THREE
      /\ exists i, (i < num_vertices g)%nat
                   /\ c = le_constr (lin_var (2 * N.of_nat i)%N
                                     + lin_var (2 * N.of_nat i + 1)%N)%lin 1).
Proof.
  intros Hn Hc. unfold set_optimize_model in Hc. cbn [constrs] in Hc.
  apply elem_of_app in Hc. destruct Hc as [Hc|Hc].
  - left. apply list_elem_of_In, in_flat_map in Hc.
    destruct Hc as (e & He & Hc). exists e.
    split; now apply list_elem_of_In.
  - right. destruct color_num; [|now apply elem_of_nil in Hc].
    split; [reflexivity|]. revert Hc.
    rewrite (u32_small (N.of_nat (num_vertices g))) by lia.
    rewrite shiftl1_double, u32_small by lia.
    replace (2 * N.of_nat (num_vertices g))%N
      with (N.of_nat (2 * num_vertices g)) by lia.
    unfold three_color_constraints. rewrite even_indices_double, map_map.
    intros Hc. apply list_elem_of_fmap in Hc. destruct Hc as (i & -> & Hi).
    apply list_elem_of_In, in_seq in Hi. exists i. split; [lia|].
    now rewrite u32_small by lia.
Qed.











(** * Further properties of the program *)

(** ** The cover constraints and the colorings *)

Lemma edge_cover_sat (e : graph_edge_type) (a : GRBVar -> Q) :
  Forall (satisfied a) (edge_cover_constraints e)
  <-> (1 <= a (bitIdx (source e)) + a (u32 (bitIdx (source e) + 1))
            + a (bitIdx (target e)) + a (u32 (bitIdx (target e) + 1))
       /\ 1 <= 1 - a (bitIdx (source e)) + a (u32 (bitIdx (source e) + 1))
               + 1 - a (bitIdx (target e)) + a (u32 (bitIdx (target e) + 1))
       /\ 1 <= a (bitIdx (source e)) + 1 - a (u32 (bitIdx (source e) + 1))
               + a (bitIdx (target e)) + 1 - a (u32 (bitIdx (target e) + 1))
       /\ 1 <= 1 - a (bitIdx (source e)) + 1 - a (u32 (bitIdx (source e) + 1))
               + 1 - a (bitIdx (target e)) + 1
               - a (u32 (bitIdx (target e) + 1))).
Proof.
  unfold edge_cover_constraints. cbv zeta.
  rewrite !Forall_cons_iff, Forall_nil_iff.
  unfold satisfied. cbn [tsense ge_constr rhs lhs].
  change (Ascii.eqb GRB_GREATER_EQUAL GRB_GREATER_EQUAL) with true. cbv iota.
  autorewrite with lin_eval. tauto.
Qed.

Lemma edge_cover_sat_iff_differ (e : graph_edge_type) (a : GRBVar -> Q) :
  let s1 := a (bitIdx (source e)) in
  let s2 := a (u32 (bitIdx (source e) + 1)) in
  let t1 := a (bitIdx (target e)) in
  let t2 := a (u32 (bitIdx (target e) + 1)) in
  (s1 == 0 \/ s1 == 1) -> (s2 == 0 \/ s2 == 1) ->
  (t1 == 0 \/ t1 == 1) -> (t2 == 0 \/ t2 == 1) ->
  (Forall (satisfied a) (edge_cover_constraints e)
   <-> ~ (s1 == t1 /\ s2 == t2)).
Proof.
  intros s1 s2 t1 t2 H1 H2 H3 H4. rewrite edge_cover_sat.
  fold s1 s2 t1 t2. clearbody s1 s2 t1 t2.
  destruct H1 as [H1|H1], H2 as [H2|H2], H3 as [H3|H3], H4 as [H4|H4];
    split; intros H; try (intros [E1 E2]); try lra;
    repeat split; try lra; exfalso; apply H; split; lra.
Qed.

(** X1: for a 0/1 assignment of the four bits of the end points of an
    edge of the graph, the four cover constraints that the model holds for
    the edge are all satisfied exactly when the two end points have
    different 2-bit codes. *)
Theorem cover_constraints_hold_iff_codes_differ (g : graph_type)
  (color_num : ColorNumType) (e : graph_edge_type) (a : GRBVar -> Q) :
  let s1 := a (bitIdx (source e)) in
  let s2 := a (u32 (bitIdx (source e) + 1)) in
  let t1 := a (bitIdx (target e)) in
  let t2 := a (u32 (bitIdx (target e) + 1)) in
  e ∈ edges g ->
  (s1 == 0 \/ s1 == 1) -> (s2 == 0 \/ s2 == 1) ->
  (t1 == 0 \/ t1 == 1) -> (t2 == 0 \/ t2 == 1) ->
  (forall c, c ∈ edge_cover_constraints e ->
             c ∈ constrs (set_optimize_model g color_num))
  /\ ((forall c, c ∈ edge_cover_constraints e -> satisfied a c)
      <-> ~ (s1 == t1 /\ s2 == t2)).
Proof.
  intros s1 s2 t1 t2 He H1 H2 H3 H4. split.
  - intros c Hc. now apply edge_constraints_in_model with e.
  - pose proof (edge_cover_sat_iff_differ e a H1 H2 H3 H4) as Hiff.
    subst s1 s2 t1 t2. cbv zeta in Hiff. rewrite <- Hiff.
    rewrite List.Forall_forall. split; intros H c Hc; apply H;
      now apply list_elem_of_In.
Qed.

Lemma encode_colors_length (m_vColor : list Z) :
  length (encode_colors m_vColor) = (2 * length m_vColor)%nat.
Proof.
  unfold encode_colors. induction m_vColor as [|c l IH]; [reflexivity|].
  cbn [flat_map color_bits app length]. rewrite IH. lia.
Qed.

Lemma encode_colors_lookup (m_vColor : list Z) (i : nat) (c : Z) :
  m_vColor !! i = Some c ->
  encode_colors m_vColor !! (2 * i)%nat = Some (inject_Z (Z.shiftr c 1))
  /\ encode_colors m_vColor !! (2 * i + 1)%nat = Some (inject_Z (Z.land c 1)).
Proof.
  revert i. induction m_vColor as [|c0 l IH]; intros i Hi; [discriminate|].
  destruct i as [|i].
  - injection Hi as ->. split; reflexivity.
  - replace (2 * S i)%nat with (S (S (2 * i))) by lia.
    replace (S (S (2 * i)) + 1)%nat with (S (S (2 * i + 1))) by lia.
    exact (IH i Hi).
Qed.

Lemma color_of_bits (c : Z) :
  (0 <= c <= 3)%Z ->
  color_of (inject_Z (Z.shiftr c 1)) (inject_Z (Z.land c 1)) = c.
Proof.
  intros H.
  assert (E : c = 0%Z \/ c = 1%Z \/ c = 2%Z \/ c = 3%Z) by lia.
  destruct E as [->|[->|[->| ->]]]; reflexivity.
Qed.

(** X2: [apply_solution] writes every entry of [m_vColor] from the two
    values of the vertex and from nothing else: for values within the
    bounds [0,1] of the variables, where the conversions to [int8_t] are
    exact, whatever the vector held before (a precolored vertex included)
    is replaced by [(round(b1) << 1) + round(b2)]. *)
Theorem apply_solution_overwrites (X : list Q) (m_vColor : list Z) :
  length X = (2 * length m_vColor)%nat ->
  (N.of_nat (length X) < 4294967296)%N ->
  Forall (fun x => 0 <= x <= 1) X ->
  exists m_vColor',
    apply_solution X m_vColor = Some m_vColor'
    /\ length m_vColor' = length m_vColor
    /\ forall i, (i < length m_vColor)%nat ->
         let value1 := default 0 (X !! (2 * i)%nat) in
         let value2 := default 0 (X !! (2 * i + 1)%nat) in
         m_vColor' !! i = Some (Z.shiftl (round value1) 1 + round value2)%Z.
Proof.
  intros HX Hsz Hrange.
  destruct (apply_solution_from X (length m_vColor) 0 m_vColor)
    as (cols & Hrun & Hl & Hin & _); [lia | lia | lia |].
  exists cols. split; [|split; [exact Hl|]].
  - unfold apply_solution. rewrite u32_small by lia. now rewrite Nat2N.id.
  - intros i Hi value1 value2. subst value1 value2.
    rewrite Hin by lia. f_equal.
    rewrite List.Forall_forall in Hrange.
    destruct (lookup_lt_is_Some_2 X (2 * i)%nat ltac:(lia)) as [v1 E1].
    destruct (lookup_lt_is_Some_2 X (2 * i + 1)%nat ltac:(lia)) as [v2 E2].
    rewrite E1, E2.
    change (default 0 (Some v1)) with v1. change (default 0 (Some v2)) with v2.
    assert (H1 : 0 <= v1 <= 1).
    { apply Hrange.
      now apply list_elem_of_In, list_elem_of_lookup_2 with (2 * i)%nat. }
    assert (H2 : 0 <= v2 <= 1).
    { apply Hrange.
      now apply list_elem_of_In, list_elem_of_lookup_2 with (2 * i + 1)%nat. }
    destruct (round_unit_interval v1 (proj1 H1) (proj2 H1)) as [A1 B1].
    destruct (round_unit_interval v2 (proj1 H2) (proj2 H2)) as [A2 B2].
    unfold color_of.
    destruct (Qlt_le_dec v1 (1 # 2)) as [L1|L1];
      destruct (Qlt_le_dec v2 (1 # 2)) as [L2|L2];
      try rewrite (A1 L1); try rewrite (B1 L1);
      try rewrite (A2 L2); try rewrite (B2 L2); reflexivity.
Qed.

(** X3: decoding is a left inverse of the encoding of the colors
    0, 1, 2, 3 as two bits: [apply_solution] on the bits of a vector of
    such colors gives the vector back. *)
Theorem apply_solution_encode_colors (cols old : list Z) :
  Forall (fun c => (0 <= c <= 3)%Z) cols ->
  length old = length cols ->
  (N.of_nat (length cols) < 2147483648)%N ->
  apply_solution (encode_colors cols) old = Some cols.
Proof.
  intros Hrange Hlen Hsz.
  pose proof (encode_colors_length cols) as HX.
  destruct (apply_solution_from (encode_colors cols) (length old) 0 old)
    as (cols' & Hrun & Hl & Hin & _); [lia | lia | lia |].
  assert (E : cols' = cols).
  { apply list_eq. intros i.
    destruct (decide (i < length cols)%nat) as [Hi|Hi].
    - destruct (lookup_lt_is_Some_2 cols i Hi) as [c Hc].
      destruct (encode_colors_lookup cols i c Hc) as [H1 H2].
      rewrite Hin, H1, H2, Hc by lia. cbn [default from_option id].
      f_equal. apply color_of_bits.
      rewrite List.Forall_forall in Hrange. apply Hrange, list_elem_of_In.
      eapply list_elem_of_lookup_2; eauto.
    - rewrite !lookup_ge_None_2 by lia. reflexivity. }
  subst cols'. unfold apply_solution.
  rewrite u32_small by lia. now rewrite Nat2N.id.
Qed.

Lemma assignment_encode_colors (cols : list Z) (i : nat) (c : Z) :
  cols !! i = Some c ->
  assignment (encode_colors cols) (2 * N.of_nat i)%N = inject_Z (Z.shiftr c 1)
  /\ assignment (encode_colors cols) (2 * N.of_nat i + 1)%N
     = inject_Z (Z.land c 1).
Proof.
  intros Hc. destruct (encode_colors_lookup cols i c Hc) as [H1 H2].
  unfold assignment.
  replace (N.to_nat (2 * N.of_nat i)) with (2 * i)%nat by lia.
  replace (N.to_nat (2 * N.of_nat i + 1)) with (2 * i + 1)%nat by lia.
  now rewrite H1, H2.
Qed.

(** The constraints of the model: the cover constraints of an edge, or
    with three colors the constraint of a vertex. *)
Lemma color_bits_01 (c : Z) :
  (0 <= c <= 3)%Z ->
  (inject_Z (Z.shiftr c 1) == 0 \/ inject_Z (Z.shiftr c 1) == 1)
  /\ (inject_Z (Z.land c 1) == 0 \/ inject_Z (Z.land c 1) == 1).
Proof.
  intros H.
  assert (E : c = 0%Z \/ c = 1%Z \/ c = 2%Z \/ c = 3%Z) by lia.
  destruct E as [->|[->|[->| ->]]]; cbn; split; (left; reflexivity)
    || (right; reflexivity).
Qed.

Lemma color_bits_inj (c d : Z) :
  (0 <= c <= 3)%Z -> (0 <= d <= 3)%Z ->
  inject_Z (Z.shiftr c 1) == inject_Z (Z.shiftr d 1) ->
  inject_Z (Z.land c 1) == inject_Z (Z.land d 1) -> c = d.
Proof.
  intros Hc Hd H1 H2.
  assert (E : c = 0%Z \/ c = 1%Z \/ c = 2%Z \/ c = 3%Z) by lia.
  assert (F : d = 0%Z \/ d = 1%Z \/ d = 2%Z \/ d = 3%Z) by lia.
  destruct E as [->|[->|[->| ->]]], F as [->|[->|[->| ->]]];
    try reflexivity; vm_compute in H1, H2; discriminate.
Qed.

(** X4: the model does not cut off a proper coloring. When every vertex
    has a color in {0,1,2,3} (in {0,1,2} with three colors) and the end
    points of every edge have different colors, the bits of the colors are
    within the bounds [0,1] and satisfy every constraint of the model. *)
Theorem proper_coloring_is_feasible (g : graph_type)
  (color_num : ColorNumType) (cols : list Z) :
  wf_graph g -> length cols = num_vertices g ->
  Forall (fun c => (0 <= c <= 3)%Z) cols ->
  (color_num = THREE -> Forall (fun c => (c <= 2)%Z) cols) ->
  (forall e, e ∈ edges g -> cols !! source e <> cols !! target e) ->
  Forall (fun x => 0 <= x <= 1) (encode_colors cols)
  /\ Forall (satisfied (assignment (encode_colors cols)))
            (constrs (set_optimize_model g color_num)).
Proof.
  intros [Hn Hedges] Hlen Hrange Hthree Hproper.
  change (2 ^ 31)%N with 2147483648%N in Hn.
  rewrite List.Forall_forall in Hrange, Hedges.
  assert (Hr : forall i c, cols !! i = Some c -> (0 <= c <= 3)%Z).
  { intros i c Hc. apply Hrange, list_elem_of_In.
    eapply list_elem_of_lookup_2; eauto. }
  split.
  - unfold encode_colors. apply List.Forall_forall. intros x Hx.
    apply in_flat_map in Hx. destruct Hx as (c & Hc & Hx).
    specialize (Hrange c Hc).
    assert (E : c = 0%Z \/ c = 1%Z \/ c = 2%Z \/ c = 3%Z) by lia.
    destruct E as [->|[->|[->| ->]]];
      cbn in Hx; destruct Hx as [<-|[<-|[]]]; vm_compute;
      split; discriminate.
  - apply List.Forall_forall. intros c Hc. apply list_elem_of_In in Hc.
    destruct (constrs_of_model g color_num c Hn Hc)
      as [(e & He & Hce)|(-> & i & Hi & ->)].
    + destruct (Hedges e ltac:(now apply list_elem_of_In)) as [Hs Ht].
      destruct (lookup_lt_is_Some_2 cols (source e)) as [cs Hcs]; [lia|].
      destruct (lookup_lt_is_Some_2 cols (target e)) as [ct Hct]; [lia|].
      destruct (bitIdx_small (source e) ltac:(lia)) as [Es1 Es2].
      destruct (bitIdx_small (target e) ltac:(lia)) as [Et1 Et2].
      destruct (assignment_encode_colors cols _ _ Hcs) as [As1 As2].
      destruct (assignment_encode_colors cols _ _ Hct) as [At1 At2].
      destruct (color_bits_01 cs (Hr _ _ Hcs)) as [Bs1 Bs2].
      destruct (color_bits_01 ct (Hr _ _ Hct)) as [Bt1 Bt2].
      pose proof (edge_cover_sat_iff_differ e (assignment (encode_colors cols)))
        as Hiff.
      cbv zeta in Hiff. rewrite Es2, Et2, Es1, Et1, As1, As2, At1, At2 in Hiff.
      specialize (Hiff Bs1 Bs2 Bt1 Bt2).
      assert (Hall : Forall (satisfied (assignment (encode_colors cols)))
                            (edge_cover_constraints e)).
      { apply Hiff. intros [E1 E2]. apply (Hproper e He).
        rewrite Hcs, Hct. f_equal.
        apply color_bits_inj; eauto. }
      rewrite List.Forall_forall in Hall. now apply Hall, list_elem_of_In.
    + destruct (lookup_lt_is_Some_2 cols i) as [ci Hci]; [lia|].
      destruct (assignment_encode_colors cols _ _ Hci) as [A1 A2].
      unfold satisfied. simpl. autorewrite with lin_eval. rewrite A1, A2.
      specialize (Hthree eq_refl). rewrite List.Forall_forall in Hthree.
      assert (ci <= 2)%Z.
      { apply Hthree, list_elem_of_In. eapply list_elem_of_lookup_2; eauto. }
      pose proof (Hr _ _ Hci).
      assert (E : ci = 0%Z \/ ci = 1%Z \/ ci = 2%Z) by lia.
      destruct E as [->|[->| ->]]; vm_compute; discriminate.
Qed.

(** ** The anchor *)

Lemma max_degree_vertex_prefix (g : graph_type) (k : nat) :
  let acc := fold_left (fun (acc : nat * N) vi =>
                          let d := degree vi g in
                          if (acc.2 <? d)%N then (vi, d) else acc)
                       (seq 0 k) (0%nat, 0%N) in
  (k = 0%nat /\ acc = (0%nat, 0%N))
  \/ ((acc.1 < k)%nat /\ acc.2 = degree acc.1 g
      /\ (forall v, (v < k)%nat -> (degree v g <= acc.2)%N)
      /\ (forall v, (v < acc.1)%nat -> (degree v g < acc.2)%N)).
Proof.
  induction k as [|k IH]; [left; split; reflexivity|].
  rewrite seq_S, fold_left_app. cbn [fold_left Nat.add].
  set (acc := fold_left _ (seq 0 k) (0%nat, 0%N)) in *. cbv zeta in IH |- *.
  right. destruct (N.ltb_spec acc.2 (degree k g)) as [Hlt|Hge]; cbn [fst snd].
  - split; [lia|]. split; [reflexivity|].
    destruct IH as [[-> E]|(Hu & Hd & Hmax & Hfirst)].
    + split; intros v Hv; [|lia]. assert (v = 0%nat) as -> by lia. lia.
    + split; intros v Hv.
      * destruct (decide (v = k)) as [->|Hne]; [lia|].
        specialize (Hmax v ltac:(lia)). lia.
      * specialize (Hmax v Hv). lia.
  - destruct IH as [[-> E]|(Hu & Hd & Hmax & Hfirst)].
    + rewrite E in Hge |- *. cbn [fst snd] in Hge |- *.
      split; [lia|]. split; [lia|].
      split; intros v Hv; [|lia].
      assert (v = 0%nat) as -> by lia. lia.
    + split; [lia|]. split; [exact Hd|]. split; [|exact Hfirst].
      intros v Hv. destruct (decide (v = k)) as [->|Hne]; [lia|].
      apply Hmax. lia.
Qed.

(** X5: [max_degree_vertex] returns a vertex of largest degree, and the
    first one of them: no vertex has a larger degree and every vertex
    before it has a smaller one. On a graph without vertices it returns
    0, which is no vertex. *)
Theorem max_degree_vertex_first_maximum (g : graph_type) :
  (num_vertices g = 0%nat -> max_degree_vertex g = 0%nat)
  /\ ((0 < num_vertices g)%nat ->
      (max_degree_vertex g < num_vertices g)%nat
      /\ (forall v, (v < num_vertices g)%nat ->
            (degree v g <= degree (max_degree_vertex g) g)%N)
      /\ (forall v, (v < max_degree_vertex g)%nat ->
            (degree v g < degree (max_degree_vertex g) g)%N)).
Proof.
  pose proof (max_degree_vertex_prefix g (num_vertices g)) as H.
  cbv zeta in H. unfold max_degree_vertex.
  set (acc := fold_left _ (seq 0 (num_vertices g)) (0%nat, 0%N)) in *.
  split.
  - intros Hn. destruct H as [[_ ->]|(Hu & _)]; [reflexivity|].
    cbn [fst] in *. lia.
  - intros Hn. destruct H as [[E _]|(Hu & Hd & Hmax & Hfirst)]; [lia|].
    cbn [fst]. rewrite <- Hd. auto.
Qed.

Lemma setUB_Some (bs : list (Q * Q)) (v : GRBVar) (x : Q) (b : Q * Q) :
  bs !! N.to_nat v = Some b ->
  setUB bs v x = Some (<[N.to_nat v := (b.1, x)]> bs).
Proof. intros H. unfold setUB. now rewrite H. Qed.

Lemma setLB_Some (bs : list (Q * Q)) (v : GRBVar) (x : Q) (b : Q * Q) :
  bs !! N.to_nat v = Some b ->
  setLB bs v x = Some (<[N.to_nat v := (x, b.2)]> bs).
Proof. intros H. unfold setLB. now rewrite H. Qed.

Lemma setUB_None (bs : list (Q * Q)) (v : GRBVar) (x : Q) :
  (length bs <= N.to_nat v)%nat -> setUB bs v x = None.
Proof. intros H. unfold setUB. now rewrite lookup_ge_None_2. Qed.

(** The four calls of [set] on a pair of variables. *)
Lemma fix_pair (bs : list (Q * Q)) (v1 v2 : GRBVar) (x1 x2 : Q) :
  (N.to_nat v1 < length bs)%nat -> (N.to_nat v2 < length bs)%nat ->
  (bs ← setUB bs v1 x1; bs ← setLB bs v1 x1;
   bs ← setUB bs v2 x2; setLB bs v2 x2)
  = Some (<[N.to_nat v2 := (x2, x2)]> (<[N.to_nat v1 := (x1, x1)]> bs)).
Proof.
  intros H1 H2.
  destruct (lookup_lt_is_Some_2 bs (N.to_nat v1) H1) as [b Hb].
  rewrite (setUB_Some bs v1 x1 b Hb). cbn [mbind option_bind].
  rewrite (setLB_Some _ v1 x1 (b.1, x1))
    by (now apply list_lookup_insert_eq).
  cbn [mbind option_bind fst snd]. rewrite list_insert_insert_eq.
  destruct (lookup_lt_is_Some_2 (<[N.to_nat v1 := (x1, x1)]> bs) (N.to_nat v2))
    as [b' Hb']; [now rewrite length_insert|].
  rewrite (setUB_Some _ v2 x2 b' Hb'). cbn [mbind option_bind].
  rewrite (setLB_Some _ v2 x2 (b'.1, x2))
    by (apply list_lookup_insert_eq; now rewrite length_insert).
  cbn [fst snd]. now rewrite list_insert_insert_eq.
Qed.

Lemma set_anchor_spec (g : graph_type) (bs : list (Q * Q)) :
  (0 < num_vertices g)%nat ->
  (N.of_nat (num_vertices g) < 2147483648)%N ->
  (2 * num_vertices g <= length bs)%nat ->
  (max_degree_vertex g < num_vertices g)%nat
  /\ set_anchor false g bs
     = Some (<[(2 * max_degree_vertex g + 1)%nat := (0, 0)]>
               (<[(2 * max_degree_vertex g)%nat := (0, 0)]> bs)).
Proof.
  intros Hpos Hn Hlen.
  assert (Hu : (max_degree_vertex g < num_vertices g)%nat).
  { pose proof (max_degree_vertex_prefix g (num_vertices g)) as H.
    cbv zeta in H. destruct H as [[E _]|(Hu & _)]; [lia|exact Hu]. }
  split; [exact Hu|].
  destruct (bitIdx_small (max_degree_vertex g) ltac:(lia)) as [E1 E2].
  unfold set_anchor. cbv zeta. rewrite E2, E1.
  rewrite fix_pair by lia.
  replace (N.to_nat (2 * N.of_nat (max_degree_vertex g)))
    with (2 * max_degree_vertex g)%nat by lia.
  replace (N.to_nat (2 * N.of_nat (max_degree_vertex g) + 1))
    with (2 * max_degree_vertex g + 1)%nat by lia.
  reflexivity.
Qed.

(** X6: with a precolored vertex [set_anchor] changes nothing. Without
    one, and with a vertex in the graph, it fixes both bits of the first
    vertex of largest degree at 0 (lower and upper bound) and leaves every
    other bound as it is; on a model without variables it reads outside
    of the vector of the color bits. *)
Theorem set_anchor_fixes_max_degree_vertex (g : graph_type)
  (bs : list (Q * Q)) :
  set_anchor true g bs = Some bs
  /\ (bs = [] -> set_anchor false g bs = None)
  /\ ((0 < num_vertices g)%nat ->
      (N.of_nat (num_vertices g) < 2147483648)%N ->
      (2 * num_vertices g <= length bs)%nat ->
      exists bs',
        set_anchor false g bs = Some bs'
        /\ length bs' = length bs
        /\ bs' !! (2 * max_degree_vertex g)%nat = Some (0, 0)
        /\ bs' !! (2 * max_degree_vertex g + 1)%nat = Some (0, 0)
        /\ forall k, k <> (2 * max_degree_vertex g)%nat ->
                     k <> (2 * max_degree_vertex g + 1)%nat ->
                     bs' !! k = bs !! k).
Proof.
  split; [reflexivity|]. split.
  - intros ->. unfold set_anchor. now rewrite setUB_None by (simpl; lia).
  - intros Hpos Hn Hlen.
    destruct (set_anchor_spec g bs Hpos Hn Hlen) as [Hu ->].
    eexists. split; [reflexivity|].
    split; [now rewrite !length_insert|].
    split; [|split].
    + rewrite list_lookup_insert_ne by lia.
      apply list_lookup_insert_eq. lia.
    + apply list_lookup_insert_eq. rewrite length_insert. lia.
    + intros k K1 K2. now rewrite !list_lookup_insert_ne by lia.
Qed.

Lemma half_point_pair (anchor : option nat) (i : nat) :
  half_point anchor (2 * N.of_nat i)%N
  = half_point anchor (2 * N.of_nat i + 1)%N
  /\ (half_point anchor (2 * N.of_nat i)%N = 0
      \/ half_point anchor (2 * N.of_nat i)%N = 1 # 2)
  /\ (anchor <> Some i -> half_point anchor (2 * N.of_nat i)%N = 1 # 2).
Proof.
  unfold half_point. destruct anchor as [u|].
  2:{ split; [reflexivity|]. split; [right; reflexivity|reflexivity]. }
  assert (E1 : N.div2 (2 * N.of_nat i) = N.of_nat i).
  { rewrite N.div2_div, N.mul_comm. apply N.div_mul. lia. }
  assert (E2 : N.div2 (2 * N.of_nat i + 1) = N.of_nat i).
  { rewrite N.div2_div.
    replace (2 * N.of_nat i + 1)%N with (1 + N.of_nat i * 2)%N by lia.
    rewrite N.div_add by lia. change (1 / 2)%N with 0%N. lia. }
  rewrite E1, E2.
  destruct (decide (N.of_nat i = N.of_nat u)) as [E|E].
  - split; [reflexivity|]. split; [left; reflexivity|].
    intros H. exfalso. apply H. f_equal. lia.
  - split; [reflexivity|]. split; [right; reflexivity|reflexivity].
Qed.

(** X7: the model that [coloring] hands to the first call of the engine
    is feasible, so that the assertion that follows the call cannot fail
    with an engine that is right. On a graph without self-loops (and with
    a vertex when no vertex is precolored) [set_anchor] is defined, and the
    point with both bits of the anchor at 0 and every other variable at
    0.5 is within all the bounds and satisfies all the constraints. *)
Theorem initial_model_is_feasible (g : graph_type) (color_num : ColorNumType)
  (has_precolored : bool) :
  wf_graph g -> no_self_loop g ->
  (has_precolored = false -> (0 < num_vertices g)%nat) ->
  exists bs,
    set_anchor has_precolored g (bounds (set_optimize_model g color_num))
    = Some bs
    /\ (forall k b, bs !! k = Some b ->
          b.1 <= half_point (anchor_of has_precolored g) (N.of_nat k) <= b.2)
    /\ Forall (satisfied (half_point (anchor_of has_precolored g)))
              (constrs (set_optimize_model g color_num)).
Proof.
  intros Hwf Hno Hpos.
  assert (Hn : (N.of_nat (num_vertices g) < 2147483648)%N) by apply Hwf.
  destruct Hwf as [_ Hedges].
  rewrite List.Forall_forall in Hedges.
  unfold no_self_loop in Hno. rewrite List.Forall_forall in Hno.
  set (a := half_point (anchor_of has_precolored g)).
  assert (Hsat : Forall (satisfied a) (constrs (set_optimize_model g color_num))).
  { apply List.Forall_forall. intros c Hc. apply list_elem_of_In in Hc.
    destruct (constrs_of_model g color_num c Hn Hc)
      as [(e & He & Hce)|(-> & i & Hi & ->)].
    - apply list_elem_of_In in He.
      destruct (Hedges e He) as [Hs Ht]. specialize (Hno e He).
      destruct (bitIdx_small (source e) ltac:(lia)) as [Es1 Es2].
      destruct (bitIdx_small (target e) ltac:(lia)) as [Et1 Et2].
      destruct (half_point_pair (anchor_of has_precolored g) (source e))
        as (Ps & Vs & Ns).
      destruct (half_point_pair (anchor_of has_precolored g) (target e))
        as (Pt & Vt & Nt).
      assert (Hall : Forall (satisfied a) (edge_cover_constraints e)).
      { apply edge_cover_sat. rewrite Es2, Et2, Es1, Et1.
        subst a. rewrite <- Ps, <- Pt.
        destruct (decide (anchor_of has_precolored g = Some (source e)))
          as [E|E].
        - rewrite (Nt ltac:(congruence)).
          destruct Vs as [-> | ->]; repeat split; lra.
        - rewrite (Ns E). destruct Vt as [-> | ->]; repeat split; lra. }
      rewrite List.Forall_forall in Hall. now apply Hall, list_elem_of_In.
    - destruct (half_point_pair (anchor_of has_precolored g) i) as (P & V & _).
      unfold satisfied. simpl. autorewrite with lin_eval.
      subst a. rewrite <- P. destruct V as [-> | ->]; lra. }
  assert (Hrep : forall k b,
             bounds (set_optimize_model g color_num) !! k = Some b ->
             b = (0, 1)).
  { intros k b Hb. unfold set_optimize_model in Hb. cbn [bounds] in Hb.
    apply lookup_replicate in Hb. tauto. }
  assert (Ha01 : forall v, a v = 0 \/ a v = 1 # 2).
  { intros v. subst a. unfold half_point.
    destruct (anchor_of has_precolored g); [|right; reflexivity].
    destruct (decide _); [left|right]; reflexivity. }
  destruct has_precolored.
  - exists (bounds (set_optimize_model g color_num)).
    split; [reflexivity|]. split; [|exact Hsat].
    intros k b Hb. rewrite (Hrep k b Hb). cbn [fst snd].
    destruct (Ha01 (N.of_nat k)) as [-> | ->]; lra.
  - specialize (Hpos eq_refl).
    destruct (set_anchor_spec g (bounds (set_optimize_model g color_num))
                              Hpos Hn) as [Hu ->].
    { unfold set_optimize_model. cbn [bounds]. rewrite length_replicate.
      rewrite (u32_small (N.of_nat (num_vertices g))) by lia.
      rewrite shiftl1_double, u32_small by lia. lia. }
    eexists. split; [reflexivity|]. split; [|exact Hsat].
    intros k b Hb.
    destruct (half_point_pair (Some (max_degree_vertex g)) (max_degree_vertex g))
      as (P & _ & _).
    assert (Z0 : half_point (Some (max_degree_vertex g))
                            (2 * N.of_nat (max_degree_vertex g))%N = 0).
    { unfold half_point.
      destruct (decide _) as [|E]; [reflexivity|]. exfalso. apply E.
      rewrite N.div2_div, N.mul_comm. apply N.div_mul. lia. }
    assert (Hk := lookup_lt_Some _ _ _ Hb).
    rewrite !length_insert in Hk.
    destruct (decide (k = (2 * max_degree_vertex g + 1)%nat)) as [->|K2].
    + rewrite list_lookup_insert_eq in Hb by (rewrite length_insert; exact Hk).
      injection Hb as <-. subst a. unfold anchor_of.
      replace (N.of_nat (2 * max_degree_vertex g + 1))
        with (2 * N.of_nat (max_degree_vertex g) + 1)%N by lia.
      rewrite <- P, Z0. cbn. lra.
    + rewrite list_lookup_insert_ne in Hb by lia.
      destruct (decide (k = (2 * max_degree_vertex g)%nat)) as [->|K1].
      * rewrite list_lookup_insert_eq in Hb by exact Hk.
        injection Hb as <-. subst a. unfold anchor_of.
        replace (N.of_nat (2 * max_degree_vertex g))
          with (2 * N.of_nat (max_degree_vertex g))%N by lia.
        rewrite Z0. cbn. lra.
      * rewrite list_lookup_insert_ne in Hb by lia.
        rewrite (Hrep k b Hb). cbn [fst snd].
        destruct (Ha01 (N.of_nat k)) as [-> | ->]; lra.
Qed.

(** ** The census of the non-integer values *)

Lemma non_integer_num_of_acc (l : list Q) (acc : N * N) :
  (acc.2 <= acc.1)%N ->
  (acc.1 + N.of_nat (length l) < 2 ^ 32)%N ->
  fold_left (fun (acc : N * N) value =>
               if negb (Qeq_bool value 0) && negb (Qeq_bool value 1) then
                 (u32 (acc.1 + 1),
                  if Qeq_bool value (1 # 2) then u32 (acc.2 + 1) else acc.2)
               else acc) l acc
  = ((acc.1 + N.of_nat (length (List.filter
        (fun v => negb (Qeq_bool v 0) && negb (Qeq_bool v 1)) l)))%N,
     (acc.2 + N.of_nat (length (List.filter
        (fun v => Qeq_bool v (1 # 2)) l)))%N).
Proof.
  revert acc. induction l as [|x l IH]; intros [a b] Hab Hlen.
  - cbn. f_equal; lia.
  - cbn [fold_left List.filter length fst snd] in *.
    assert (Hhalf : Qeq_bool x (1 # 2) = true ->
                    negb (Qeq_bool x 0) && negb (Qeq_bool x 1) = true).
    { intros E. apply Qeq_bool_iff in E.
      destruct (Qeq_bool x 0) eqn:E0.
      { apply Qeq_bool_iff in E0. rewrite E in E0. discriminate E0. }
      destruct (Qeq_bool x 1) eqn:E1; [|reflexivity].
      apply Qeq_bool_iff in E1. rewrite E in E1. discriminate E1. }
    destruct (negb (Qeq_bool x 0) && negb (Qeq_bool x 1)) eqn:F.
    + rewrite (u32_small (a + 1)) by lia.
      destruct (Qeq_bool x (1 # 2)) eqn:H2.
      * rewrite (u32_small (b + 1)) by lia.
        rewrite IH by (cbn [fst snd]; lia).
        cbn [fst snd length]. f_equal; lia.
      * rewrite IH by (cbn [fst snd]; lia).
        cbn [fst snd length]. f_equal; lia.
    + destruct (Qeq_bool x (1 # 2)) eqn:H2.
      { specialize (Hhalf eq_refl). discriminate Hhalf. }
      rewrite IH by (cbn [fst snd]; lia). reflexivity.
Qed.


Lemma no_fractional_iff (l : list Q) :
  N.of_nat (length (List.filter
      (fun v => negb (Qeq_bool v 0) && negb (Qeq_bool v 1)) l)) = 0%N
  <-> Forall (fun v => v == 0 \/ v == 1) l.
Proof.
  induction l as [|x l IH].
  - cbn. split; [constructor|reflexivity].
  - cbn [List.filter].
    destruct (Qeq_bool x 0) eqn:E0.
    + cbn [negb andb]. rewrite IH. apply Qeq_bool_iff in E0. split.
      * intros H. constructor; [now left|exact H].
      * intros H. now inversion H.
    + destruct (Qeq_bool x 1) eqn:E1.
      * cbn [negb andb]. rewrite IH. apply Qeq_bool_iff in E1. split.
        -- intros H. constructor; [now right|exact H].
        -- intros H. now inversion H.
      * cbn [negb andb length]. split; [lia|].
        intros H. inversion H as [|? ? [E|E] _]; subst;
          apply Qeq_bool_iff in E; congruence.
Qed.



(** ** The edge terms of the objective *)

Lemma adjust_edge_bit_eval (a : GRBVar -> Q) (bitIdxS bitIdxT : N)
  (obj : GRBLinExpr) :
  eval a (adjust_edge_bit bitIdxS bitIdxT (a bitIdxS) (a bitIdxT) obj)
  == eval a obj - Qabs (a bitIdxS - a bitIdxT).
Proof.
  unfold adjust_edge_bit.
  destruct (Qlt_bool (a bitIdxT) (a bitIdxS)) eqn:E1.
  - apply Qlt_bool_iff in E1. autorewrite with lin_eval.
    rewrite Qabs_pos by lra. lra.
  - apply Qlt_bool_false_iff in E1.
    destruct (Qlt_bool (a bitIdxS) (a bitIdxT)) eqn:E2.
    + apply Qlt_bool_iff in E2. autorewrite with lin_eval.
      rewrite Qabs_neg by lra. lra.
    + apply Qlt_bool_false_iff in E2.
      rewrite Qabs_pos by lra. lra.
Qed.

Lemma getX_assignment (X : list Q) (k : N) :
  (N.to_nat k < length X)%nat -> getX X k = Some (assignment X k).
Proof.
  intros H. unfold getX, assignment.
  destruct (lookup_lt_is_Some_2 X (N.to_nat k) H) as [v ->]. reflexivity.
Qed.

Lemma adjust_edges_from (n : nat) (X : list Q) (l : list graph_edge_type)
  (obj : GRBLinExpr) :
  (N.of_nat n < 2147483648)%N ->
  length X = (2 * n)%nat ->
  Forall (fun e => (source e < n)%nat /\ (target e < n)%nat) l ->
  exists obj',
    for_each
      (fun e obj =>
         for_each
           (fun i obj =>
              let bitIdxS := u32 (bitIdx (source e) + i) in
              let bitIdxT := u32 (bitIdx (target e) + i) in
              value1 ← getX X bitIdxS;
              value2 ← getX X bitIdxT;
              Some (adjust_edge_bit bitIdxS bitIdxT value1 value2 obj))
           [0%N; 1%N] obj)
      l obj = Some obj'
    /\ eval (assignment X) obj'
       == eval (assignment X) obj - total_bit_distance X l.
Proof.
  intros Hn Hlen Hl. revert obj.
  induction Hl as [|e l [Hs Ht] _ IH]; intros obj.
  - exists obj. split; [reflexivity|]. cbn. lra.
  - cbn [for_each]. cbv zeta.
    destruct (bitIdx_small (source e) ltac:(lia)) as [Es1 Es2].
    destruct (bitIdx_small (target e) ltac:(lia)) as [Et1 Et2].
    rewrite !N.add_0_r, Es2, Et2, Es1, Et1.
    rewrite (u32_small (2 * N.of_nat (source e))) by lia.
    rewrite (u32_small (2 * N.of_nat (target e))) by lia.
    rewrite !getX_assignment by lia.
    cbn [mbind option_bind].
    destruct (IH (adjust_edge_bit (2 * N.of_nat (source e) + 1)
                    (2 * N.of_nat (target e) + 1)
                    (assignment X (2 * N.of_nat (source e) + 1))
                    (assignment X (2 * N.of_nat (target e) + 1))
                    (adjust_edge_bit (2 * N.of_nat (source e))
                       (2 * N.of_nat (target e))
                       (assignment X (2 * N.of_nat (source e)))
                       (assignment X (2 * N.of_nat (target e))) obj)))
      as (obj' & Hrun & Hval).
    exists obj'. split; [exact Hrun|].
    rewrite Hval, !adjust_edge_bit_eval.
    change (total_bit_distance X (e :: l))
      with (bit_distance X e + total_bit_distance X l).
    unfold bit_distance. lra.
Qed.

(** X9: the terms that [adjust_conflict_edge_vertices_in_objective] adds
    to the objective are worth, at the solution they are computed from,
    minus the distance between the bit values of the end points, summed
    over the edges: the value of the objective at that solution never
    goes up. *)
Theorem adjust_conflict_edge_vertices_in_objective_value (g : graph_type)
  (X : list Q) (obj : GRBLinExpr) :
  wf_graph g -> length X = (2 * num_vertices g)%nat ->
  exists obj',
    adjust_conflict_edge_vertices_in_objective g X obj = Some obj'
    /\ eval (assignment X) obj'
       == eval (assignment X) obj - total_bit_distance X (edges g)
    /\ eval (assignment X) obj' <= eval (assignment X) obj.
Proof.
  intros [Hn Hedges] Hlen.
  destruct (adjust_edges_from (num_vertices g) X (edges g) obj Hn Hlen Hedges)
    as (obj' & Hrun & Hval).
  exists obj'. split; [exact Hrun|]. split; [exact Hval|].
  rewrite Hval.
  assert (0 <= total_bit_distance X (edges g)); [|lra].
  clear. induction (edges g) as [|e l IH]; [cbn; lra|].
  change (total_bit_distance X (e :: l))
    with (bit_distance X e + total_bit_distance X l).
  unfold bit_distance.
  pose proof (Qabs_nonneg (assignment X (2 * N.of_nat (source e))
                           - assignment X (2 * N.of_nat (target e)))).
  pose proof (Qabs_nonneg (assignment X (2 * N.of_nat (source e) + 1)
                           - assignment X (2 * N.of_nat (target e) + 1))).
  lra.
Qed.

(** ** The greedy refinement of an edge *)

Lemma read_valid_row0 (r0 r1 : list bool) (c : Z) :
  (0 <= c)%Z -> read_valid [r0; r1] 0 c = r0 !! Z.to_nat c.
Proof.
  intros H. unfold read_valid.
  destruct (decide _) as [_|N]; [reflexivity|lia].
Qed.

Lemma clear_valid_row0 (r0 r1 : list bool) (c : Z) :
  (0 <= c)%Z -> (Z.to_nat c < length r0)%nat ->
  clear_valid [r0; r1] 0 c = Some [<[Z.to_nat c := false]> r0; r1].
Proof.
  intros H0 H1. unfold clear_valid.
  destruct (decide _) as [_|N]; [|lia].
  change ([r0; r1] !! Z.to_nat 0) with (Some r0).
  cbn [mbind option_bind].
  rewrite store_Some by exact H1. reflexivity.
Qed.

Lemma mark_loop (m_vColor : list Z) (ov : graph_vertex_type)
  (us : list graph_vertex_type) (r0 r1 : list bool) :
  length r0 = 4%nat ->
  (forall u, u ∈ us -> exists c, m_vColor !! u = Some c /\ (0 <= c < 4)%Z) ->
  exists r0',
    for_each (fun u m =>
                if decide (u ≠ ov) then
                  c ← m_vColor !! u; clear_valid m 0 c
                else Some m) us [r0; r1] = Some [r0'; r1]
    /\ length r0' = 4%nat
    /\ (forall k, r0 !! k = Some false -> r0' !! k = Some false)
    /\ (forall u c, u ∈ us -> u ≠ ov -> m_vColor !! u = Some c ->
        r0' !! Z.to_nat c = Some false).
Proof.
  revert r0. induction us as [|u us IH]; intros r0 Hlen Hus.
  - exists r0. split; [reflexivity|]. split; [exact Hlen|].
    split; [tauto|]. intros u c Hu. inversion Hu.
  - cbn [for_each].
    assert (Hus' : forall w, w ∈ us ->
               exists c, m_vColor !! w = Some c /\ (0 <= c < 4)%Z).
    { intros w Hw. apply Hus. now apply list_elem_of_further. }
    destruct (decide (u ≠ ov)) as [Hne|Heq].
    + destruct (Hus u (list_elem_of_here u us)) as (c & Hc & Hrange).
      rewrite Hc. cbn [mbind option_bind].
      rewrite clear_valid_row0 by lia. cbn [mbind option_bind].
      destruct (IH (<[Z.to_nat c := false]> r0)) as (r0' & Hrun & Hl & Hm & Hcov).
      { now rewrite length_insert. }
      { exact Hus'. }
      exists r0'. split; [exact Hrun|]. split; [exact Hl|].
      assert (Hstep : forall k, r0 !! k = Some false ->
                                <[Z.to_nat c := false]> r0 !! k = Some false).
      { intros k Hk. destruct (decide (k = Z.to_nat c)) as [->|Hkc].
        - apply list_lookup_insert_eq. lia.
        - now rewrite list_lookup_insert_ne by lia. }
      split; [intros k Hk; apply Hm, Hstep, Hk|].
      intros w cw Hw Hwne Hcw. apply elem_of_cons in Hw.
      destruct Hw as [->|Hw]; [|now apply (Hcov w cw)].
      assert (cw = c) as -> by congruence.
      apply Hm, list_lookup_insert_eq. lia.
    + cbn [mbind option_bind].
      destruct (IH r0 Hlen Hus') as (r0' & Hrun & Hl & Hm & Hcov).
      exists r0'. split; [exact Hrun|]. split; [exact Hl|].
      split; [exact Hm|].
      intros w cw Hw Hwne Hcw. apply elem_of_cons in Hw.
      destruct Hw as [->|Hw]; [|now apply (Hcov w cw)].
      exfalso. apply Heq, Hwne.
Qed.

Section RefineColor.

Variable g : graph_type.
Variable m_vColor : list Z.
Variables v0 v1 : graph_vertex_type.
Hypothesis Hwf : wf_graph g.
Hypothesis Hlen : length m_vColor = num_vertices g.
Hypothesis Hcolors : Forall (fun c => (0 <= c < 4)%Z) m_vColor.

(** A neighbour of one end point of the edge other than the opposite end
    point. *)
Let other_neighbor (u : graph_vertex_type) : Prop :=
  (u ∈ adjacent_vertices v0 g /\ u ≠ v1)
  \/ (u ∈ adjacent_vertices v1 g /\ u ≠ v0).

Lemma neighbor_color (cv u : graph_vertex_type) :
  u ∈ adjacent_vertices cv g ->
  exists c, m_vColor !! u = Some c /\ (0 <= c < 4)%Z.
Proof.
  intros Hu. apply (adjacent_vertices_bound g cv u Hwf) in Hu.
  destruct (lookup_lt_is_Some_2 m_vColor u ltac:(lia)) as [c Hc].
  exists c. split; [exact Hc|].
  rewrite List.Forall_forall in Hcolors. apply Hcolors.
  now apply list_elem_of_In, list_elem_of_lookup_2 with u.
Qed.

Lemma mark_neighbor_colors_spec (r0 r1 : list bool) :
  length r0 = 4%nat ->
  exists r0',
    mark_neighbor_colors g m_vColor v0 v1 [r0; r1] = Some [r0'; r1]
    /\ length r0' = 4%nat
    /\ (forall k, r0 !! k = Some false -> r0' !! k = Some false)
    /\ (forall u c, other_neighbor u -> m_vColor !! u = Some c ->
        r0' !! Z.to_nat c = Some false).
Proof.
  intros Hr0. unfold mark_neighbor_colors. cbn [for_each fst snd].
  destruct (mark_loop m_vColor v1 (adjacent_vertices v0 g) r0 r1 Hr0)
    as (ra & Hra & Hla & Hma & Hca).
  { intros u. apply neighbor_color. }
  rewrite Hra. cbn [mbind option_bind].
  destruct (mark_loop m_vColor v0 (adjacent_vertices v1 g) ra r1 Hla)
    as (rb & Hrb & Hlb & Hmb & Hcb).
  { intros u. apply neighbor_color. }
  rewrite Hrb. cbn [mbind option_bind].
  exists rb. split; [reflexivity|]. split; [exact Hlb|].
  split; [intros k Hk; apply Hmb, Hma, Hk|].
  intros u c [[Hu Hne]|[Hu Hne]] Hc.
  - apply Hmb. now apply (Hca u c).
  - now apply (Hcb u c).
Qed.

(** The first row of the table: either a pair [(0, c2)] is assigned, or
    the search goes on with the rest of the pairs. *)
Lemma search_color_pair_row0 (rinit r1 : list bool) (c2s : list Z)
  (rest : list (Z * Z)) (r0 : list bool) :
  Forall (fun c2 => (0 <= c2 < 4)%Z) c2s ->
  length r0 = 4%nat ->
  (forall k, rinit !! k = Some false -> r0 !! k = Some false) ->
  (exists c2,
     search_color_pair g m_vColor v0 v1
       (map (fun c2 => (0%Z, c2)) c2s ++ rest) [r0; r1]
     = Some (Some (0%Z, c2))
     /\ (0 < c2 < 4)%Z
     /\ rinit !! Z.to_nat c2 ≠ Some false
     /\ (forall u, other_neighbor u -> m_vColor !! u ≠ Some c2))
  \/ (exists r0',
        length r0' = 4%nat
        /\ (forall k, rinit !! k = Some false -> r0' !! k = Some false)
        /\ search_color_pair g m_vColor v0 v1
             (map (fun c2 => (0%Z, c2)) c2s ++ rest) [r0; r1]
           = search_color_pair g m_vColor v0 v1 rest [r0'; r1]).
Proof.
  intros Hc2s. revert r0.
  induction Hc2s as [|c2 c2s Hc2 _ IH]; intros r0 Hr0 Hmono.
  - right. exists r0. split; [exact Hr0|]. split; [exact Hmono|reflexivity].
  - cbn [map app search_color_pair].
    destruct (decide (0%Z ≠ c2)) as [Hne|Heq]; [|now apply IH].
    rewrite read_valid_row0 by lia.
    destruct (lookup_lt_is_Some_2 r0 (Z.to_nat c2) ltac:(lia)) as [ok Hok].
    rewrite Hok. cbn [mbind option_bind].
    destruct ok; [|now apply IH].
    destruct (mark_neighbor_colors_spec r0 r1 Hr0)
      as (r0' & Hmark & Hl' & Hm' & Hcov).
    rewrite Hmark. cbn [mbind option_bind].
    rewrite read_valid_row0 by lia.
    destruct (lookup_lt_is_Some_2 r0' (Z.to_nat c2) ltac:(lia)) as [ok' Hok'].
    rewrite Hok'. cbn [mbind option_bind].
    destruct ok'.
    + left. exists c2. split; [reflexivity|]. split; [lia|].
      split.
      * intros Hinit. apply Hmono, Hm' in Hinit. congruence.
      * intros u Hu Hc. apply (Hcov u c2 Hu) in Hc. congruence.
    + apply IH; [exact Hl'|]. intros k Hk. apply Hm', Hmono, Hk.
Qed.

Lemma search_color_pair_found (color_num : ColorNumType) :
  exists c1 c2,
    search_color_pair g m_vColor v0 v1 color_pairs
                      (init_valid_colors color_num) = Some (Some (c1, c2))
    /\ c1 ≠ c2
    /\ (0 <= c1 < 2)%Z
    /\ (0 <= c2 < match color_num with THREE => 3 | FOUR => 4 end)%Z
    /\ ((c1 = 0%Z /\ forall u, other_neighbor u -> m_vColor !! u ≠ Some c2)
        \/ (c1 = 1%Z /\ c2 = 0%Z)).
Proof.
  set (rinit := match color_num with
                | THREE => [true; true; true; false]
                | FOUR => [true; true; true; true]
                end).
  assert (Einit : init_valid_colors color_num = [rinit; rinit])
    by (destruct color_num; reflexivity).
  assert (Hrl : length rinit = 4%nat) by (destruct color_num; reflexivity).
  assert (Hr10 : rinit !! 0%nat = Some true)
    by (destruct color_num; reflexivity).
  rewrite Einit.
  change color_pairs
    with (map (fun c2 => (0%Z, c2)) [0; 1; 2; 3]%Z
          ++ (1, 0)%Z :: tl (drop 4 color_pairs)).
  destruct (search_color_pair_row0 rinit rinit [0; 1; 2; 3]%Z
              ((1, 0)%Z :: tl (drop 4 color_pairs)) rinit)
    as [(c2 & Hrun & Hc2 & Hinit & Hnb)|(r0' & Hl & _ & Hrun)].
  { repeat constructor; lia. }
  { exact Hrl. }
  { tauto. }
  - exists 0%Z, c2. split; [exact Hrun|]. split; [lia|]. split; [lia|].
    split; [|left; split; [reflexivity|exact Hnb]].
    destruct color_num; [|lia].
    assert (c2 ≠ 3%Z); [|lia]. intros ->. now apply Hinit.
  - exists 1%Z, 0%Z. split.
    + rewrite Hrun. cbn [search_color_pair].
      destruct (decide (1%Z ≠ 0%Z)) as [_|N]; [|lia].
      assert (Hread : forall r, read_valid [r; rinit] 1 0 = Some true).
      { intros r. unfold read_valid.
        destruct (decide _) as [_|N]; [|lia]. exact Hr10. }
      rewrite Hread. cbn [mbind option_bind].
      destruct (mark_neighbor_colors_spec r0' rinit Hl) as (rb & -> & _).
      cbn [mbind option_bind]. rewrite Hread. reflexivity.
    + split; [lia|]. split; [lia|]. split; [destruct color_num; lia|].
      right. split; reflexivity.
Qed.

End RefineColor.

(** X10: [refine_color] on an edge whose end points hold the same color,
    in a graph whose colors are all in 0..3. The call is defined and
    returns true: the final [return false] is not reached. Only the two
    end points are written; the source gets 0 or 1, the target a
    different color that is valid for the number of colors; and either
    the pair is (1,0), or the source gets 0 and the color of the target
    is held by no neighbour of an end point other than the opposite end
    point. *)
Theorem refine_color_same_color_edge (g : graph_type)
  (color_num : ColorNumType) (m_vColor : list Z) (e : graph_edge_type)
  (col : Z) :
  wf_graph g ->
  length m_vColor = num_vertices g ->
  Forall (fun c => (0 <= c < 4)%Z) m_vColor ->
  m_vColor !! source e = Some col ->
  m_vColor !! target e = Some col ->
  exists c1 c2,
    refine_color g color_num m_vColor e
    = Some (true, <[target e := c2]> (<[source e := c1]> m_vColor))
    /\ c1 ≠ c2
    /\ (0 <= c1 < 2)%Z
    /\ (0 <= c2 < match color_num with THREE => 3 | FOUR => 4 end)%Z
    /\ ((c1 = 0%Z
         /\ forall u,
              (u ∈ adjacent_vertices (source e) g /\ u ≠ target e)
              \/ (u ∈ adjacent_vertices (target e) g /\ u ≠ source e) ->
              m_vColor !! u ≠ Some c2)
        \/ (c1 = 1%Z /\ c2 = 0%Z)).
Proof.
  intros Hwf Hlen Hcolors Hs Ht.
  destruct (search_color_pair_found g m_vColor (source e) (target e)
              Hwf Hlen Hcolors color_num)
    as (c1 & c2 & Hrun & Hne & Hc1 & Hc2 & Hcase).
  exists c1, c2. split; [|tauto].
  unfold refine_color. cbv zeta. rewrite Hs, Ht. cbn [mbind option_bind].
  destruct (decide (col ≠ col)) as [N|_]; [congruence|].
  rewrite Hrun. cbn [mbind option_bind].
  apply lookup_lt_Some in Hs. apply lookup_lt_Some in Ht.
  rewrite store_Some by exact Hs. cbn [mbind option_bind].
  rewrite store_Some by (rewrite length_insert; exact Ht).
  reflexivity.
Qed.

(** ** The refinement of all the edges *)

Lemma refine_color_differ (g : graph_type) (color_num : ColorNumType)
  (m_vColor : list Z) (e : graph_edge_type) (col0 col1 : Z) :
  m_vColor !! source e = Some col0 -> m_vColor !! target e = Some col1 ->
  col0 ≠ col1 ->
  refine_color g color_num m_vColor e = Some (false, m_vColor).
Proof.
  intros H0 H1 Hne. unfold refine_color. cbv zeta. rewrite H0, H1.
  cbn [mbind option_bind].
  destruct (decide (col0 ≠ col1)) as [_|N]; [reflexivity|contradiction].
Qed.

Lemma refine_color_found (g : graph_type) (color_num : ColorNumType)
  (m_vColor : list Z) (e : graph_edge_type) (col c1 c2 : Z) :
  m_vColor !! source e = Some col -> m_vColor !! target e = Some col ->
  search_color_pair g m_vColor (source e) (target e) color_pairs
                    (init_valid_colors color_num) = Some (Some (c1, c2)) ->
  refine_color g color_num m_vColor e
  = Some (true, <[target e := c2]> (<[source e := c1]> m_vColor)).
Proof.
  intros H0 H1 Hrun. unfold refine_color. cbv zeta. rewrite H0, H1.
  cbn [mbind option_bind].
  destruct (decide (col ≠ col)) as [N|_]; [congruence|].
  rewrite Hrun. cbn [mbind option_bind].
  apply lookup_lt_Some in H0. apply lookup_lt_Some in H1.
  rewrite store_Some by exact H0. cbn [mbind option_bind].
  rewrite store_Some by (rewrite length_insert; exact H1).
  reflexivity.
Qed.

Lemma post_refinement_from (g : graph_type) (color_num : ColorNumType)
  (hi : Z) (l : list graph_edge_type) (count : N) (m_vColor : list Z) :
  wf_graph g ->
  (match color_num with THREE => 3 | FOUR => 4 end <= hi <= 4)%Z ->
  length m_vColor = num_vertices g ->
  Forall (fun c => (0 <= c < hi)%Z) m_vColor ->
  Forall (fun e => (source e < num_vertices g)%nat
                   /\ (target e < num_vertices g)%nat) l ->
  exists count' m_vColor',
    for_each (fun e (acc : N * list Z) =>
                r ← refine_color g color_num acc.2 e;
                Some (u32 (acc.1 + (if (r.1 : bool) then 1 else 0)), r.2))
             l (count, m_vColor) = Some (count', m_vColor')
    /\ length m_vColor' = num_vertices g
    /\ Forall (fun c => (0 <= c < hi)%Z) m_vColor'
    /\ (count' <= count + N.of_nat (length l))%N
    /\ (forall v, Forall (fun e => source e ≠ v /\ target e ≠ v) l ->
        m_vColor' !! v = m_vColor !! v).
Proof.
  intros Hwf Hhi Hlen Hcol Hl. revert count m_vColor Hlen Hcol.
  induction Hl as [|e l [Hs Ht] _ IH]; intros count m_vColor Hlen Hcol.
  - exists count, m_vColor. split; [reflexivity|]. split; [exact Hlen|].
    split; [exact Hcol|]. split; [cbn; lia|reflexivity].
  - cbn [for_each fst snd].
    destruct (lookup_lt_is_Some_2 m_vColor (source e) ltac:(lia)) as [col0 H0].
    destruct (lookup_lt_is_Some_2 m_vColor (target e) ltac:(lia)) as [col1 H1].
    destruct (decide (col0 = col1)) as [<-|Hne].
    + assert (Hcol4 : Forall (fun c => (0 <= c < 4)%Z) m_vColor).
      { eapply List.Forall_impl; [|exact Hcol]. cbn. intros c Hc. lia. }
      destruct (search_color_pair_found g m_vColor (source e) (target e)
                  Hwf Hlen Hcol4 color_num)
        as (c1 & c2 & Hrun & _ & Hc1 & Hc2 & _).
      rewrite (refine_color_found g color_num m_vColor e col0 c1 c2 H0 H1 Hrun).
      cbn [mbind option_bind fst snd].
      destruct (IH (u32 (count + 1))
                   (<[target e := c2]> (<[source e := c1]> m_vColor)))
        as (count' & cols' & Hrun' & Hl' & Hc' & Hcount & Hkeep).
      { now rewrite !length_insert. }
      { apply Forall_insert; [apply Forall_insert; [exact Hcol|]|].
        - destruct color_num; lia.
        - destruct color_num; lia. }
      exists count', cols'. split; [exact Hrun'|]. split; [exact Hl'|].
      split; [exact Hc'|]. split.
      * pose proof (u32_le (count + 1)). cbn [length]. lia.
      * intros v Hv. inversion Hv as [|? ? [Hvs Hvt] Hv']; subst.
        rewrite (Hkeep v Hv').
        now rewrite !list_lookup_insert_ne by congruence.
    + rewrite (refine_color_differ g color_num m_vColor e col0 col1 H0 H1 Hne).
      cbn [mbind option_bind fst snd]. rewrite N.add_0_r.
      destruct (IH (u32 count) m_vColor Hlen Hcol)
        as (count' & cols' & Hrun' & Hl' & Hc' & Hcount & Hkeep).
      exists count', cols'. split; [exact Hrun'|]. split; [exact Hl'|].
      split; [exact Hc'|]. split.
      * pose proof (u32_le count). cbn [length]. lia.
      * intros v Hv. inversion Hv; subst. now apply Hkeep.
Qed.

(** X11: [post_refinement] on colors that are valid for the number of
    colors is defined and leaves colors that are valid for the number of
    colors, as many as before; the count it returns is at most the
    number of edges; the color of a vertex that is on no edge is not
    changed; and with a precolored vertex nothing is changed and the
    count is zero. *)
Theorem post_refinement_keeps_valid_colors (has_precolored : bool)
  (g : graph_type) (color_num : ColorNumType) (m_vColor : list Z) :
  wf_graph g ->
  length m_vColor = num_vertices g ->
  Forall (fun c => (0 <= c < match color_num with THREE => 3 | FOUR => 4 end)%Z)
         m_vColor ->
  exists count m_vColor',
    post_refinement has_precolored g color_num m_vColor
    = Some (count, m_vColor')
    /\ length m_vColor' = length m_vColor
    /\ Forall (fun c => (0 <= c < match color_num with
                                  | THREE => 3 | FOUR => 4 end)%Z) m_vColor'
    /\ (count <= N.of_nat (length (edges g)))%N
    /\ (forall v, Forall (fun e => source e ≠ v /\ target e ≠ v) (edges g) ->
        m_vColor' !! v = m_vColor !! v)
    /\ (has_precolored = true -> count = 0%N /\ m_vColor' = m_vColor).
Proof.
  intros Hwf Hlen Hcol. unfold post_refinement. destruct has_precolored.
  - exists 0%N, m_vColor. split; [reflexivity|]. split; [reflexivity|].
    split; [exact Hcol|]. split; [lia|]. split; [reflexivity|].
    intros _. split; reflexivity.
  - destruct (post_refinement_from g color_num
                (match color_num with THREE => 3 | FOUR => 4 end)%Z
                (edges g) 0 m_vColor Hwf ltac:(destruct color_num; lia)
                Hlen Hcol (proj2 Hwf))
      as (count & cols' & Hrun & Hl & Hc & Hcount & Hkeep).
    exists count, cols'. split; [exact Hrun|]. split; [congruence|].
    split; [exact Hc|]. split; [lia|]. split; [exact Hkeep|].
    intros N. discriminate N.
Qed.

(** ** The scan of the binding constraints and the bounds it writes *)

(** X12: a scan of a pair of variables that ends without [failFlag] has
    gone through both columns, and the candidates that it leaves valid are
    those that were valid at the start (all of them, but (1,1) with three
    colors) and that no binding constraint of the two columns fails. *)
Theorem scan_pair_valid_candidates (color_num : ColorNumType)
  (optModel : list GRBConstr) (var1 var2 : GRBVar) (value1 value2 : Q)
  (b1 b2 : nat) :
  (b1 <= 1)%nat -> (b2 <= 1)%nat ->
  failFlag (scan_pair color_num optModel var1 var2 value1 value2) = false ->
  (get_valid (mValidColorBits
                (scan_pair color_num optModel var1 var2 value1 value2)) b1 b2
   = true
   <-> (color_num = THREE -> (b1, b2) ≠ (1, 1)%nat)
       /\ forall constr,
            constr ∈ getCol optModel var1 ++ getCol optModel var2 ->
            Slack constr == 0 ->
            fails (tsense (row constr))
                  (getCoeff constr var1 * (inject_Z (Z.of_nat b1) - value1)
                   + getCoeff constr var2 * (inject_Z (Z.of_nat b2) - value2))
            = false).
Proof.
  intros Hb1 Hb2 Hf. unfold scan_pair in *. cbv zeta in *.
  destruct (failFlag (scan_column var1 var2 value1 value2
                                  (getCol optModel var1)
                                  (init_scan color_num))) eqn:E1;
    [congruence|].
  rewrite (scan_column_valid _ _ _ _ _ _ b1 b2 Hb1 Hb2 Hf).
  rewrite (scan_column_valid _ _ _ _ _ _ b1 b2 Hb1 Hb2 E1).
  rewrite <- andb_assoc, <- forallb_app.
  rewrite andb_true_iff, forallb_forall.
  assert (Hinit : get_valid (mValidColorBits (init_scan color_num)) b1 b2 = true
                  <-> (color_num = THREE -> (b1, b2) ≠ (1, 1)%nat)).
  { assert (E1' : b1 = 0%nat \/ b1 = 1%nat) by lia.
    assert (E2' : b2 = 0%nat \/ b2 = 1%nat) by lia.
    destruct color_num, E1' as [-> | ->], E2' as [-> | ->]; cbn;
      split; try congruence; try discriminate; intros H; try reflexivity;
      exfalso; now apply H. }
  rewrite Hinit. apply and_iff_compat_l. split.
  - intros H constr Hc Hs. apply list_elem_of_In in Hc.
    specialize (H constr Hc). apply Qeq_bool_iff in Hs. rewrite Hs in H.
    cbn in H. now apply negb_true_iff in H.
  - intros H constr Hc. apply list_elem_of_In in Hc.
    destruct (Qeq_bool (Slack constr) 0) eqn:Es; [|reflexivity].
    cbn. apply negb_true_iff, (H constr Hc). now apply Qeq_bool_iff.
Qed.

Lemma apply_valid_from (m : ValidColorBits) (var1 var2 : GRBVar)
  (l : list (nat * nat)) (bs : list (Q * Q)) :
  var1 ≠ var2 ->
  (N.to_nat var1 < length bs)%nat -> (N.to_nat var2 < length bs)%nat ->
  exists bs',
    for_each (fun (b : nat * nat) bs =>
                if get_valid m b.1 b.2 then
                  bs ← setUB bs var1 (inject_Z (Z.of_nat b.1));
                  bs ← setLB bs var1 (inject_Z (Z.of_nat b.1));
                  bs ← setUB bs var2 (inject_Z (Z.of_nat b.2));
                  setLB bs var2 (inject_Z (Z.of_nat b.2))
                else Some bs) l bs = Some bs'
    /\ length bs' = length bs
    /\ (forall k, k ≠ N.to_nat var1 -> k ≠ N.to_nat var2 ->
        bs' !! k = bs !! k)
    /\ match list.last (List.filter (fun b : nat * nat => get_valid m b.1 b.2) l)
       with
       | Some b =>
           bs' !! N.to_nat var1
           = Some (inject_Z (Z.of_nat b.1), inject_Z (Z.of_nat b.1))
           /\ bs' !! N.to_nat var2
              = Some (inject_Z (Z.of_nat b.2), inject_Z (Z.of_nat b.2))
       | None => bs' = bs
       end.
Proof.
  intros Hne. revert bs. induction l as [|b l IH]; intros bs H1 H2.
  - exists bs. cbn. tauto.
  - cbn [for_each List.filter].
    destruct (get_valid m b.1 b.2) eqn:Ev.
    + rewrite fix_pair by assumption. cbn [mbind option_bind].
      destruct (IH (<[N.to_nat var2 := (inject_Z (Z.of_nat b.2),
                                        inject_Z (Z.of_nat b.2))]>
                      (<[N.to_nat var1 := (inject_Z (Z.of_nat b.1),
                                           inject_Z (Z.of_nat b.1))]> bs)))
        as (bs' & Hrun & Hl & Hkeep & Hlast).
      { now rewrite !length_insert. }
      { now rewrite !length_insert. }
      exists bs'. split; [exact Hrun|].
      split; [now rewrite Hl, !length_insert|].
      split.
      * intros k K1 K2. rewrite (Hkeep k K1 K2).
        now rewrite !list_lookup_insert_ne by congruence.
      * rewrite list.last_cons.
        destruct (list.last (List.filter _ l)) as [b'|]; [exact Hlast|].
        subst bs'. split.
        -- rewrite list_lookup_insert_ne by (intros E; apply Hne; lia).
           now apply list_lookup_insert_eq.
        -- apply list_lookup_insert_eq. now rewrite length_insert.
    + cbn [mbind option_bind]. apply IH; assumption.
Qed.

(** X13: the step that applies the result of a scan. After a scan with
    [failFlag] nothing is written. Otherwise both variables of the pair
    are fixed to the last candidate that is still valid, in the order
    (0,0), (0,1), (1,0), (1,1) of the loops: lower and upper bound of the
    first variable become its first bit, those of the second variable its
    second bit. No other bound is changed, and no bound at all when no
    candidate is valid. *)
Theorem apply_valid_fixes_last_valid (st : PairScan) (var1 var2 : GRBVar)
  (bs : list (Q * Q)) :
  var1 ≠ var2 ->
  (N.to_nat var1 < length bs)%nat -> (N.to_nat var2 < length bs)%nat ->
  exists bs',
    apply_valid st var1 var2 bs = Some bs'
    /\ length bs' = length bs
    /\ (forall k, k ≠ N.to_nat var1 -> k ≠ N.to_nat var2 ->
        bs' !! k = bs !! k)
    /\ (failFlag st = true -> bs' = bs)
    /\ (failFlag st = false ->
        match last_valid (mValidColorBits st) with
        | Some b =>
            bs' !! N.to_nat var1
            = Some (inject_Z (Z.of_nat b.1), inject_Z (Z.of_nat b.1))
            /\ bs' !! N.to_nat var2
               = Some (inject_Z (Z.of_nat b.2), inject_Z (Z.of_nat b.2))
        | None => bs' = bs
        end).
Proof.
  intros Hne H1 H2. unfold apply_valid.
  destruct (failFlag st).
  - exists bs. split; [reflexivity|]. split; [reflexivity|].
    split; [reflexivity|]. split; [reflexivity|discriminate].
  - destruct (apply_valid_from (mValidColorBits st) var1 var2
                               color_bit_pairs bs Hne H1 H2)
      as (bs' & Hrun & Hl & Hkeep & Hlast).
    exists bs'. split; [exact Hrun|]. split; [exact Hl|].
    split; [exact Hkeep|]. split; [discriminate|]. intros _. exact Hlast.
Qed.

(** ** The loop of the rounding *)

(** X14: [rounding_with_binding_analysis] does not optimize the model
    again, so that the census after a pass is the census before it and
    the loop is left: it makes one pass when a value of a color bit is
    not 0 or 1, and no pass otherwise. The pass changes the bounds of the
    variables only. *)
Theorem rounding_with_binding_analysis_one_pass (fuel : nat)
  (color_num : ColorNumType) (m : OptModel) (sol : Solution) (n : nat) :
  (1 <= fuel)%nat ->
  length (X sol) = (2 * n)%nat ->
  (N.of_nat n < 2147483648)%N ->
  (2 * n <= length (bounds m))%nat ->
  exists m' iterations,
    rounding_with_binding_analysis fuel color_num m sol
    = Done (m', iterations)
    /\ (iterations = 1%nat
        <-> ~ Forall (fun v => v == 0 \/ v == 1) (X sol))
    /\ (iterations = 0%nat <-> Forall (fun v => v == 0 \/ v == 1) (X sol))
    /\ (iterations = 0%nat -> m' = m)
    /\ vColorBits m' = vColorBits m
    /\ vEdgeBits m' = vEdgeBits m
    /\ obj m' = obj m
    /\ constrs m' = constrs m
    /\ length (bounds m') = length (bounds m).
Proof.
  intros Hfuel Hlen Hn Hbs.
  assert (Hsz : (N.of_nat (length (X sol)) < 2 ^ 32)%N).
  { rewrite Hlen. change (2 ^ 32)%N with 4294967296%N. lia. }
  assert (Hcount : vertex_non_integer_num (non_integer_num (X sol) (XE sol))
                   = N.of_nat (length (List.filter
                       (fun v => negb (Qeq_bool v 0) && negb (Qeq_bool v 1))
                       (X sol)))).
  { unfold non_integer_num, non_integer_num_of. cbn [vertex_non_integer_num].
    rewrite non_integer_num_of_acc by (cbn [fst snd]; lia). reflexivity. }
  assert (Hzero : vertex_non_integer_num (non_integer_num (X sol) (XE sol))
                  = 0%N <-> Forall (fun v => v == 0 \/ v == 1) (X sol)).
  { rewrite Hcount. apply no_fractional_iff. }
  pose proof (List.filter_length_le
                (fun v => negb (Qeq_bool v 0) && negb (Qeq_bool v 1))
                (X sol)) as Hle.
  unfold rounding_with_binding_analysis.
  destruct fuel as [|fuel]; [lia|]. cbn [while_non_integer_decreases].
  destruct (0 <? vertex_non_integer_num (non_integer_num (X sol) (XE sol)))%N
    eqn:Hpos.
  - apply N.ltb_lt in Hpos.
    assert (Hlt : (vertex_non_integer_num (non_integer_num (X sol) (XE sol))
                   <? vertex_non_integer_num NonIntegerInfo_init)%N = true).
    { apply N.ltb_lt. rewrite Hcount. cbn [NonIntegerInfo_init
        vertex_non_integer_num]. unfold UINT32_MAX.
      change (2 ^ 32)%N with 4294967296%N in Hsz. lia. }
    rewrite Hlt. cbn [andb].
    destruct (rounding_pass_total color_num (optimized_constrs m sol)
                                  (X sol) n (bounds m) Hlen)
      as (bs & -> & Hl).
    { change (2 ^ 32)%N with 4294967296%N in Hsz. exact Hsz. }
    { lia. }
    cbn [mbind option_bind].
    assert (Hstop : forall f s k,
      while_non_integer_decreases
        (fun m0 => bs0 ← rounding_pass color_num (optimized_constrs m0 sol)
                                       (X sol) (bounds m0);
                   Some (set_bounds m0 bs0))
        (fun _ => non_integer_num (X sol) (XE sol)) f
        (non_integer_num (X sol) (XE sol))
        (non_integer_num (X sol) (XE sol)) s k = Done (s, k)).
    { intros f s k. destruct f; cbn [while_non_integer_decreases];
        now rewrite N.ltb_irrefl, andb_false_r. }
    rewrite Hstop. exists (set_bounds m bs), 1%nat.
    split; [reflexivity|].
    split; [split; [intros _ H; apply Hzero in H; lia|reflexivity]|].
    split; [split; [discriminate|intros H; apply Hzero in H; lia]|].
    split; [discriminate|].
    cbn. repeat split; exact Hl.
  - apply N.ltb_ge in Hpos. cbn [andb].
    exists m, 0%nat. split; [reflexivity|].
    assert (Hall : Forall (fun v => v == 0 \/ v == 1) (X sol))
      by (apply Hzero; lia).
    split; [split; [discriminate|intros H; contradiction]|].
    split; [split; [intros _; exact Hall|reflexivity]|].
    repeat split; reflexivity.
Qed.

(** ** The size of the model and the variables of the edges *)

Lemma flat_map_edge_cover_length (l : list graph_edge_type) :
  length (flat_map edge_cover_constraints l) = (4 * length l)%nat.
Proof.
  induction l as [|e l IH]; [reflexivity|].
  cbn [flat_map]. rewrite length_app, IH. cbn [length edge_cover_constraints].
  lia.
Qed.

Lemma edge_cover_variables (e : graph_edge_type) (c : GRBTempConstr)
  (t : Q * GRBVar) :
  c ∈ edge_cover_constraints e -> t ∈ terms (lhs c) ->
  t.2 ∈ [bitIdx (source e); u32 (bitIdx (source e) + 1);
         bitIdx (target e); u32 (bitIdx (target e) + 1)].
Proof.
  intros Hc Ht. unfold edge_cover_constraints in Hc. cbv zeta in Hc.
  repeat (apply elem_of_cons in Hc; destruct Hc as [->|Hc]);
    [| | | |now apply elem_of_nil in Hc];
    cbn in Ht;
    repeat (apply elem_of_cons in Ht; destruct Ht as [->|Ht]);
    try (now apply elem_of_nil in Ht); cbn [snd];
    repeat (first [apply list_elem_of_here|apply list_elem_of_further]).
Qed.

(** X15: the model that [set_optimize_model] builds, on a graph whose
    numbers of vertices and of edges fit the 32-bit counters. There are
    two color bits for each vertex and one variable for each edge, all
    with the bounds 0 and 1; four constraints for each edge and, with
    three colors, one more for each vertex, which is also the value of
    the counter of the constraints. The constraints are over the color
    bits only: no variable of an edge occurs in a constraint, and the
    objective is empty. *)
Theorem set_optimize_model_shape (g : graph_type) (color_num : ColorNumType) :
  wf_graph g ->
  (N.of_nat (4 * length (edges g) + num_vertices g) < 2 ^ 32)%N ->
  let m := set_optimize_model g color_num in
  length (vColorBits m) = (2 * num_vertices g)%nat
  /\ length (vEdgeBits m) = length (edges g)
  /\ bounds m = replicate (2 * num_vertices g + length (edges g)) (0, 1)
  /\ length (constrs m)
     = (4 * length (edges g)
        + match color_num with THREE => num_vertices g | FOUR => 0 end)%nat
  /\ m_constrs_num m = N.of_nat (length (constrs m))
  /\ terms (obj m) = []
  /\ (forall v, v ∈ vColorBits m -> (v < 2 * N.of_nat (num_vertices g))%N)
  /\ (forall v, v ∈ vEdgeBits m -> (2 * N.of_nat (num_vertices g) <= v)%N)
  /\ (forall c t, c ∈ constrs m -> t ∈ terms (lhs c) ->
      (t.2 < 2 * N.of_nat (num_vertices g))%N).
Proof.
  intros Hwf Hsz m.
  assert (Hn : (N.of_nat (num_vertices g) < 2147483648)%N) by apply Hwf.
  change (2 ^ 32)%N with 4294967296%N in Hsz.
  assert (E1 : u32 (N.of_nat (num_vertices g)) = N.of_nat (num_vertices g))
    by (apply u32_small; lia).
  assert (E2 : u32 (N.shiftl (N.of_nat (num_vertices g)) 1)
               = N.of_nat (2 * num_vertices g)).
  { rewrite shiftl1_double, u32_small by lia. lia. }
  assert (E3 : u32 (N.of_nat (length (edges g))) = N.of_nat (length (edges g)))
    by (apply u32_small; lia).
  assert (Hcs : length (constrs m)
     = (4 * length (edges g)
        + match color_num with THREE => num_vertices g | FOUR => 0 end)%nat).
  { subst m. unfold set_optimize_model. cbn [constrs].
    rewrite length_app, flat_map_edge_cover_length, E1, E2.
    destruct color_num; [|reflexivity].
    unfold three_color_constraints.
    now rewrite even_indices_double, !length_map, length_seq. }
  split.
  { subst m. unfold set_optimize_model. cbn [vColorBits].
    rewrite E1, E2, length_map, length_seq. lia. }
  split.
  { subst m. unfold set_optimize_model. cbn [vEdgeBits].
    rewrite E3, length_map, length_seq. lia. }
  split.
  { subst m. unfold set_optimize_model. cbn [bounds].
    rewrite E1, E2, E3. f_equal. lia. }
  split; [exact Hcs|].
  split.
  { rewrite Hcs. subst m. unfold set_optimize_model in *.
    cbn [m_constrs_num constrs] in *. rewrite Hcs.
    apply u32_small. destruct color_num; lia. }
  split; [reflexivity|].
  split.
  { intros v Hv. subst m. unfold set_optimize_model in Hv.
    cbn [vColorBits] in Hv. rewrite E1, E2 in Hv.
    apply list_elem_of_fmap in Hv. destruct Hv as (i & -> & Hi).
    apply list_elem_of_In, in_seq in Hi. lia. }
  split.
  { intros v Hv. subst m. unfold set_optimize_model in Hv.
    cbn [vEdgeBits] in Hv. rewrite E1, E2 in Hv.
    apply list_elem_of_fmap in Hv. destruct Hv as (i & -> & Hi). lia. }
  intros c t Hc Ht.
  destruct (constrs_of_model g color_num c Hn Hc)
    as [(e & He & Hce)|(_ & i & Hi & ->)].
  - destruct Hwf as [_ Hedges]. rewrite List.Forall_forall in Hedges.
    destruct (Hedges e ltac:(now apply list_elem_of_In)) as [Hs Ht'].
    destruct (bitIdx_small (source e) ltac:(lia)) as [Es1 Es2].
    destruct (bitIdx_small (target e) ltac:(lia)) as [Et1 Et2].
    pose proof (edge_cover_variables e c t Hce Ht) as Hv.
    rewrite Es2, Et2, Es1, Et1 in Hv.
    repeat (apply elem_of_cons in Hv; destruct Hv as [->|Hv]); try lia.
    now apply elem_of_nil in Hv.
  - cbn in Ht.
    repeat (apply elem_of_cons in Ht; destruct Ht as [->|Ht]);
      try (now apply elem_of_nil in Ht); cbn [snd]; lia.
Qed.

(** ** The odd-cycle search on a graph with self-loops *)

Lemma for_each_invariant {A St} (P : St -> Prop)
  (body : A -> St -> option St) (l : list A) (s s' : St) :
  (forall x t t', x ∈ l -> P t -> body x t = Some t' -> P t') ->
  P s -> for_each body l s = Some s' -> P s'.
Proof.
  revert s. induction l as [|x l IH]; intros s Hbody Hs Hrun.
  - cbn in Hrun. now injection Hrun as <-.
  - cbn [for_each] in Hrun.
    destruct (body x s) as [s1|] eqn:E; [|discriminate].
    cbn [mbind option_bind] in Hrun.
    apply (IH s1); [|apply (Hbody x s s1);
                     [apply list_elem_of_here|exact Hs|exact E]|exact Hrun].
    intros y t t' Hy. apply Hbody. now apply list_elem_of_further.
Qed.

Section OddCycleSearchRoot.

Variable g : graph_type.
Variable v : graph_vertex_type.
Hypothesis Hwf : wf_graph g.

(** What holds of the state all along the search from the root [v]: the
    root is the only vertex that may be marked as visited, its distance
    value is 0 and that of every other vertex on the stack is 1, and
    the cycles found so far are copies of [[v]], found at a self-loop. *)
Let root_inv (st : DFSState) : Prop :=
  (forall u, vNodeVisited st !! u = Some true -> u = v)
  /\ vNodeDistColor st !! v = Some 0%Z
  /\ (forall x, x ∈ vVertexStack st -> x ≠ v ->
      vNodeDistColor st !! x = Some 1%Z)
  /\ Forall (fun c => c = [v]) (vOddCyle st)
  /\ (vOddCyle st ≠ [] -> v ∈ adjacent_vertices v g).

Lemma detect_odd_cycle_root (cv : graph_vertex_type)
  (rest : list graph_vertex_type) (u : graph_vertex_type)
  (st t t' : DFSState) :
  root_inv st -> vVertexStack st = cv :: rest ->
  u ∈ adjacent_vertices cv g ->
  vNodeDistColor t = vNodeDistColor st
  /\ vNodeVisited t = vNodeVisited st
  /\ vVertexStack t = vVertexStack st
  /\ Forall (fun c => c = [v]) (vOddCyle t)
  /\ (vOddCyle t ≠ [] -> v ∈ adjacent_vertices v g) ->
  detect_odd_cycle v cv u t = Some t' ->
  vNodeDistColor t' = vNodeDistColor st
  /\ vNodeVisited t' = vNodeVisited st
  /\ vVertexStack t' = vVertexStack st
  /\ Forall (fun c => c = [v]) (vOddCyle t')
  /\ (vOddCyle t' ≠ [] -> v ∈ adjacent_vertices v g).
Proof.
  intros (Hvis & Hroot & Hstk & _) Hstack Hu (Ed & Ev & Es & Hcyc & Hloop) Hrun.
  unfold detect_odd_cycle in Hrun. rewrite Ed, Ev, Es in Hrun.
  destruct (vNodeVisited st !! u) as [b|] eqn:Hb; [|discriminate].
  destruct (vNodeDistColor st !! u) as [du|] eqn:Hdu; [|discriminate].
  destruct (vNodeDistColor st !! cv) as [dcv|] eqn:Hdcv; [|discriminate].
  cbn [mbind option_bind] in Hrun.
  destruct (b && bool_decide (du = dcv)) eqn:Hc.
  2:{ injection Hrun as <-. tauto. }
  apply andb_true_iff in Hc. destruct Hc as [-> Hc].
  apply bool_decide_eq_true in Hc. subst dcv.
  pose proof (Hvis u Hb) as ->.
  assert (du = 0%Z) as -> by congruence.
  assert (cv = v) as ->.
  { destruct (decide (cv = v)) as [E|E]; [exact E|].
    rewrite (Hstk cv) in Hdcv; [discriminate| |exact E].
    rewrite Hstack. apply list_elem_of_here. }
  destruct (store (vInCycle t) v true) as [inC|]; [|discriminate].
  cbn [mbind option_bind] in Hrun.
  rewrite Hstack in Hrun. cbn [trace_cycle] in Hrun.
  destruct (store inC v true) as [inC'|]; [|discriminate].
  cbn [mbind option_bind] in Hrun.
  destruct (decide (v = v)) as [_|N]; [|contradiction].
  cbn [mbind option_bind fst snd] in Hrun.
  destruct (inC' !! v) as [inV|]; [|discriminate].
  cbn [mbind option_bind] in Hrun. injection Hrun as <-. cbn.
  split; [reflexivity|]. split; [reflexivity|]. split; [congruence|].
  destruct inV; cbn.
  - split; [|intros _; exact Hu].
    apply Forall_app. split; [exact Hcyc|]. now constructor.
  - split; [exact Hcyc|exact Hloop].
Qed.

Lemma dfs_step_root (cv : graph_vertex_type)
  (rest : list graph_vertex_type) (st : DFSState) :
  dfs_shape g v st -> root_inv st -> vVertexStack st = cv :: rest ->
  exists st', dfs_step g v cv st = Some st'
              /\ dfs_shape g v st' /\ root_inv st'
              /\ S (potential st') = potential st.
Proof.
  intros Hsh Hinv Hstack.
  destruct (dfs_step_total g v Hwf cv rest st Hsh Hstack)
    as (st' & Hstep & Hsh' & Hpot).
  exists st'. split; [exact Hstep|]. split; [exact Hsh'|].
  split; [|exact Hpot].
  assert (Hinv0 := Hinv). destruct Hinv as (Hvis & Hroot & Hstk & Hcyc & Hloop).
  assert (Hcv : (cv < num_vertices g)%nat).
  { apply (shape_stack g v st Hsh). rewrite Hstack. apply list_elem_of_here. }
  destruct (first_unseen_spec (vNodeDistColor st) (adjacent_vertices cv g))
    as (r & Hr & Hspec).
  { intros u Hu. rewrite (shape_dist g v st Hsh).
    now apply adjacent_vertices_bound with cv. }
  unfold dfs_step in Hstep. rewrite Hr in Hstep.
  cbn [mbind option_bind] in Hstep.
  destruct r as [u|].
  - destruct Hspec as [Hu Hdu].
    pose proof (adjacent_vertices_bound g cv u Hwf Hu) as Hub.
    assert (Huv : u ≠ v) by (intros ->; congruence).
    unfold visit_unseen in Hstep.
    destruct (vNodeDistColor st !! cv) as [dcv|]; [|discriminate].
    cbn [mbind option_bind] in Hstep.
    rewrite store_Some in Hstep
      by (rewrite (shape_dist g v st Hsh); exact Hub).
    cbn [mbind option_bind] in Hstep.
    rewrite store_Some in Hstep
      by (rewrite length_insert, (shape_dist g v st Hsh); exact Hub).
    cbn [mbind option_bind] in Hstep. rewrite list_insert_insert_eq in Hstep.
    injection Hstep as <-. unfold root_inv. cbn.
    split; [exact Hvis|].
    split; [now rewrite list_lookup_insert_ne by exact Huv|].
    split; [|split; [exact Hcyc|exact Hloop]].
    intros x Hx Hxv. destruct (decide (x = u)) as [->|Hxu].
    + apply list_lookup_insert_eq.
      rewrite (shape_dist g v st Hsh). exact Hub.
    + rewrite list_lookup_insert_ne by congruence.
      apply elem_of_cons in Hx. destruct Hx as [->|Hx]; [contradiction|].
      now apply Hstk.
  - destruct (for_each (detect_odd_cycle v cv) (adjacent_vertices cv g) st)
      as [st1|] eqn:Hrun; [|discriminate].
    cbn [mbind option_bind] in Hstep.
    assert (H1 : vNodeDistColor st1 = vNodeDistColor st
                 /\ vNodeVisited st1 = vNodeVisited st
                 /\ vVertexStack st1 = vVertexStack st
                 /\ Forall (fun c => c = [v]) (vOddCyle st1)
                 /\ (vOddCyle st1 ≠ [] -> v ∈ adjacent_vertices v g)).
    { apply (for_each_invariant
               (fun t => vNodeDistColor t = vNodeDistColor st
                         /\ vNodeVisited t = vNodeVisited st
                         /\ vVertexStack t = vVertexStack st
                         /\ Forall (fun c => c = [v]) (vOddCyle t)
                         /\ (vOddCyle t ≠ [] -> v ∈ adjacent_vertices v g))
               (detect_odd_cycle v cv) (adjacent_vertices cv g) st st1);
        [|tauto|exact Hrun].
      intros u t t' Hu Ht Hd.
      exact (detect_odd_cycle_root cv rest u st t t' Hinv0 Hstack Hu Ht Hd). }
    destruct H1 as (Ed & Ev & Es & Hcyc1 & Hloop1).
    rewrite store_Some in Hstep
      by (rewrite Ev, (shape_visited g v st Hsh); exact Hcv).
    cbn [mbind option_bind] in Hstep. injection Hstep as <-.
    unfold root_inv. cbn. rewrite Ed, Ev, Es, Hstack. cbn [tail].
    split.
    { intros u Hu. destruct (decide (u = cv)) as [->|Hne].
      - rewrite list_lookup_insert_eq in Hu
          by (rewrite (shape_visited g v st Hsh); exact Hcv).
        discriminate.
      - rewrite list_lookup_insert_ne in Hu by congruence. now apply Hvis. }
    split; [exact Hroot|].
    split; [|split; [exact Hcyc1|exact Hloop1]].
    intros x Hx. apply Hstk. rewrite Hstack. now apply list_elem_of_further.
Qed.

Lemma dfs_loop_root (fuel : nat) (st : DFSState) :
  dfs_shape g v st -> root_inv st -> (potential st <= fuel)%nat ->
  exists st', dfs_loop fuel g v st = Some st' /\ root_inv st'.
Proof.
  revert st. induction fuel as [|fuel IH]; intros st Hsh Hinv Hfuel.
  - destruct (vVertexStack st) as [|cv rest] eqn:Hstack.
    + exists st. simpl. now rewrite Hstack.
    + unfold potential in Hfuel. rewrite Hstack in Hfuel. simpl in Hfuel. lia.
  - destruct (vVertexStack st) as [|cv rest] eqn:Hstack.
    + exists st. simpl. now rewrite Hstack.
    + destruct (dfs_step_root cv rest st Hsh Hinv Hstack)
        as (st1 & Hstep & Hsh1 & Hinv1 & Hpot).
      destruct (IH st1 Hsh1 Hinv1 ltac:(lia)) as (st' & Hloop & Hinv').
      exists st'. simpl. now rewrite Hstack, Hstep.
Qed.

Lemma get_odd_cycles_root (fuel : nat) :
  (v < num_vertices g)%nat -> (2 * num_vertices g <= fuel)%nat ->
  exists vOddCyle,
    get_odd_cycles fuel g v = Some vOddCyle
    /\ Forall (fun c => c = [v]) vOddCyle
    /\ (vOddCyle ≠ [] -> v ∈ adjacent_vertices v g).
Proof.
  intros Hv Hfuel. assert (Hn := proj1 Hwf).
  unfold get_odd_cycles, dfs_init. rewrite u32_small, Nat2N.id by lia.
  rewrite !store_Some by (rewrite length_replicate; exact Hv).
  cbn [mbind option_bind].
  match goal with
  | |- context [dfs_loop fuel g v ?st] =>
      destruct (dfs_loop_root fuel st) as (st' & Hloop & Hinv)
  end.
  - constructor; cbn; try (now rewrite ?length_insert, length_replicate);
      [exact Hv|].
    intros x Hx. apply list_elem_of_singleton in Hx. now subst x.
  - unfold root_inv. cbn.
    split.
    { intros u Hu. destruct (decide (u = v)) as [E|E]; [exact E|].
      rewrite list_lookup_insert_ne in Hu by congruence.
      apply lookup_replicate in Hu. destruct Hu as [Hu _]. discriminate. }
    split; [apply list_lookup_insert_eq; now rewrite length_replicate|].
    split.
    { intros x Hx Hxv. apply list_elem_of_singleton in Hx. contradiction. }
    split; [constructor|]. intros N. contradiction.
  - unfold potential. cbn.
    pose proof (unseen_insert (replicate (num_vertices g) (-1)%Z) v 0%Z) as H.
    rewrite unseen_replicate in H.
    specialize (H ltac:(apply lookup_replicate; split; [reflexivity|exact Hv])
                  ltac:(discriminate)).
    unfold unseen in *. lia.
  - rewrite Hloop. cbn [mbind option_bind]. eexists. split; [reflexivity|].
    destruct Hinv as (_ & _ & _ & Hcyc & Hself). split; assumption.
Qed.

End OddCycleSearchRoot.

(** X16: on every graph, with self-loops or without, the search of
    [get_odd_cycles] from a vertex [v] ends within 2|V| iterations of its
    loop, and all that it can report is the root itself: every cycle of
    the result is the one-vertex cycle [[v]], and there is one only when
    an edge joins [v] with itself. A cycle through other vertices is
    never found. *)
Theorem get_odd_cycles_only_root_self_loop (g : graph_type)
  (v : graph_vertex_type) (fuel : nat) :
  wf_graph g -> (v < num_vertices g)%nat -> (2 * num_vertices g <= fuel)%nat ->
  exists vOddCyle,
    get_odd_cycles fuel g v = Some vOddCyle
    /\ Forall (fun c => c = [v]) vOddCyle
    /\ (vOddCyle ≠ [] -> (v, v) ∈ edges g).
Proof.
  intros Hwf Hv Hfuel.
  destruct (get_odd_cycles_root g v Hwf fuel Hv Hfuel)
    as (cycles & Hrun & Hall & Hself).
  exists cycles. split; [exact Hrun|]. split; [exact Hall|].
  intros Hne. specialize (Hself Hne). unfold adjacent_vertices in Hself.
  apply list_elem_of_In, in_flat_map in Hself.
  destruct Hself as ([s t] & He & Hin). apply list_elem_of_In in He.
  unfold source, target in Hin. cbn [fst snd] in Hin.
  apply in_app_or in Hin.
  destruct Hin as [Hin|Hin]; destruct (decide _) as [E|E]; cbn in Hin;
    try contradiction; destruct Hin as [Hin|[]]; subst; exact He.
Qed.

(** ** The constraints of an odd cycle *)

Lemma eval_cycle_sum (a : GRBVar -> Q) (f : graph_vertex_type -> GRBVar)
  (oddCycle : list graph_vertex_type) (e : GRBLinExpr) :
  eval a (fold_left (fun c u => (c + lin_var (f u))%lin) oddCycle e)
  == eval a e + fold_right (fun u acc => a (f u) + acc) 0 oddCycle.
Proof.
  revert e. induction oddCycle as [|u l IH]; intros e.
  - cbn. lra.
  - cbn [fold_left fold_right]. rewrite IH. autorewrite with lin_eval. lra.
Qed.

Lemma odd_cycle_sat (a : GRBVar -> Q) (oddCycle : list graph_vertex_type) :
  Forall (satisfied a) (odd_cycle_constraints oddCycle)
  <-> (1 <= bit_sum a 0 oddCycle
       /\ bit_sum a 0 oddCycle
          <= inject_Z (Z.of_nat (length oddCycle) - 1))
      /\ (1 <= bit_sum a 1 oddCycle
          /\ bit_sum a 1 oddCycle
             <= inject_Z (Z.of_nat (length oddCycle) - 1)).
Proof.
  unfold odd_cycle_constraints. cbv zeta.
  rewrite !Forall_cons_iff, Forall_nil_iff.
  unfold satisfied. cbn [tsense ge_constr le_constr rhs lhs].
  change (Ascii.eqb GRB_GREATER_EQUAL GRB_GREATER_EQUAL) with true.
  change (Ascii.eqb GRB_LESS_EQUAL GRB_GREATER_EQUAL) with false.
  change (Ascii.eqb GRB_LESS_EQUAL GRB_LESS_EQUAL) with true. cbv iota.
  rewrite (eval_cycle_sum a (fun u => N.shiftl (N.of_nat u) 1)).
  rewrite (eval_cycle_sum a (fun u => (N.shiftl (N.of_nat u) 1 + 1)%N)).
  rewrite eval_lin_const.
  assert (E0 : fold_right (fun u acc => a (N.shiftl (N.of_nat u) 1) + acc)
                          0 oddCycle = bit_sum a 0 oddCycle).
  { clear. unfold bit_sum. induction oddCycle as [|u l IH]; [reflexivity|].
    cbn [fold_right]. rewrite IH, shiftl1_double, N.add_0_r. reflexivity. }
  assert (E1 : fold_right (fun u acc => a (N.shiftl (N.of_nat u) 1 + 1)%N + acc)
                          0 oddCycle = bit_sum a 1 oddCycle).
  { clear. unfold bit_sum. induction oddCycle as [|u l IH]; [reflexivity|].
    cbn [fold_right]. rewrite IH, shiftl1_double. reflexivity. }
  rewrite E0, E1.
  generalize (bit_sum a 0 oddCycle) (bit_sum a 1 oddCycle)
             (inject_Z (Z.of_nat (length oddCycle) - 1)).
  intros x y z. split.
  - intros (A & B & C & D & _). split; split; lra.
  - intros [[A B] [C D]]. repeat split; lra.
Qed.

(** X17: the four constraints that [add_odd_cycle_constraints] adds for
    a cycle hold exactly when the first bits of the vertices of the cycle
    sum up to at least 1 and at most the length of the cycle minus 1, and
    the second bits too. For a cycle of one vertex no assignment of the
    variables satisfies them. *)
Theorem odd_cycle_constraints_hold_iff (a : GRBVar -> Q)
  (oddCycle : list graph_vertex_type) :
  (Forall (satisfied a) (odd_cycle_constraints oddCycle)
   <-> (1 <= bit_sum a 0 oddCycle
        /\ bit_sum a 0 oddCycle
           <= inject_Z (Z.of_nat (length oddCycle) - 1))
       /\ (1 <= bit_sum a 1 oddCycle
           /\ bit_sum a 1 oddCycle
              <= inject_Z (Z.of_nat (length oddCycle) - 1)))
  /\ ((length oddCycle <= 1)%nat ->
      ~ Forall (satisfied a) (odd_cycle_constraints oddCycle)).
Proof.
  split; [apply odd_cycle_sat|].
  intros Hlen H. apply odd_cycle_sat in H. destruct H as [[A B] _].
  assert (C : inject_Z (Z.of_nat (length oddCycle) - 1) <= inject_Z 0).
  { rewrite <- Zle_Qle. lia. }
  change (inject_Z 0) with 0 in C. lra.
Qed.

(** ** A vertex with a self-loop *)

Lemma detect_odd_cycle_fields (v cv u : graph_vertex_type)
  (s t : DFSState) :
  detect_odd_cycle v cv u s = Some t ->
  vNodeDistColor t = vNodeDistColor s
  /\ vNodeVisited t = vNodeVisited s
  /\ vVertexStack t = vVertexStack s
  /\ (vOddCyle s ≠ [] -> vOddCyle t ≠ []).
Proof.
  unfold detect_odd_cycle. intros Hrun.
  destruct (vNodeVisited s !! u) as [b|]; [|discriminate].
  destruct (vNodeDistColor s !! u) as [du|]; [|discriminate].
  destruct (vNodeDistColor s !! cv) as [dcv|]; [|discriminate].
  cbn [mbind option_bind] in Hrun.
  destruct (b && bool_decide (du = dcv)).
  2:{ injection Hrun as <-. tauto. }
  destruct (store (vInCycle s) v true) as [inC|]; [|discriminate].
  cbn [mbind option_bind] in Hrun.
  destruct (trace_cycle (vVertexStack s) u inC) as [r|]; [|discriminate].
  cbn [mbind option_bind] in Hrun.
  destruct (r.2 !! v) as [inV|]; [|discriminate].
  cbn [mbind option_bind] in Hrun. injection Hrun as <-. cbn.
  split; [reflexivity|]. split; [reflexivity|]. split; [reflexivity|].
  intros Hne. destruct (negb (bool_decide (r.1 = [])) && inV); [|exact Hne].
  intros E. apply app_eq_nil in E. destruct E as [_ E]. discriminate E.
Qed.

Lemma detect_odd_cycle_at_root (v : graph_vertex_type)
  (rest : list graph_vertex_type) (s t : DFSState) :
  vNodeVisited s !! v = Some true -> vVertexStack s = v :: rest ->
  detect_odd_cycle v v v s = Some t -> vOddCyle t ≠ [].
Proof.
  intros Hvis Hstack. unfold detect_odd_cycle. rewrite Hvis, Hstack.
  intros Hrun.
  destruct (vNodeDistColor s !! v) as [dv|]; [|discriminate].
  cbn [mbind option_bind] in Hrun.
  rewrite bool_decide_eq_true_2 in Hrun by reflexivity. cbn [andb] in Hrun.
  destruct (store (vInCycle s) v true) as [inC|]; [|discriminate].
  cbn [mbind option_bind trace_cycle] in Hrun.
  unfold store in Hrun at 1.
  destruct (decide (v < length inC)%nat) as [Hlt|]; [|discriminate].
  cbn [mbind option_bind] in Hrun.
  destruct (decide (v = v)) as [_|N]; [|contradiction].
  cbn [mbind option_bind fst snd] in Hrun.
  rewrite list_lookup_insert_eq in Hrun by exact Hlt.
  cbn [mbind option_bind] in Hrun. injection Hrun as <-. cbn.
  intros E. apply app_eq_nil in E. destruct E as [_ E]. discriminate E.
Qed.

Lemma detect_loop_at_root (v : graph_vertex_type)
  (rest : list graph_vertex_type) (l : list graph_vertex_type)
  (s s' : DFSState) :
  vNodeVisited s !! v = Some true -> vVertexStack s = v :: rest ->
  v ∈ l \/ vOddCyle s ≠ [] ->
  for_each (detect_odd_cycle v v) l s = Some s' -> vOddCyle s' ≠ [].
Proof.
  revert s. induction l as [|x l IH]; intros s Hvis Hstack Hor Hrun.
  - cbn in Hrun. injection Hrun as <-.
    destruct Hor as [H|H]; [now apply elem_of_nil in H|exact H].
  - cbn [for_each] in Hrun.
    destruct (detect_odd_cycle v v x s) as [t|] eqn:Hx; [|discriminate].
    cbn [mbind option_bind] in Hrun.
    destruct (detect_odd_cycle_fields v v x s t Hx) as (_ & Ev & Es & Hgrow).
    apply (IH t); [congruence|congruence| |exact Hrun].
    destruct Hor as [Hin|Hne]; [|right; now apply Hgrow].
    apply elem_of_cons in Hin. destruct Hin as [<-|Hin]; [|now left].
    right. exact (detect_odd_cycle_at_root v rest s t Hvis Hstack Hx).
Qed.

Section SelfLoop.

Variable g : graph_type.
Variable v : graph_vertex_type.
Hypothesis Hwf : wf_graph g.
Hypothesis Hself : v ∈ adjacent_vertices v g.

(** The root stays at the bottom of the stack, marked as visited, until
    it is popped, and a cycle has been found when it is popped. *)
Let live (st : DFSState) : Prop :=
  (exists upper, vVertexStack st = upper ++ [v] /\ (v ∉ upper)
                 /\ vNodeVisited st !! v = Some true)
  \/ (vVertexStack st = [] /\ vOddCyle st ≠ []).

Lemma dfs_step_live (cv : graph_vertex_type)
  (rest : list graph_vertex_type) (st st' : DFSState) :
  dfs_shape g v st -> vNodeDistColor st !! v = Some 0%Z -> live st ->
  vVertexStack st = cv :: rest ->
  dfs_step g v cv st = Some st' -> live st'.
Proof.
  intros Hsh Hroot Hlive Hstack Hstep.
  destruct Hlive as [(upper & Hup & Hnin & Hvis)|[E _]]; [|congruence].
  destruct (first_unseen_spec (vNodeDistColor st) (adjacent_vertices cv g))
    as (r & Hr & Hspec).
  { intros u Hu. rewrite (shape_dist g v st Hsh).
    now apply adjacent_vertices_bound with cv. }
  unfold dfs_step in Hstep. rewrite Hr in Hstep.
  cbn [mbind option_bind] in Hstep.
  destruct r as [u|].
  - destruct Hspec as [Hu Hdu].
    assert (Huv : u ≠ v) by (intros ->; congruence).
    unfold visit_unseen in Hstep.
    destruct (vNodeDistColor st !! cv) as [dcv|]; [|discriminate].
    cbn [mbind option_bind] in Hstep.
    destruct (store (vNodeDistColor st) u (1 - dcv)%Z) as [d1|]; [|discriminate].
    cbn [mbind option_bind] in Hstep.
    destruct (store d1 u 1%Z) as [d2|]; [|discriminate].
    cbn [mbind option_bind] in Hstep. injection Hstep as <-.
    left. exists (u :: upper). cbn. split; [now rewrite Hup|].
    split; [|exact Hvis].
    intros Hin. apply elem_of_cons in Hin.
    destruct Hin as [E|Hin]; [congruence|contradiction].
  - destruct (for_each (detect_odd_cycle v cv) (adjacent_vertices cv g) st)
      as [st1|] eqn:Hrun; [|discriminate].
    cbn [mbind option_bind] in Hstep.
    assert (H1 : vNodeVisited st1 = vNodeVisited st
                 /\ vVertexStack st1 = vVertexStack st).
    { apply (for_each_invariant
               (fun t => vNodeVisited t = vNodeVisited st
                         /\ vVertexStack t = vVertexStack st)
               (detect_odd_cycle v cv) (adjacent_vertices cv g) st st1);
        [|tauto|exact Hrun].
      intros u t t' _ [Ev Es] Hd.
      destruct (detect_odd_cycle_fields v cv u t t' Hd) as (_ & Ev' & Es' & _).
      split; congruence. }
    destruct H1 as [Ev Es].
    destruct (store (vNodeVisited st1) cv false) as [vis'|] eqn:Hst;
      [|discriminate].
    cbn [mbind option_bind] in Hstep. injection Hstep as <-. cbn.
    rewrite Es, Hstack. cbn [tail].
    destruct upper as [|c upper'].
    + cbn in Hup. rewrite Hstack in Hup. injection Hup as -> ->.
      right. split; [reflexivity|].
      apply (detect_loop_at_root v [] (adjacent_vertices v g) st st1);
        [exact Hvis|exact Hstack|left; exact Hself|exact Hrun].
    + cbn in Hup. rewrite Hstack in Hup. injection Hup as -> ->.
      left. exists upper'. split; [reflexivity|].
      split.
      * intros Hin. apply Hnin. now apply list_elem_of_further.
      * unfold store in Hst. destruct (decide _); [|discriminate].
        injection Hst as <-. cbn [vNodeVisited]. rewrite Ev.
        rewrite list_lookup_insert_ne; [exact Hvis|].
        intros ->. apply Hnin. apply list_elem_of_here.
Qed.

Lemma dfs_loop_live (fuel : nat) (st st' : DFSState) :
  dfs_shape g v st -> vNodeDistColor st !! v = Some 0%Z
  -> (forall u, vNodeVisited st !! u = Some true -> u = v)
  -> (forall x, x ∈ vVertexStack st -> x ≠ v ->
      vNodeDistColor st !! x = Some 1%Z)
  -> Forall (fun c => c = [v]) (vOddCyle st)
  -> live st ->
  dfs_loop fuel g v st = Some st' -> vOddCyle st' ≠ [].
Proof.
  revert st. induction fuel as [|fuel IH];
    intros st Hsh Hroot Hvis Hstk Hcyc Hlive Hrun.
  - cbn in Hrun. destruct (vVertexStack st) eqn:Hstack; [|discriminate].
    injection Hrun as <-.
    destruct Hlive as [(upper & Hup & _)|[_ H]]; [|exact H].
    rewrite Hstack in Hup. now destruct upper.
  - cbn [dfs_loop] in Hrun.
    destruct (vVertexStack st) as [|cv rest] eqn:Hstack.
    + injection Hrun as <-.
      destruct Hlive as [(upper & Hup & _)|[_ H]]; [|exact H].
      rewrite Hstack in Hup. now destruct upper.
    + destruct (dfs_step_root g v Hwf cv rest st Hsh) as
        (st1 & Hstep & Hsh1 & Hinv1 & _); [|exact Hstack|].
      { split; [exact Hvis|]. split; [exact Hroot|].
        split; [rewrite Hstack; exact Hstk|].
        split; [exact Hcyc|]. intros _. exact Hself. }
      rewrite Hstep in Hrun. cbn [mbind option_bind] in Hrun.
      destruct Hinv1 as (Hvis1 & Hroot1 & Hstk1 & Hcyc1 & _).
      apply (IH st1); try assumption.
      exact (dfs_step_live cv rest st st1 Hsh Hroot Hlive Hstack Hstep).
Qed.

Lemma get_odd_cycles_self_loop (fuel : nat) (vOddCyle : list (list nat)) :
  (v < num_vertices g)%nat ->
  get_odd_cycles fuel g v = Some vOddCyle -> vOddCyle ≠ [].
Proof.
  intros Hv. assert (Hn := proj1 Hwf).
  unfold get_odd_cycles, dfs_init. rewrite u32_small, Nat2N.id by lia.
  rewrite !store_Some by (rewrite length_replicate; exact Hv).
  cbn [mbind option_bind]. intros Hrun.
  match type of Hrun with
  | context [dfs_loop fuel g v ?st] =>
      destruct (dfs_loop fuel g v st) as [st'|] eqn:Hloop; [|discriminate]
  end.
  cbn [mbind option_bind] in Hrun. injection Hrun as <-.
  revert Hloop. apply dfs_loop_live; cbn.
  - constructor; cbn; try (now rewrite ?length_insert, length_replicate);
      [exact Hv|].
    intros x Hx. apply list_elem_of_singleton in Hx. now subst x.
  - apply list_lookup_insert_eq. now rewrite length_replicate.
  - intros u Hu. destruct (decide (u = v)) as [E|E]; [exact E|].
    rewrite list_lookup_insert_ne in Hu by congruence.
    apply lookup_replicate in Hu. destruct Hu as [Hu _]. discriminate.
  - intros x Hx Hxv. apply list_elem_of_singleton in Hx. contradiction.
  - constructor.
  - left. exists []. split; [reflexivity|].
    split; [apply not_elem_of_nil|].
    apply list_lookup_insert_eq. now rewrite length_replicate.
Qed.

End SelfLoop.

Lemma add_odd_cycle_constraints_from (g : graph_type) (fuel : nat)
  (l : list N) (added0 added : list GRBTempConstr) :
  for_each (fun k added =>
              let v := N.to_nat (N.shiftr k 1) in
              vOddCyle ← get_odd_cycles fuel g v;
              Some (added ++ flat_map odd_cycle_constraints vOddCyle))
           l added0 = Some added ->
  (forall c, c ∈ added0 -> c ∈ added)
  /\ (forall k vOddCyle c,
        k ∈ l -> get_odd_cycles fuel g (N.to_nat (N.shiftr k 1))
                 = Some vOddCyle ->
        c ∈ flat_map odd_cycle_constraints vOddCyle -> c ∈ added).
Proof.
  revert added0. induction l as [|k l IH]; intros added0 Hrun.
  - cbn in Hrun. injection Hrun as <-. split; [tauto|].
    intros k cyc c Hk. now apply elem_of_nil in Hk.
  - cbn [for_each] in Hrun. cbv zeta in Hrun.
    destruct (get_odd_cycles fuel g (N.to_nat (N.shiftr k 1)))
      as [cyc|] eqn:Hc; [|discriminate].
    cbn [mbind option_bind] in Hrun.
    destruct (IH _ Hrun) as [Hkeep Hall]. split.
    + intros c Hin. apply Hkeep, elem_of_app. now left.
    + intros k' cyc' c Hk' Hc' Hin. apply elem_of_cons in Hk'.
      destruct Hk' as [->|Hk']; [|now apply (Hall k' cyc' c)].
      assert (cyc' = cyc) as -> by congruence.
      apply Hkeep, elem_of_app. now right.
Qed.

(** X18: a vertex with an edge to itself. The search of [get_odd_cycles]
    from this vertex reports the one-vertex cycle, and the constraints
    that [add_odd_cycle_constraints] then adds to the model cannot be
    satisfied: among them are [x >= 1] and [x <= 0] for the first bit [x]
    of the vertex. *)
Theorem self_loop_makes_model_infeasible (g : graph_type)
  (v : graph_vertex_type) (fuel : nat) :
  wf_graph g -> (v, v) ∈ edges g -> (2 * num_vertices g <= fuel)%nat ->
  exists added,
    add_odd_cycle_constraints fuel g (N.of_nat (2 * num_vertices g))
    = Some added
    /\ forall a, ~ Forall (satisfied a) added.
Proof.
  intros Hwf He Hfuel.
  assert (Hv : (v < num_vertices g)%nat).
  { destruct Hwf as [_ Hedges]. rewrite List.Forall_forall in Hedges.
    apply list_elem_of_In in He. now destruct (Hedges _ He). }
  assert (Hself : v ∈ adjacent_vertices v g).
  { unfold adjacent_vertices. apply list_elem_of_In, in_flat_map.
    exists (v, v). split; [now apply list_elem_of_In|].
    unfold source, target. cbn [fst snd].
    destruct (decide (v = v)) as [_|N]; [|contradiction]. now left. }
  destruct (add_odd_cycle_constraints_total g fuel
              (N.of_nat (2 * num_vertices g)) Hwf Hfuel)
    as (added & Hrun); [lia|].
  exists added. split; [exact Hrun|]. intros a Hall.
  destruct (get_odd_cycles_root g v Hwf fuel Hv Hfuel)
    as (cycles & Hc & Hshape & _).
  pose proof (get_odd_cycles_self_loop g v Hwf Hself fuel cycles Hv Hc) as Hne.
  destruct cycles as [|c cycles]; [contradiction|].
  inversion Hshape as [|? ? Hcv _]; subst.
  unfold add_odd_cycle_constraints in Hrun.
  destruct (add_odd_cycle_constraints_from g fuel _ [] added Hrun)
    as [_ Hin].
  assert (Hk : (2 * N.of_nat v)%N ∈ even_indices (N.of_nat (2 * num_vertices g))).
  { rewrite even_indices_double. apply list_elem_of_fmap.
    exists v. split; [reflexivity|]. apply list_elem_of_In, in_seq. lia. }
  assert (Ev : N.to_nat (N.shiftr (2 * N.of_nat v) 1) = v).
  { rewrite N.shiftr_div_pow2. change (2 ^ 1)%N with 2%N.
    rewrite N.mul_comm, N.div_mul by lia. lia. }
  specialize (Hin (2 * N.of_nat v)%N ([v] :: cycles)).
  rewrite Ev in Hin.
  assert (Hfour : Forall (satisfied a) (odd_cycle_constraints [v])).
  2:{ apply odd_cycle_sat in Hfour. destruct Hfour as [[A B] _].
      change (inject_Z (Z.of_nat (length [v]) - 1)) with 0 in B. lra. }
  apply List.Forall_forall. intros c Hc'. apply list_elem_of_In in Hc'.
  rewrite List.Forall_forall in Hall. apply Hall, list_elem_of_In.
  apply (Hin c Hk Hc). cbn [flat_map]. apply elem_of_app. now left.
Qed.

(** ** The whole of [coloring] *)

Lemma refine_iteration_result (optimize : OptModel -> option Solution)
  (g : graph_type) (fuel_dfs : nat) (st st' : OptModel * Solution) :
  refine_iteration optimize g fuel_dfs st = Some st' ->
  bounds st'.1 = bounds st.1 /\ optimize st'.1 = Some st'.2.
Proof.
  unfold refine_iteration. cbv zeta. intros Hrun.
  destruct (adjust_variable_pair_in_objective _ _) as [obj1|]; [|discriminate].
  cbn [mbind option_bind] in Hrun.
  destruct (adjust_conflict_edge_vertices_in_objective _ _ _) as [obj2|];
    [|discriminate].
  cbn [mbind option_bind] in Hrun.
  destruct (add_odd_cycle_constraints _ _ _) as [added|]; [|discriminate].
  cbn [mbind option_bind] in Hrun.
  match type of Hrun with
  | context [optimize ?m] => destruct (optimize m) as [sol'|] eqn:Hopt
  end; [|discriminate].
  cbn [mbind option_bind] in Hrun. injection Hrun as <-. cbn.
  split; [reflexivity|exact Hopt].
Qed.

Lemma rounding_with_binding_analysis_done (fuel : nat)
  (color_num : ColorNumType) (m : OptModel) (sol : Solution) (n : nat) :
  length (X sol) = (2 * n)%nat -> (2 * n <= fuel)%nat ->
  (N.of_nat n < 2147483648)%N -> (2 * n <= length (bounds m))%nat ->
  exists r, rounding_with_binding_analysis fuel color_num m sol = Done r.
Proof.
  intros Hlen Hfuel Hn Hbs. unfold rounding_with_binding_analysis.
  pose proof (vertex_non_integer_num_le (X sol) (XE sol)) as Hle.
  assert (Hbody : forall m0 : OptModel,
             (2 * n <= length (bounds m0))%nat ->
             exists m1,
               (bs ← rounding_pass color_num (optimized_constrs m0 sol)
                                   (X sol) (bounds m0);
                Some (set_bounds m0 bs)) = Some m1
               /\ (2 * n <= length (bounds m1))%nat).
  { intros m0 Hm0.
    destruct (rounding_pass_total color_num (optimized_constrs m0 sol)
                                  (X sol) n (bounds m0) Hlen)
      as (bs & -> & Hl); [lia|lia|].
    eexists. split; [reflexivity|]. cbn. lia. }
  destruct (while_non_integer_decreases_done
              (fun m0 =>
                 bs ← rounding_pass color_num (optimized_constrs m0 sol)
                                    (X sol) (bounds m0);
                 Some (set_bounds m0 bs))
              (fun _ => non_integer_num (X sol) (XE sol))
              (fun m0 => (2 * n <= length (bounds m0))%nat)
              Hbody
              fuel NonIntegerInfo_init (non_integer_num (X sol) (XE sol))
              m 0%nat)
    as (r & Hr & _); [exact Hbs| |eauto].
  unfold iterations_left.
  destruct (vertex_non_integer_num (non_integer_num (X sol) (XE sol))
            <? vertex_non_integer_num NonIntegerInfo_init)%N; lia.
Qed.

(** X19: [coloring] as a whole, with an engine that answers every call
    with a value in the unit interval for each of the 2|V| color bits. On
    a graph whose edges join vertices (with a vertex, when no vertex is
    precolored, for the anchor) none of the vectors is read or written
    outside of its range and neither loop runs on: the call returns, with
    one color for each vertex, each of the colors 0, 1, 2 or 3. *)
Theorem coloring_returns_colors (optimize : OptModel -> option Solution)
  (g : graph_type) (color_num : ColorNumType) (has_precolored : bool)
  (fuel fuel_dfs : nat) (m_vColor : list Z) :
  wf_graph g ->
  (has_precolored = false -> (0 < num_vertices g)%nat) ->
  length m_vColor = num_vertices g ->
  (2 * num_vertices g <= fuel)%nat ->
  (2 * num_vertices g <= fuel_dfs)%nat ->
  (forall m, exists sol,
      optimize m = Some sol
      /\ length (X sol) = (2 * num_vertices g)%nat
      /\ Forall (fun x => 0 <= x <= 1) (X sol)) ->
  exists m_vColor',
    coloring optimize g color_num has_precolored fuel fuel_dfs m_vColor
    = Done m_vColor'
    /\ length m_vColor' = num_vertices g
    /\ Forall (fun c => (0 <= c < 4)%Z) m_vColor'.
Proof.
  intros Hwf Hpos Hlen Hfuel Hdfs Hengine.
  assert (Hn : (N.of_nat (num_vertices g) < 2147483648)%N) by apply Hwf.
  assert (Hengine' : forall m, exists sol,
             optimize m = Some sol
             /\ length (X sol) = (2 * num_vertices g)%nat).
  { intros m. destruct (Hengine m) as (sol & H1 & H2 & _). eauto. }
  unfold coloring. cbv zeta.
  assert (Hbits : length (vColorBits (set_optimize_model g color_num))
                  = (2 * num_vertices g)%nat).
  { unfold set_optimize_model. cbn [vColorBits].
    rewrite (u32_small (N.of_nat (num_vertices g))) by lia.
    rewrite shiftl1_double, u32_small by lia.
    rewrite length_map, length_seq. lia. }
  assert (Hbounds : (2 * num_vertices g
                     <= length (bounds (set_optimize_model g color_num)))%nat).
  { unfold set_optimize_model. cbn [bounds]. rewrite length_replicate.
    rewrite (u32_small (N.of_nat (num_vertices g))) by lia.
    rewrite shiftl1_double, u32_small by lia. lia. }
  assert (Hanchor : exists bs,
             set_anchor has_precolored g
                        (bounds (set_optimize_model g color_num)) = Some bs
             /\ (2 * num_vertices g <= length bs)%nat).
  { destruct has_precolored.
    - eexists. split; [reflexivity|exact Hbounds].
    - destruct (set_anchor_spec g (bounds (set_optimize_model g color_num))
                                (Hpos eq_refl) Hn Hbounds) as [_ ->].
      eexists. split; [reflexivity|]. now rewrite !length_insert. }
  destruct Hanchor as (bs & -> & Hbs). cbn [mbind option_bind].
  destruct (Hengine (set_bounds (set_optimize_model g color_num) bs))
    as (sol0 & -> & HX0 & Hr0).
  cbn [mbind option_bind].
  unfold coloring_loop.
  destruct (while_non_integer_decreases_done
              (refine_iteration optimize g fuel_dfs)
              (fun st => non_integer_num (X st.2) (XE st.2))
              (fun st => (length (X st.2) = (2 * num_vertices g)%nat
                          /\ length (vColorBits st.1)
                             = (2 * num_vertices g)%nat)
                         /\ Forall (fun x => 0 <= x <= 1) (X st.2)
                         /\ (2 * num_vertices g <= length (bounds st.1))%nat))
    with (fuel := fuel) (prevInfo := NonIntegerInfo_init)
         (curInfo := non_integer_num (X sol0) (XE sol0))
         (s := (set_bounds (set_optimize_model g color_num) bs, sol0))
         (iterations := 0%nat)
    as (r & Hr & HP & _).
  { intros st (Hst & Hrange & Hb).
    destruct (refine_iteration_total optimize g fuel_dfs st Hwf Hdfs
                                     Hengine' Hst) as (st' & Hrun & Hst').
    exists st'. split; [exact Hrun|]. split; [exact Hst'|].
    destruct (refine_iteration_result optimize g fuel_dfs st st' Hrun)
      as [Eb Hopt].
    destruct (Hengine st'.1) as (sol & Hsol & _ & Hrange').
    split; [|now rewrite Eb].
    assert (st'.2 = sol) as -> by congruence. exact Hrange'. }
  { cbn [fst snd set_bounds vColorBits bounds].
    split; [split; [exact HX0|exact Hbits]|]. split; [exact Hr0|exact Hbs]. }
  { pose proof (vertex_non_integer_num_le (X sol0) (XE sol0)) as Hle.
    unfold iterations_left.
    destruct (vertex_non_integer_num (non_integer_num (X sol0) (XE sol0))
              <? vertex_non_integer_num NonIntegerInfo_init)%N; lia. }
  rewrite Hr. destruct r as [[m1 sol1] k]. cbn [fst snd] in HP.
  destruct HP as ((HX1 & _) & Hrange1 & Hb1).
  destruct (rounding_with_binding_analysis_done fuel color_num m1 sol1
              (num_vertices g) HX1 Hfuel Hn Hb1) as (r' & ->).
  destruct (apply_solution_from (X sol1) (num_vertices g) 0 m_vColor)
    as (cols1 & Hrun1 & Hl1 & Hval1 & _); [lia|lia|lia|].
  assert (Happly : apply_solution (X sol1) m_vColor = Some cols1).
  { unfold apply_solution. cbv zeta. rewrite Hlen.
    rewrite (u32_small (N.of_nat (num_vertices g))) by lia.
    rewrite Nat2N.id. exact Hrun1. }
  rewrite Happly.
  assert (Hcols1 : Forall (fun c => (0 <= c < 4)%Z) cols1).
  { apply Forall_lookup. intros i c Hi.
    assert (Hib : (i < num_vertices g)%nat).
    { apply lookup_lt_Some in Hi. lia. }
    rewrite List.Forall_forall in Hrange1.
    destruct (lookup_lt_is_Some_2 (X sol1) (2 * i)%nat ltac:(lia)) as [v1 E1].
    destruct (lookup_lt_is_Some_2 (X sol1) (2 * i + 1)%nat ltac:(lia))
      as [v2 E2].
    pose proof (Hval1 i ltac:(lia)) as Hv. rewrite E1, E2 in Hv.
    change (default 0 (Some v1)) with v1 in Hv.
    change (default 0 (Some v2)) with v2 in Hv.
    assert (c = color_of v1 v2) as -> by congruence.
    destruct (color_of_range v1 v2) as [Hc _].
    - apply Hrange1. now apply list_elem_of_In, list_elem_of_lookup_2 with (2 * i)%nat.
    - apply Hrange1.
      now apply list_elem_of_In, list_elem_of_lookup_2 with (2 * i + 1)%nat.
    - lia. }
  assert (Hpost : exists count cols2,
             post_refinement has_precolored g color_num cols1
             = Some (count, cols2)
             /\ length cols2 = num_vertices g
             /\ Forall (fun c => (0 <= c < 4)%Z) cols2).
  { unfold post_refinement. destruct has_precolored.
    - exists 0%N, cols1. split; [reflexivity|]. split; [lia|exact Hcols1].
    - destruct (post_refinement_from g color_num 4%Z (edges g) 0 cols1
                  Hwf ltac:(destruct color_num; lia) ltac:(lia) Hcols1
                  (proj2 Hwf))
        as (count & cols2 & Hrun2 & Hl2 & Hc2 & _).
      exists count, cols2. split; [exact Hrun2|]. split; assumption. }
  destruct Hpost as (count & cols2 & -> & Hl2 & Hc2).
  exists cols2. cbn [snd]. split; [reflexivity|]. split; assumption.
Qed.

(** ** The objective of a refinement iteration *)

Lemma pair_gain_nonpos (a : GRBVar -> Q) (k : N) :
  pair_gain a k (a k) (a (k + 1)%N) <= 0.
Proof.
  unfold pair_gain. destruct (is_integer (a k) && is_integer (a (k + 1)%N));
    [lra|].
  destruct (Qlt_bool (a (k + 1)%N) (a k)) eqn:E1.
  - apply Qlt_bool_iff in E1. lra.
  - destruct (Qlt_bool (a k) (a (k + 1)%N)) eqn:E2; [|lra].
    apply Qlt_bool_iff in E2. lra.
Qed.

Lemma total_gain_nonpos (X : list Q) (l : list nat) :
  total_gain (assignment X) X l <= 0.
Proof.
  induction l as [|i l IH]; [cbn; lra|].
  change (total_gain (assignment X) X (i :: l))
    with (pair_gain (assignment X) (2 * N.of_nat i)
                    (default 0 (X !! (2 * i)%nat))
                    (default 0 (X !! (2 * i + 1)%nat))
          + total_gain (assignment X) X l).
  assert (E1 : default 0 (X !! (2 * i)%nat)
               = assignment X (2 * N.of_nat i)%N).
  { unfold assignment. do 2 f_equal. lia. }
  assert (E2 : default 0 (X !! (2 * i + 1)%nat)
               = assignment X (2 * N.of_nat i + 1)%N).
  { unfold assignment. do 2 f_equal. lia. }
  rewrite E1, E2.
  pose proof (pair_gain_nonpos (assignment X) (2 * N.of_nat i)). lra.
Qed.

(** X20: the objective that an iteration of the loop of [coloring] hands
    to the engine. Both adjustments are defined on the values of the 2|V|
    color bits, and at these values the new objective is not above the
    old one: every term that is added is negative or zero at the solution
    that it is computed from. *)
Theorem refined_objective_not_above (g : graph_type) (X : list Q)
  (obj : GRBLinExpr) :
  wf_graph g -> length X = (2 * num_vertices g)%nat ->
  exists obj1 obj2,
    adjust_variable_pair_in_objective X obj = Some obj1
    /\ adjust_conflict_edge_vertices_in_objective g X obj1 = Some obj2
    /\ eval (assignment X) obj1 <= eval (assignment X) obj
    /\ eval (assignment X) obj2 <= eval (assignment X) obj1.
Proof.
  intros Hwf Hlen. assert (Hn := proj1 Hwf).
  change (2 ^ 31)%N with 2147483648%N in Hn.
  destruct (adjust_pairs_from (assignment X) X (num_vertices g) 0 obj)
    as (obj1 & Hobj1 & Hval1); [lia|lia|].
  destruct (adjust_edges_from (num_vertices g) X (edges g) obj1 Hn Hlen
                              (proj2 Hwf)) as (obj2 & Hobj2 & Hval2).
  exists obj1, obj2. split.
  { unfold adjust_variable_pair_in_objective.
    rewrite (u32_small (N.of_nat (length X))) by lia.
    rewrite Hlen, even_indices_double. exact Hobj1. }
  split; [exact Hobj2|]. split.
  - rewrite Hval1.
    pose proof (total_gain_nonpos X (seq 0 (num_vertices g))). lra.
  - rewrite Hval2.
    assert (0 <= total_bit_distance X (edges g)); [|lra].
    clear. induction (edges g) as [|e l IH]; [cbn; lra|].
    change (total_bit_distance X (e :: l))
      with (bit_distance X e + total_bit_distance X l).
    unfold bit_distance.
    pose proof (Qabs_nonneg (assignment X (2 * N.of_nat (source e))
                             - assignment X (2 * N.of_nat (target e)))).
    pose proof (Qabs_nonneg (assignment X (2 * N.of_nat (source e) + 1)
                             - assignment X (2 * N.of_nat (target e) + 1))).
    lra.
Qed.

(** ** The direction test *)

(** X21: the direction test of two constraints on a variable does not
    depend on the order of the two, and it passes when one of the two
    coefficients is zero: the first binding constraint of a scan, which
    is compared with the initial record, always passes. *)
Theorem same_direction_symmetric (this rhs : ConstrVariableInfo) :
  same_direction this rhs = same_direction rhs this
  /\ (coeff this == 0 \/ coeff rhs == 0 -> same_direction this rhs = true)
  /\ same_direction this ConstrVariableInfo_init = true.
Proof.
  unfold same_direction. split; [|split].
  - destruct (Qeq_bool (coeff this) 0), (Qeq_bool (coeff rhs) 0);
      try reflexivity. cbn [orb].
    rewrite (Ascii.eqb_sym (sense rhs) (sense this)).
    destruct (Ascii.eqb (sense this) (sense rhs));
      destruct (Qlt_bool 0 (coeff this)), (Qlt_bool 0 (coeff rhs)),
               (Qlt_bool (coeff this) 0), (Qlt_bool (coeff rhs) 0);
      reflexivity.
  - intros [H|H]; apply Qeq_bool_iff in H; rewrite H;
      [reflexivity|now rewrite orb_true_r].
  - cbn [coeff ConstrVariableInfo_init].
    change (Qeq_bool 0 0) with true. now rewrite orb_true_r.
Qed.

(** * The program and the theorems at concrete inputs *)

(** The triangle with three colors, when the engine answers with the
    vertices at the colors 0, 1 and 2. *)
Example coloring_triangle :
  coloring (fun _ => Some {| X := [0; 0; 0; 1; 1; 0]; XE := [0; 0; 0];
                             slacks := replicate 15 0 |})
           triangle THREE false 6 6 [(-1)%Z; (-1)%Z; (-1)%Z]
  = Done [0; 1; 2]%Z.
Proof. vm_compute. reflexivity. Qed.

(** A single precolored vertex with three colors, when the engine answers
    with the feasible point (0.5, 0.5): the binding analysis fixes the
    bounds of the pair, the model is not optimized again, and the vertex
    ends with the color 3. *)
Example coloring_single_vertex :
  coloring (fun _ => Some {| X := [1 # 2; 1 # 2]; XE := []; slacks := [0] |})
           single_vertex THREE true 2 2 [1%Z]
  = Done [3%Z].
Proof. vm_compute. reflexivity. Qed.


Lemma cover_constraints_forbid_equal_codes_witness :
  (0, 1)%nat ∈ edges triangle
  /\ exists c, c ∈ edge_cover_constraints (0, 1)%nat
               /\ c ∈ constrs (set_optimize_model triangle THREE)
               /\ tsense c = GRB_GREATER_EQUAL /\ rhs c == 1
               /\ eval (fun _ => 1) (lhs c) == 0
               /\ ~ satisfied (fun _ => 1) c.
Proof.
  assert (He : (0, 1)%nat ∈ edges triangle) by apply list_elem_of_here.
  split; [exact He|].
  apply (cover_constraints_forbid_equal_codes triangle THREE (0, 1)%nat
                                              (fun _ => 1) He);
    try (right; reflexivity); reflexivity.
Defined.

Lemma adjust_variable_pair_in_objective_gain_witness :
  length [1 # 2; 1 # 3] = (2 * 1)%nat
  /\ exists obj',
      adjust_variable_pair_in_objective [1 # 2; 1 # 3] (lin_const 0) = Some obj'
      /\ eval (fun _ => 1) obj'
         == eval (fun _ => 1) (lin_const 0)
            + total_gain (fun _ => 1) [1 # 2; 1 # 3] (seq 0 1).
Proof.
  split; [reflexivity|].
  apply (adjust_variable_pair_in_objective_gain (fun _ => 1) [1 # 2; 1 # 3] 1
                                                (lin_const 0));
    reflexivity.
Defined.

Lemma binding_constraint_invalidation_witness :
  let optModel :=
    optimized_constrs (set_optimize_model fork_graph FOUR) fork_solution in
  let final := scan_pair FOUR optModel 2%N 3%N (1 # 2) (1 # 2) in
  (1 # 2) == 1 # 2
  /\ get_valid (init_valid FOUR) 0 0 = true
  /\ get_valid (mValidColorBits final) 0 0 = false
  /\ exists c,
       c ∈ getCol optModel 2%N ++ getCol optModel 3%N
       /\ Slack c == 0
       /\ ((tsense (row c) = GRB_GREATER_EQUAL
            /\ getCoeff c 2%N * (inject_Z (Z.of_nat 0) - (1 # 2))
               + getCoeff c 3%N * (inject_Z (Z.of_nat 0) - (1 # 2)) < 0)
           \/ (tsense (row c) = GRB_LESS_EQUAL
               /\ 0 < getCoeff c 2%N * (inject_Z (Z.of_nat 0) - (1 # 2))
                      + getCoeff c 3%N
                        * (inject_Z (Z.of_nat 0) - (1 # 2)))).
Proof.
  intros optModel final.
  assert (Hhalf : (1 # 2) == 1 # 2) by reflexivity.
  assert (Hinit : get_valid (init_valid FOUR) 0 0 = true) by reflexivity.
  assert (Hfinal : get_valid (mValidColorBits final) 0 0 = false)
    by (vm_compute; reflexivity).
  split; [exact Hhalf|]. split; [exact Hinit|]. split; [exact Hfinal|].
  destruct (binding_constraint_invalidation
              FOUR optModel 2%N 3%N (1 # 2) (1 # 2)
              binding_x0 (init_scan FOUR) 0 0 Hhalf Hhalf
              (le_S 0 0 (le_n 0)) (le_S 0 0 (le_n 0)))
    as (_ & Hsound & _).
  exact (Hsound Hinit Hfinal).
Defined.


Lemma refinement_loops_terminate_witness :
  let optimize := fun _ : OptModel =>
    Some {| X := [0; 1; 1; 0; 0; 0]; XE := [0; 0]; slacks := [] |} in
  let m := set_optimize_model path3 FOUR in
  let sol := {| X := [1 # 2; 1 # 2; 0; 1; 1; 0]; XE := [0; 0];
                slacks := [] |} in
  length (X sol) = (2 * num_vertices path3)%nat
  /\ wf_graph path3
  /\ (exists r, coloring_loop optimize path3 6 6 m sol = Done r
                /\ (r.2 <= 2 * num_vertices path3)%nat)
  /\ (exists r, rounding_with_binding_analysis 6 FOUR m sol = Done r
                /\ (r.2 <= 2 * num_vertices path3)%nat).
Proof.
  intros optimize m sol.
  assert (Hlen : length (X sol) = (2 * num_vertices path3)%nat)
    by reflexivity.
  assert (Hwf : wf_graph path3).
  { split; [reflexivity|]. repeat constructor; simpl; lia. }
  split; [exact Hlen|]. split; [exact Hwf|].
  destruct (refinement_loops_terminate optimize path3 FOUR 6 6 m sol Hlen
                                       (le_n 6))
    as (_ & _ & Hcol & Hround).
  split.
  - apply (Hcol Hwf (le_n 6) eq_refl).
    intros m'. eexists. split; reflexivity.
  - apply Hround; [reflexivity|]. vm_compute. repeat constructor.
Defined.

Lemma apply_solution_color_range_witness :
  Forall (fun x => 0 <= x <= 1) [0; 1]
  /\ Forall (satisfied (assignment [0; 1]))
            (constrs (set_optimize_model single_vertex THREE))
  /\ exists m_vColor',
      apply_solution [0; 1] [(-1)%Z] = Some m_vColor'
      /\ length m_vColor' = length [(-1)%Z]
      /\ forall (i : nat) (c : Z),
          m_vColor' !! i = Some c ->
          (0 <= c <= 3)%Z
          /\ (THREE = THREE ->
              ~ (assignment [0; 1] (2 * N.of_nat i)%N == 1 # 2
                 /\ assignment [0; 1] (2 * N.of_nat i + 1)%N == 1 # 2) ->
              (c <= 2)%Z).
Proof.
  assert (Hb : Forall (fun x => 0 <= x <= 1) [0; 1]).
  { repeat constructor; vm_compute; discriminate. }
  assert (Hsat : Forall (satisfied (assignment [0; 1]))
                        (constrs (set_optimize_model single_vertex THREE))).
  { vm_compute constrs. repeat constructor. vm_compute. discriminate. }
  split; [exact Hb|]. split; [exact Hsat|].
  apply (apply_solution_color_range single_vertex THREE [0; 1] [(-1)%Z]);
    try reflexivity; assumption.
Defined.

Lemma no_odd_cycle_without_self_loop_witness :
  wf_graph triangle /\ no_self_loop triangle
  /\ (forall v, (v < num_vertices triangle)%nat ->
                get_odd_cycles 6 triangle v = Some [])
  /\ add_odd_cycle_constraints 6 triangle
       (u32 (N.of_nat (length (vColorBits (set_optimize_model triangle THREE)))))
     = Some [].
Proof.
  assert (Hwf : wf_graph triangle).
  { split; [reflexivity|]. repeat constructor; simpl; lia. }
  assert (Hno : no_self_loop triangle).
  { repeat constructor; simpl; discriminate. }
  split; [exact Hwf|]. split; [exact Hno|].
  destruct (no_odd_cycle_without_self_loop triangle THREE 6 Hwf Hno (le_n 6))
    as (Hroot & Hadd & _).
  split; [exact Hroot|exact Hadd].
Defined.

(** ** The further properties at concrete inputs *)

(** A small graph is well formed. *)
Ltac small_wf_graph := split; [reflexivity | repeat constructor; simpl; lia].

Lemma cover_constraints_hold_iff_codes_differ_witness :
  let a := assignment [0; 0; 0; 1; 1; 0] in
  (0, 1)%nat ∈ edges triangle
  /\ ((forall c, c ∈ edge_cover_constraints (0, 1)%nat -> satisfied a c)
      <-> ~ (a (bitIdx 0) == a (bitIdx 1)
             /\ a (u32 (bitIdx 0 + 1)) == a (u32 (bitIdx 1 + 1)))).
Proof.
  intros a.
  assert (He : (0, 1)%nat ∈ edges triangle) by apply list_elem_of_here.
  split; [exact He|].
  apply (cover_constraints_hold_iff_codes_differ triangle FOUR (0, 1)%nat a He);
    vm_compute; ((left; reflexivity) || (right; reflexivity)).
Defined.

Lemma apply_solution_overwrites_witness :
  length [0; 1] = (2 * length [(-1)%Z])%nat
  /\ Forall (fun x => 0 <= x <= 1) [0; 1]
  /\ exists m_vColor',
      apply_solution [0; 1] [(-1)%Z] = Some m_vColor'
      /\ length m_vColor' = length [(-1)%Z].
Proof.
  assert (Hrange : Forall (fun x => 0 <= x <= 1) [0; 1]).
  { repeat (apply Forall_cons; [vm_compute; split; discriminate|]).
    apply Forall_nil. }
  split; [reflexivity|]. split; [exact Hrange|].
  destruct (apply_solution_overwrites [0; 1] [(-1)%Z] eq_refl eq_refl Hrange)
    as (m_vColor' & Hrun & Hlen & _).
  exists m_vColor'. split; assumption.
Defined.

Lemma apply_solution_encode_colors_witness :
  Forall (fun c => (0 <= c <= 3)%Z) [0; 1; 2]%Z
  /\ apply_solution (encode_colors [0; 1; 2]%Z) [(-1)%Z; (-1)%Z; (-1)%Z]
     = Some [0; 1; 2]%Z.
Proof.
  assert (Hc : Forall (fun c => (0 <= c <= 3)%Z) [0; 1; 2]%Z).
  { repeat (apply Forall_cons; [lia|]). apply Forall_nil. }
  split; [exact Hc|].
  apply (apply_solution_encode_colors [0; 1; 2]%Z [(-1)%Z; (-1)%Z; (-1)%Z] Hc);
    reflexivity.
Defined.

Lemma proper_coloring_is_feasible_witness :
  wf_graph triangle
  /\ (forall e, e ∈ edges triangle ->
        [0; 1; 2]%Z !! source e <> [0; 1; 2]%Z !! target e)
  /\ Forall (satisfied (assignment (encode_colors [0; 1; 2]%Z)))
            (constrs (set_optimize_model triangle THREE)).
Proof.
  assert (Hwf : wf_graph triangle) by small_wf_graph.
  assert (Hproper : forall e, e ∈ edges triangle ->
             [0; 1; 2]%Z !! source e <> [0; 1; 2]%Z !! target e).
  { intros e He.
    repeat (apply elem_of_cons in He; destruct He as [->|He]);
      try discriminate. now apply elem_of_nil in He. }
  split; [exact Hwf|]. split; [exact Hproper|].
  destruct (proper_coloring_is_feasible triangle THREE [0; 1; 2]%Z Hwf eq_refl)
    as [_ H]; [| |exact Hproper|exact H].
  - repeat (apply Forall_cons; [lia|]). apply Forall_nil.
  - intros _. repeat (apply Forall_cons; [lia|]). apply Forall_nil.
Defined.

Lemma max_degree_vertex_first_maximum_witness :
  (0 < num_vertices hub_graph)%nat
  /\ (max_degree_vertex hub_graph < num_vertices hub_graph)%nat
  /\ (forall v, (v < num_vertices hub_graph)%nat ->
        (degree v hub_graph <= degree (max_degree_vertex hub_graph) hub_graph)%N).
Proof.
  assert (Hpos : (0 < num_vertices hub_graph)%nat) by (simpl; lia).
  split; [exact Hpos|].
  destruct (max_degree_vertex_first_maximum hub_graph) as [_ H].
  destruct (H Hpos) as (H1 & H2 & _). split; assumption.
Defined.

Lemma set_anchor_fixes_max_degree_vertex_witness :
  (2 * num_vertices hub_graph <= length (replicate 14 (0, 1)))%nat
  /\ exists bs',
      set_anchor false hub_graph (replicate 14 (0, 1)) = Some bs'
      /\ bs' !! (2 * max_degree_vertex hub_graph)%nat = Some (0, 0)
      /\ bs' !! (2 * max_degree_vertex hub_graph + 1)%nat = Some (0, 0).
Proof.
  assert (Hlen : (2 * num_vertices hub_graph
                  <= length (replicate 14 (0, 1)))%nat) by (simpl; lia).
  split; [exact Hlen|].
  destruct (set_anchor_fixes_max_degree_vertex hub_graph (replicate 14 (0, 1)))
    as (_ & _ & H).
  destruct H as (bs' & Hrun & _ & H0 & H1 & _);
    [simpl; lia|reflexivity|exact Hlen|].
  exists bs'. split; [exact Hrun|]. split; assumption.
Defined.

Lemma initial_model_is_feasible_witness :
  wf_graph triangle /\ no_self_loop triangle
  /\ exists bs,
      set_anchor false triangle (bounds (set_optimize_model triangle THREE))
      = Some bs
      /\ Forall (satisfied (half_point (anchor_of false triangle)))
                (constrs (set_optimize_model triangle THREE)).
Proof.
  assert (Hwf : wf_graph triangle) by small_wf_graph.
  assert (Hno : no_self_loop triangle).
  { repeat constructor; simpl; discriminate. }
  split; [exact Hwf|]. split; [exact Hno|].
  destruct (initial_model_is_feasible triangle THREE false Hwf Hno)
    as (bs & Hrun & _ & Hsat); [intros _; simpl; lia|].
  exists bs. split; assumption.
Defined.


Lemma adjust_conflict_edge_vertices_in_objective_value_witness :
  wf_graph path3
  /\ exists obj',
      adjust_conflict_edge_vertices_in_objective
        path3 [1 # 2; 1 # 2; 0; 1; 1; 0] (lin_const 0) = Some obj'
      /\ eval (assignment [1 # 2; 1 # 2; 0; 1; 1; 0]) obj'
         <= eval (assignment [1 # 2; 1 # 2; 0; 1; 1; 0]) (lin_const 0).
Proof.
  assert (Hwf : wf_graph path3) by small_wf_graph.
  split; [exact Hwf|].
  destruct (adjust_conflict_edge_vertices_in_objective_value
              path3 [1 # 2; 1 # 2; 0; 1; 1; 0] (lin_const 0) Hwf eq_refl)
    as (obj' & Hrun & _ & Hle).
  exists obj'. split; assumption.
Defined.

Lemma refine_color_same_color_edge_witness :
  wf_graph hub_graph
  /\ exists c1 c2,
      refine_color hub_graph FOUR [0; 2; 2; 0; 1; 1; 1]%Z (1, 2)%nat
      = Some (true, <[2%nat := c2]> (<[1%nat := c1]> [0; 2; 2; 0; 1; 1; 1]%Z))
      /\ c1 ≠ c2.
Proof.
  assert (Hwf : wf_graph hub_graph) by small_wf_graph.
  split; [exact Hwf|].
  destruct (refine_color_same_color_edge hub_graph FOUR
              [0; 2; 2; 0; 1; 1; 1]%Z (1, 2)%nat 2%Z Hwf eq_refl)
    as (c1 & c2 & Hrun & Hne & _); [|reflexivity|reflexivity|].
  { repeat (apply Forall_cons; [lia|]). apply Forall_nil. }
  exists c1, c2. split; assumption.
Defined.

Lemma post_refinement_keeps_valid_colors_witness :
  wf_graph hub_graph
  /\ exists count m_vColor',
      post_refinement false hub_graph FOUR [0; 2; 2; 0; 1; 1; 1]%Z
      = Some (count, m_vColor')
      /\ length m_vColor' = length [0; 2; 2; 0; 1; 1; 1]%Z
      /\ Forall (fun c => (0 <= c < 4)%Z) m_vColor'.
Proof.
  assert (Hwf : wf_graph hub_graph) by small_wf_graph.
  split; [exact Hwf|].
  destruct (post_refinement_keeps_valid_colors false hub_graph FOUR
              [0; 2; 2; 0; 1; 1; 1]%Z Hwf eq_refl)
    as (count & cols & Hrun & Hlen & Hcol & _).
  { repeat (apply Forall_cons; [lia|]). apply Forall_nil. }
  exists count, cols. split; [exact Hrun|]. split; assumption.
Defined.

Lemma scan_pair_valid_candidates_witness :
  failFlag (scan_pair FOUR [binding_x0] 0%N 1%N (1 # 2) (1 # 2)) = false
  /\ (get_valid (mValidColorBits
                   (scan_pair FOUR [binding_x0] 0%N 1%N (1 # 2) (1 # 2))) 1 0
      = true
      <-> (FOUR = THREE -> (1, 0)%nat ≠ (1, 1)%nat)
          /\ forall constr,
               constr ∈ getCol [binding_x0] 0%N ++ getCol [binding_x0] 1%N ->
               Slack constr == 0 ->
               fails (tsense (row constr))
                     (getCoeff constr 0%N * (inject_Z (Z.of_nat 1) - (1 # 2))
                      + getCoeff constr 1%N
                        * (inject_Z (Z.of_nat 0) - (1 # 2)))
               = false).
Proof.
  assert (Hf : failFlag (scan_pair FOUR [binding_x0] 0%N 1%N (1 # 2) (1 # 2))
               = false) by (vm_compute; reflexivity).
  split; [exact Hf|].
  apply (scan_pair_valid_candidates FOUR [binding_x0] 0%N 1%N (1 # 2) (1 # 2)
                                    1 0 (le_n 1) (le_S 0 0 (le_n 0)) Hf).
Defined.

Lemma apply_valid_fixes_last_valid_witness :
  0%N ≠ 1%N
  /\ exists bs',
      apply_valid (scan_pair FOUR [binding_x0] 0%N 1%N (1 # 2) (1 # 2))
                  0%N 1%N [(0, 1); (0, 1)] = Some bs'
      /\ length bs' = length [(0, 1); (0, 1)].
Proof.
  assert (Hne : 0%N ≠ 1%N) by discriminate.
  split; [exact Hne|].
  destruct (apply_valid_fixes_last_valid
              (scan_pair FOUR [binding_x0] 0%N 1%N (1 # 2) (1 # 2))
              0%N 1%N [(0, 1); (0, 1)] Hne)
    as (bs' & Hrun & Hlen & _); [simpl; lia|simpl; lia|].
  exists bs'. split; assumption.
Defined.

Lemma rounding_with_binding_analysis_one_pass_witness :
  let m := set_optimize_model path3 FOUR in
  let sol := {| X := [1 # 2; 1 # 2; 0; 1; 1; 0]; XE := [0; 0];
                slacks := [] |} in
  length (X sol) = (2 * 3)%nat
  /\ exists m' iterations,
      rounding_with_binding_analysis 6 FOUR m sol = Done (m', iterations)
      /\ constrs m' = constrs m.
Proof.
  intros m sol.
  assert (Hlen : length (X sol) = (2 * 3)%nat) by reflexivity.
  split; [exact Hlen|].
  destruct (rounding_with_binding_analysis_one_pass 6 FOUR m sol 3)
    as (m' & k & Hrun & _ & _ & _ & _ & _ & _ & Hc & _);
    [lia|exact Hlen|reflexivity|vm_compute; repeat constructor|].
  exists m', k. split; assumption.
Defined.

Lemma set_optimize_model_shape_witness :
  wf_graph triangle
  /\ length (constrs (set_optimize_model triangle THREE))
     = (4 * length (edges triangle) + num_vertices triangle)%nat.
Proof.
  assert (Hwf : wf_graph triangle) by small_wf_graph.
  split; [exact Hwf|].
  pose proof (set_optimize_model_shape triangle THREE Hwf eq_refl) as H.
  cbv zeta in H. destruct H as (_ & _ & _ & H & _). exact H.
Defined.

Lemma get_odd_cycles_only_root_self_loop_witness :
  wf_graph loop_graph
  /\ exists vOddCyle,
      get_odd_cycles 4 loop_graph 1 = Some vOddCyle
      /\ Forall (fun c => c = [1%nat]) vOddCyle.
Proof.
  assert (Hwf : wf_graph loop_graph) by small_wf_graph.
  split; [exact Hwf|].
  destruct (get_odd_cycles_only_root_self_loop loop_graph 1 4 Hwf)
    as (cycles & Hrun & Hall & _); [simpl; lia|simpl; lia|].
  exists cycles. split; assumption.
Defined.

Lemma self_loop_makes_model_infeasible_witness :
  wf_graph loop_graph /\ (1, 1)%nat ∈ edges loop_graph
  /\ exists added,
      add_odd_cycle_constraints 4 loop_graph (N.of_nat (2 * 2)) = Some added
      /\ forall a, ~ Forall (satisfied a) added.
Proof.
  assert (Hwf : wf_graph loop_graph) by small_wf_graph.
  assert (He : (1, 1)%nat ∈ edges loop_graph).
  { apply list_elem_of_further, list_elem_of_here. }
  split; [exact Hwf|]. split; [exact He|].
  apply (self_loop_makes_model_infeasible loop_graph 1 4 Hwf He).
  simpl. lia.
Defined.

Lemma coloring_returns_colors_witness :
  let optimize := fun _ : OptModel =>
    Some {| X := [0; 1; 1; 0; 0; 0]; XE := [0; 0]; slacks := [] |} in
  wf_graph path3
  /\ exists m_vColor',
      coloring optimize path3 FOUR false 6 6 [(-1)%Z; (-1)%Z; (-1)%Z]
      = Done m_vColor'
      /\ length m_vColor' = num_vertices path3
      /\ Forall (fun c => (0 <= c < 4)%Z) m_vColor'.
Proof.
  intros optimize.
  assert (Hwf : wf_graph path3) by small_wf_graph.
  split; [exact Hwf|].
  apply (coloring_returns_colors optimize path3 FOUR false 6 6
           [(-1)%Z; (-1)%Z; (-1)%Z] Hwf).
  - intros _. simpl. lia.
  - reflexivity.
  - simpl. lia.
  - simpl. lia.
  - intros m. eexists. split; [reflexivity|]. split; [reflexivity|].
    repeat (apply Forall_cons; [vm_compute; split; discriminate|]).
    apply Forall_nil.
Defined.

Lemma refined_objective_not_above_witness :
  wf_graph path3
  /\ exists obj1 obj2,
      adjust_variable_pair_in_objective [1 # 2; 1 # 3; 0; 1; 1; 0]
                                        (lin_const 0) = Some obj1
      /\ adjust_conflict_edge_vertices_in_objective
           path3 [1 # 2; 1 # 3; 0; 1; 1; 0] obj1 = Some obj2
      /\ eval (assignment [1 # 2; 1 # 3; 0; 1; 1; 0]) obj2
         <= eval (assignment [1 # 2; 1 # 3; 0; 1; 1; 0]) obj1.
Proof.
  assert (Hwf : wf_graph path3) by small_wf_graph.
  split; [exact Hwf|].
  destruct (refined_objective_not_above path3 [1 # 2; 1 # 3; 0; 1; 1; 0]
                                        (lin_const 0) Hwf eq_refl)
    as (obj1 & obj2 & H1 & H2 & _ & H3).
  exists obj1, obj2. split; [exact H1|]. split; assumption.
Defined.

Lemma odd_cycle_constraints_hold_iff_witness :
  (length [1%nat] <= 1)%nat
  /\ ~ Forall (satisfied (fun _ => 1)) (odd_cycle_constraints [1%nat]).
Proof.
  split; [apply le_n|].
  destruct (odd_cycle_constraints_hold_iff (fun _ => 1) [1%nat]) as [_ H].
  apply H. apply le_n.
Defined.

Lemma same_direction_symmetric_witness :
  let this := {| coeff := 1; sense := ">"%char |} in
  let rhs := {| coeff := 0; sense := "<"%char |} in
  (coeff this == 0 \/ coeff rhs == 0)
  /\ same_direction this rhs = true.
Proof.
  intros this rhs.
  assert (H : coeff this == 0 \/ coeff rhs == 0) by (right; reflexivity).
  split; [exact H|].
  destruct (same_direction_symmetric this rhs) as (_ & Hz & _).
  exact (Hz H).
Defined.
